(** * mokutil: the MOK signature-list codec and the request protocol

    A shallow embedding of [src/mokutil.c].  Bytes are integers in
    [0, 256); a C buffer is a list of bytes; a pointer into a buffer is an
    offset ([Z]) from its first byte.  Memory that lies past a buffer is
    not owned by the program: a load from it yields whatever the
    surrounding heap holds, which the model takes as a parameter
    ([beyond]), and every load of the decoder is recorded so that the set
    of offsets it touches can be stated.

    Left out: failure of [malloc] and [realloc]; the echo mode of the
    terminal; end of input on [stdin] (the operator always has another
    line to type); a NULL [files] array, which [main] never passes. *)

From Stdlib Require Import ZArith Lia.
From stdpp Require Import base option list gmap strings pretty.

Local Open Scope Z_scope.

(** ** Bytes, little-endian words and memory *)

Definition heap := Z → Z.

(** The buffer [data] laid out from offset 0, followed by foreign memory. *)
Definition heap_of (data : list Z) (beyond : Z → Z) : heap :=
  λ a, if bool_decide (0 ≤ a)
       then default (beyond a) (data !! Z.to_nat a)
       else beyond a.

(** The offsets [a], [a+1], ..., [a+n-1]. *)
Definition span (a : Z) (n : nat) : list Z :=
  (λ i : nat, a + Z.of_nat i) <$> seq 0 n.

Definition peek (h : heap) (a : Z) (n : nat) : list Z := h <$> span a n.

Definition le_decode (bs : list Z) : Z := foldr (λ b acc, b + 256 * acc) 0 bs.

Fixpoint le_encode (n : nat) (v : Z) : list Z :=
  match n with
  | O => []
  | S n' => v `mod` 256 :: le_encode n' (v `div` 256)
  end.

Definition uint32_t (v : Z) : Z := v `mod` 2 ^ 32.
Definition unsigned_long (v : Z) : Z := v `mod` 2 ^ 64.
Definition int (v : Z) : Z :=
  let r := v `mod` 2 ^ 32 in if bool_decide (r < 2 ^ 31) then r else r - 2 ^ 32.

(** [memcmp]: the sign of the first differing byte pair, 0 when none. *)
Fixpoint memcmp (l r : list Z) : Z :=
  match l, r with
  | x :: l', y :: r' =>
      if bool_decide (x < y) then -1
      else if bool_decide (y < x) then 1
      else memcmp l' r'
  | _, _ => 0
  end.

(** Overwrite [bs] into [buf] starting at offset [off] ([memcpy], [read]
    into a buffer, a run of field stores). *)
Definition poke (buf : list Z) (off : Z) (bs : list Z) : list Z :=
  take (Z.to_nat off) buf ++ bs ++ drop (Z.to_nat off + length bs)%nat buf.

(** ** Loads that leave a trace *)

Definition Rd (A : Type) : Type := heap → list Z → A * list Z.

#[global] Instance rd_ret : MRet Rd := λ A a _ tr, (a, tr).
#[global] Instance rd_bind : MBind Rd :=
  λ A B k m h tr, let '(a, tr') := m h tr in k a h tr'.

Definition load (a : Z) (n : nat) : Rd (list Z) :=
  λ h tr, (peek h a n, tr ++ span a n).

Definition load_u32 (a : Z) : Rd Z :=
  bs ← load a 4; mret (le_decode bs).

(** ** Layout of the signature-list structures

    [efi.h] and [signature.h] are not in the source tree; what the code
    takes from them is laid out as the spec's data model has it. *)

(** Modelled from the spec: [efi_guid_t], a 128-bit GUID, sixteen bytes. *)
Definition efi_guid_t := list Z.

(** Modelled from the spec: [sizeof (efi_guid_t)], 128 bits. *)
Definition sizeof_efi_guid_t : Z := 16.

(** Modelled from the spec: [sizeof (EFI_SIGNATURE_LIST)], the record
    header: the type GUID, then the total size, the header size and the
    per-entry size, 32 bits each. *)
Definition sizeof_EFI_SIGNATURE_LIST : Z := 28.

(** Modelled from the spec: [sizeof (EFI_SIGNATURE_DATA)], an entry: the
    owner GUID and the first byte of the payload. *)
Definition sizeof_EFI_SIGNATURE_DATA : Z := 17.

(** Modelled from the spec: [efi_guidcmp] of [efi.h] compares two GUIDs
    passed by value, byte by byte, and answers 0 when they are equal. *)
Definition efi_guidcmp (left right : efi_guid_t) : Z := memcmp left right.

(** Modelled from the spec: the [EFI_GUID] initialiser of [efi.h], every
    multi-byte field little-endian as the spec's design notes say. *)
Definition EFI_GUID (a b c d0 d1 d2 d3 d4 d5 d6 d7 : Z) : efi_guid_t :=
  le_encode 4 a ++ le_encode 2 b ++ le_encode 2 c ++ [d0; d1; d2; d3; d4; d5; d6; d7].

Definition SHIM_LOCK_GUID : efi_guid_t :=
  EFI_GUID 0x605dab50 0xe046 0x4300 0xab 0xb6 0x3d 0xd8 0x10 0xdd 0x8b 0x23.

(** Modelled from the spec: the four fields of [EFI_SIGNATURE_LIST] at
    the record [p], in the order of the spec's record header, the sizes
    little-endian. *)
Definition SignatureType (p : Z) : Rd efi_guid_t := load p 16.
Definition SignatureListSize (p : Z) : Rd Z := load_u32 (p + 16).
Definition SignatureHeaderSize (p : Z) : Rd Z := load_u32 (p + 20).
Definition SignatureSize (p : Z) : Rd Z := load_u32 (p + 24).

Record MokListNode := { mok_size : Z; mok : Z }.

(** The bytes a consumer of the node reads: [mok_size] bytes at [mok]. *)
Definition payload (h : heap) (n : MokListNode) : list Z :=
  peek h (mok n) (Z.to_nat (mok_size n)).

(** The node appended for the record at [CertList]: [Cert] is the entry
    after the fixed header and the optional signature header, the key
    starts after the owner GUID. *)
Definition new_node (CertList hs ss : Z) : MokListNode :=
  let Cert := CertList + sizeof_EFI_SIGNATURE_LIST + hs in
  {| mok_size := uint32_t (ss - sizeof_efi_guid_t);
     mok := Cert + sizeof_efi_guid_t |}.

Section Decode.

(** The two record types the tool understands; their values come from
    [signature.h], which is not in the source tree. *)
Variables EfiCertX509Guid EfiHashSha256Guid : efi_guid_t.

(** The [while] loop of [build_mok_list].  [None] is "out of fuel".
    Allocation failure is not modelled. *)
Fixpoint build_mok_list_loop (fuel : nat) (dbsize CertList : Z)
    (mlist : list MokListNode) : Rd (option (list MokListNode)) :=
  match fuel with
  | O => mret None
  | S fuel' =>
    go ← (if bool_decide (0 < dbsize)
            then sls ← SignatureListSize CertList;
                 mret (bool_decide (sls ≤ dbsize))
            else mret false) : Rd bool;
     if negb go then mret (Some mlist) else
     ty ← SignatureType CertList;
     sls ← SignatureListSize CertList;
     if bool_decide (efi_guidcmp ty EfiCertX509Guid ≠ 0)
        && bool_decide (efi_guidcmp ty EfiHashSha256Guid ≠ 0)
     then build_mok_list_loop fuel' (dbsize - sls) (CertList + sls) mlist
     else
     bad ← (if bool_decide (efi_guidcmp ty EfiHashSha256Guid = 0)
             then ss ← SignatureSize CertList;
                  mret (bool_decide (ss ≠ 48))
             else mret false) : Rd bool;
     if (bad : bool)
     then build_mok_list_loop fuel' (dbsize - sls) (CertList + sls) mlist
     else
     hs ← SignatureHeaderSize CertList;
     ss ← SignatureSize CertList;
     build_mok_list_loop fuel' (dbsize - sls) (CertList + sls)
                         (mlist ++ [new_node CertList hs ss])
  end.

(** [build_mok_list (data, data_size, &mok_num)]: the list (whose length
    is [mok_num]) and the offsets loaded on the way. *)
Definition build_mok_list (fuel : nat) (h : heap) (data_size : Z)
    : option (list MokListNode) * list Z :=
  build_mok_list_loop fuel data_size 0 [] h [].

End Decode.

(** ** The password-derived tag *)

Definition PASSWORD_MAX : Z := 16.
Definition PASSWORD_MIN : Z := 8.

(** OpenSSL's constant: the length of a SHA-256 digest. *)
Definition SHA256_DIGEST_LENGTH : Z := 32.

(** Modelled from the spec: [sizeof (efi_char16_t)], a UTF-16 code unit. *)
Definition sizeof_efi_char16_t : Z := 2.

(** Modelled from the spec: [efichar_from_char] is declared in [efi.h] and
    defined outside the source tree.  The spec has the password re-encoded
    as UTF-16LE, one code unit for each character, and truncated or padded
    to the fixed budget of code units that the destination leaves once its
    terminator is set aside; the result is the destination's contents and
    the count of bytes that are hashed. *)
Definition efichar_from_char (src : list Z) (dest_len : Z) : list Z * Z :=
  let budget := Z.to_nat (dest_len `div` sizeof_efi_char16_t - 1) in
  let units := take budget (src ++ replicate budget 0) in
  ((units ≫= le_encode 2) ++ le_encode 2 0, Z.of_nat budget * sizeof_efi_char16_t).

(** The C string that starts a run of bytes: what comes before the
    first NUL.  A line that [getline] has read may hold NUL bytes. *)
Fixpoint c_str (l : list Z) : list Z :=
  match l with
  | [] => []
  | x :: l' => if bool_decide (x = 0) then [] else x :: c_str l'
  end.

(** [strcmp] compares the two C strings, terminator included, and so
    never looks past the first NUL of either argument. *)
Definition strcmp (l r : list Z) : Z := memcmp (c_str l ++ [0]) (c_str r ++ [0]).

(** ** The variable store, the terminal and the file system

    [read_variable], [test_variable], [edit_variable] and
    [delete_variable] are declared in [efi.h] and defined outside the
    source tree; the spec gives the store they front: a variable is read
    or deleted by name (failing when it is not found) and written (failing
    with a write error). *)

(** The variables by namespace and name, the outcomes of the writes to
    come ([false]: a write error) and the count of lines read so far. *)
Record world := World {
  vars : gmap (efi_guid_t * string) (list Z);
  edits : list bool;
  cursor : nat
}.

(** The newline that ends the messages. *)
Definition LF : string := String (Ascii.ascii_of_nat 10) EmptyString.

Definition IO (A : Type) : Type := world → A * world * list string.

#[global] Instance io_ret : MRet IO := λ A a w, (a, w, []).
#[global] Instance io_bind : MBind IO :=
  λ A B k m w, let '(a, w1, o1) := m w in
               let '(b, w2, o2) := k a w1 in (b, w2, o1 ++ o2).

(** [printf] and [fprintf (stderr, ...)]. *)
Definition say (s : string) : IO unit := λ w, (tt, w, [s]).

(** Modelled from the spec: [read_variable], the store's read; [None]
    is any result but [EFI_SUCCESS]. *)
Definition read_variable (guid : efi_guid_t) (name : string) : IO (option (list Z)) :=
  λ w, (vars w !! (guid, name), w, []).

(** Modelled from the spec: [test_variable], whether the variable is
    there. *)
Definition test_variable (guid : efi_guid_t) (name : string) : IO bool :=
  λ w, (bool_decide (is_Some (vars w !! (guid, name))), w, []).

(** Modelled from the spec: [delete_variable], the store's delete, which
    fails only for a variable that is not found. *)
Definition delete_variable (guid : efi_guid_t) (name : string) : IO bool :=
  λ w, match vars w !! (guid, name) with
       | Some _ => (true, World (delete (guid, name) (vars w)) (edits w) (cursor w), [])
       | None => (false, w, [])
       end.

(** Modelled from the spec: [edit_variable], the store's write; the next
    outcome in [edits] says whether it fails with a write error, in which
    case nothing is stored. *)
Definition edit_variable (guid : efi_guid_t) (name : string) (data : list Z) : IO bool :=
  λ w, match edits w with
       | false :: rest => (false, World (vars w) rest (cursor w), [])
       | _ => (true, World (<[(guid, name) := data]> (vars w)) (tail (edits w)) (cursor w), [])
       end.

Section Protocol.

Variables EfiCertX509Guid EfiHashSha256Guid : efi_guid_t.
(** The two firmware namespaces of [efi.h]. *)
Variables EFI_GLOBAL_VARIABLE EFI_IMAGE_SECURITY_DATABASE_GUID : efi_guid_t.
(** OpenSSL: the digest of a whole message, and whether a blob parses
    as a DER certificate. *)
Variable SHA256 : list Z → list Z.
Variable d2i_X509 : list Z → bool.
(** Memory that the program reads without owning or before writing it. *)
Variable beyond : Z → Z.
(** The lines the operator types, without their newline (a line may
    hold NUL bytes), and the files on disk. *)
Variable stdin : nat → list Z.
Variable fs : string → option (list Z).

(** The first [n] bytes at a C pointer to [buf]. *)
Definition bytes_at (buf : list Z) (n : Z) : list Z :=
  peek (heap_of buf beyond) 0 (Z.to_nat n).

Definition test_and_delete_var (var_name : string) : IO Z :=
  found ← test_variable SHIM_LOCK_GUID var_name;
  if (found : bool) then
    ok ← delete_variable SHIM_LOCK_GUID var_name;
    if (ok : bool) then mret 0
    else _ ← say ("Failed to unset " +:+ var_name +:+ LF); mret (-1)
  else mret 0.

(** [getline] with the newline removed; the result is [nread - 1]. *)
Definition read_hidden_line : IO (list Z * Z) :=
  λ w, let line := stdin (cursor w) in
       ((line, Z.of_nat (length line)),
        World (vars w) (edits w) (S (cursor w)), []).

(** The first loop of [get_password]; [tries] is [3 - fail]. *)
Fixpoint get_password_first (tries : nat) (min max : Z) : IO (option (list Z * Z)) :=
  match tries with
  | O => mret None
  | S tries' =>
    _ ← say ("input password (" +:+ pretty min +:+ "~" +:+ pretty max +:+ " characters): ");
    r ← read_hidden_line;
    _ ← say LF;
    let '(password_1, len_1) := r : list Z * Z in
    if bool_decide (len_1 > max) || bool_decide (len_1 < min) then
      _ ← say ("password should be " +:+ pretty min +:+ "~" +:+ pretty max +:+ " characters" +:+ LF);
      get_password_first tries' min max
    else mret (Some (password_1, len_1))
  end.

(** The second loop of [get_password]. *)
Fixpoint get_password_again (tries : nat) (password_1 : list Z) (len_1 : Z) : IO bool :=
  match tries with
  | O => mret false
  | S tries' =>
    _ ← say "input password again: ";
    r ← read_hidden_line;
    _ ← say LF;
    let '(password_2, len_2) := r : list Z * Z in
    if bool_decide (len_1 ≠ len_2) || bool_decide (strcmp password_1 password_2 ≠ 0) then
      _ ← say ("password doesn't match" +:+ LF);
      get_password_again tries' password_1 len_1
    else mret true
  end.

(** [get_password]: [None] is the result -1. *)
Definition get_password (min max : Z) : IO (option (list Z * Z)) :=
  first ← get_password_first 3 min max;
  match first : option (list Z * Z) with
  | None => mret None
  | Some (password_1, len_1) =>
    same ← get_password_again 3 password_1 len_1;
    if (same : bool) then mret (Some (password_1, len_1)) else mret None
  end.

(** [generate_auth]: the digest written to [auth], [None] for -1.  The
    context of the three OpenSSL calls is the message absorbed so far. *)
Definition generate_auth (new_list : option (list Z)) (list_len : Z)
    (password : option (list Z)) (pw_len : Z) : option (list Z) :=
  match password with
  | None => None
  | Some password =>
    let '(efichar_pass, efichar_len) :=
      efichar_from_char password ((PASSWORD_MAX + 1) * sizeof_efi_char16_t) in
    let ctx : list Z := [] in
    let ctx := match new_list with
               | Some l => ctx ++ bytes_at l list_len
               | None => ctx
               end in
    let ctx := ctx ++ bytes_at efichar_pass efichar_len in
    Some (SHA256 ctx)
  end.

(** The [auth] array as a caller finds it: what [generate_auth] wrote,
    or the array's previous contents when it wrote nothing. *)
Definition auth_buffer (r : option (list Z)) : list Z :=
  default (peek beyond 0 (Z.to_nat SHA256_DIGEST_LENGTH)) r.

Definition req_name (import : bool) : string := if import then "MokNew" else "MokDel".
Definition auth_name (import : bool) : string := if import then "MokAuth" else "MokDelAuth".

Definition update_request (new_list : option (list Z)) (list_len : Z) (import : bool) : IO Z :=
  pw ← get_password PASSWORD_MIN PASSWORD_MAX;
  match pw : option (list Z * Z) with
  | None => _ ← say ("Abort" +:+ LF); mret (-1)
  | Some (password, pw_len) =>
    let auth := auth_buffer (generate_auth new_list list_len (Some password) pw_len) in
    wrote ← match new_list with
            | Some l =>
              ok ← edit_variable SHIM_LOCK_GUID (req_name import) (bytes_at l list_len);
              if (ok : bool) then mret true
              else _ ← say ("Failed to " +:+ (if import then "enroll new" else "delete") +:+ " keys" +:+ LF);
                   mret false
            | None => _ ← test_and_delete_var (req_name import); mret true
            end;
    if negb wrote then mret (-1) else
    ok ← edit_variable SHIM_LOCK_GUID (auth_name import) (bytes_at auth SHA256_DIGEST_LENGTH);
    if (ok : bool) then mret 0
    else _ ← say ("Failed to write " +:+ auth_name import +:+ LF);
         _ ← test_and_delete_var (req_name import);
         mret (-1)
  end.

(** [is_duplicate]: [None] when decoding the named list never returns. *)
Definition is_duplicate (fuel : nat) (cert : list Z) (cert_size : Z)
    (db_name : string) (guid : efi_guid_t)
    (store : gmap (efi_guid_t * string) (list Z)) : option Z :=
  if bool_decide (cert_size = 0) then Some 0 else
  match store !! (guid, db_name) with
  | None => Some 0
  | Some data =>
    let h := heap_of data beyond in
    match (build_mok_list EfiCertX509Guid EfiHashSha256Guid fuel h
                          (Z.of_nat (length data))).1 with
    | None => None
    | Some mlist =>
      Some (if existsb (λ n, bool_decide (mok_size n = cert_size)
                             && bool_decide (memcmp (peek h (mok n) (Z.to_nat cert_size))
                                                    (bytes_at cert cert_size) = 0))
                       mlist
            then 1 else 0)
    end
  end.

(** C's [a || b] over calls that may not return. *)
Definition c_or (a b : option Z) : option Z :=
  x ← a; if bool_decide (x ≠ 0) then Some 1 else
  y ← b; Some (if bool_decide (y ≠ 0) then 1 else 0).

Definition c_not (a : option Z) : option Z :=
  x ← a; Some (if bool_decide (x ≠ 0) then 0 else 1).

Definition is_valid_request (fuel : nat) (mok : list Z) (mok_size : Z)
    (import : bool) (store : gmap (efi_guid_t * string) (list Z)) : option Z :=
  let dup name guid := is_duplicate fuel mok mok_size name guid store in
  if import then
    c ← c_or (dup "PK" EFI_GLOBAL_VARIABLE)
        (c_or (dup "KEK" EFI_GLOBAL_VARIABLE)
        (c_or (dup "db" EFI_IMAGE_SECURITY_DATABASE_GUID)
        (c_or (dup "MokListRT" SHIM_LOCK_GUID)
              (dup "MokNew" SHIM_LOCK_GUID))));
    Some (if bool_decide (c ≠ 0) then 0 else 1)
  else
    c ← c_or (c_not (dup "MokListRT" SHIM_LOCK_GUID))
             (dup "MokDel" SHIM_LOCK_GUID);
    Some (if bool_decide (c ≠ 0) then 0 else 1).

(** What the challenge comes to: the value that [verify_old_req]
    returns, or a [getline] that is handed the buffer the loop has already
    freed, after which the program has no defined behaviour. *)
Inductive challenge := Answered (ret : Z) | UseAfterFree.

(** The loop of [verify_old_req]; [tries] is [3 - fail], [tag] the
    stored authentication variable.  [freed] says that [password] points
    to freed memory: the branch for a line of the wrong length frees the
    buffer and leaves the pointer as it is, and the next round passes that
    pointer to [getline]. *)
Fixpoint verify_old_req_loop (tries : nat) (freed : bool) (old_req : list Z)
    (old_req_size : Z) (tag : list Z) : IO challenge :=
  match tries with
  | O => mret (Answered 0)
  | S tries' =>
    _ ← say "input old password: ";
    if freed then mret UseAfterFree else
    r ← read_hidden_line;
    _ ← say LF;
    let '(password, pw_len) := r : list Z * Z in
    if bool_decide (pw_len > PASSWORD_MAX) || bool_decide (pw_len < PASSWORD_MIN) then
      _ ← say ("invalid password" +:+ LF);
      verify_old_req_loop tries' true old_req old_req_size tag
    else
      let auth := auth_buffer (generate_auth (Some old_req) old_req_size
                                             (Some password) pw_len) in
      if bool_decide (memcmp (bytes_at auth SHA256_DIGEST_LENGTH)
                             (bytes_at tag SHA256_DIGEST_LENGTH) = 0)
      then mret (Answered 1)
      else verify_old_req_loop tries' false old_req old_req_size tag
  end.

Definition verify_old_req (old_req : list Z) (old_req_size : Z) (import : bool)
    : IO challenge :=
  req_auth ← read_variable SHIM_LOCK_GUID (auth_name import);
  match req_auth : option (list Z) with
  | None => _ ← say ("Failed to read " +:+ auth_name import +:+ LF); mret (Answered 0)
  | Some tag => verify_old_req_loop 3 false old_req old_req_size tag
  end.

(** The first loop of [issue_mok_request]: [sizes] and the sum of the
    file sizes, or the name of the file whose [stat] failed. *)
Fixpoint stat_files (files : list string) : string + (list Z * Z) :=
  match files with
  | [] => inr ([], 0)
  | f :: files' =>
    match fs f with
    | None => inl f
    | Some contents =>
      match stat_files files' with
      | inl g => inl g
      | inr (sizes, total) =>
        let st_size := Z.of_nat (length contents) in
        inr (uint32_t st_size :: sizes, st_size + total)
      end
    end
  end.

(** The state of the second loop: the buffer, the cursor [ptr] into it
    and the bytes accepted so far. *)
Record request := Request { new_list : list Z; ptr : Z; real_size : Z }.

(** The record header and owner that the loop stores at [ptr]. *)
Definition store_header (buf : list Z) (CertList : Z) (size : Z) : list Z :=
  let CertData := CertList + sizeof_EFI_SIGNATURE_LIST in
  let buf := poke buf CertList EfiCertX509Guid in
  let buf := poke buf (CertList + 16)
               (le_encode 4 (uint32_t (size + sizeof_EFI_SIGNATURE_LIST
                                       + sizeof_EFI_SIGNATURE_DATA - 1))) in
  let buf := poke buf (CertList + 20) (le_encode 4 0) in
  let buf := poke buf (CertList + 24) (le_encode 4 (uint32_t (size + sizeof_efi_guid_t))) in
  poke buf CertData SHIM_LOCK_GUID.

(** The second loop.  The outer [None] is a duplicate check that never
    returns, the inner one is [goto error]. *)
Fixpoint encode_files (fuel : nat) (import : bool)
    (store : gmap (efi_guid_t * string) (list Z))
    (files : list string) (sizes : list Z) (st : request)
    : option (option request * list string) :=
  match files, sizes with
  | f :: files', size :: sizes' =>
    let CertList := ptr st in
    let CertData := CertList + sizeof_EFI_SIGNATURE_LIST in
    let buf := store_header (new_list st) CertList size in
    match fs f with
    | None => Some (None, ["Failed to open " +:+ f +:+ LF])
    | Some contents =>
      let p := CertData + sizeof_efi_guid_t in
      let key := take (Z.to_nat size) contents in
      let read_size := Z.of_nat (length key) in
      let buf := poke buf p key in
      if bool_decide (read_size < 0) || bool_decide (read_size ≠ size)
      then Some (None, ["Failed to read " +:+ f +:+ LF])
      else
        let warn := if d2i_X509 key then []
                    else ["Warning!!! " +:+ f +:+
                          (" is not a valid x509 certificate in DER format" +:+ LF)] in
        match is_valid_request fuel (peek (heap_of buf beyond) p (Z.to_nat size))
                               size import store with
        | None => None
        | Some valid =>
          let '(st', note) :=
            if bool_decide (valid ≠ 0)
            then (Request buf (p + size)
                    (unsigned_long (real_size st + size + sizeof_EFI_SIGNATURE_LIST
                                    + sizeof_efi_guid_t)), [])
            else (Request buf (p - (sizeof_EFI_SIGNATURE_LIST + sizeof_efi_guid_t))
                    (real_size st), ["Skip " +:+ f +:+ LF]) in
          match encode_files fuel import store files' sizes' st' with
          | None => None
          | Some (r, out) => Some (r, warn ++ note ++ out)
          end
        end
    end
  | _, _ => Some (Some st, [])
  end.

(** [issue_mok_request]; [None] when it comes to no result: a duplicate
    check never returns, or the challenge runs into freed memory. *)
Definition issue_mok_request (fuel : nat) (files : list string) (import : bool)
    (w : world) : option (Z * world * list string) :=
  let total := uint32_t (Z.of_nat (length files)) in
  match stat_files files with
  | inl f => Some (-1, w, ["Failed to get file status, " +:+ f +:+ LF])
  | inr (sizes, list_size) =>
    let list_size := list_size + sizeof_EFI_SIGNATURE_LIST * total in
    let list_size := list_size + sizeof_efi_guid_t * total in
    let old_req := vars w !! (SHIM_LOCK_GUID, req_name import) in
    let list_size := match old_req with
                     | Some d => list_size + Z.of_nat (length d)
                     | None => list_size
                     end in
    let fresh := peek beyond 0 (Z.to_nat (unsigned_long list_size)) in
    match encode_files fuel import (vars w) files sizes (Request fresh 0 0) with
    | None => None
    | Some (None, out) => Some (-1, w, out)
    | Some (Some st, out) =>
      if bool_decide (real_size st = 0) then Some (0, w, out) else
      let commit (st : request) (w0 : world) (out0 : list string) :=
        let '(r, w', out') :=
          (r ← update_request (Some (new_list st)) (int (real_size st)) import;
           if bool_decide (r < 0) then mret (-1) else mret 0) w0 in
        Some (r, w', out0 ++ out') in
      match old_req with
      | Some d =>
        let '(ok, w0, o0) := verify_old_req d (Z.of_nat (length d)) import w in
        match ok with
        | UseAfterFree => None
        | Answered ok =>
          if bool_decide (ok = 0) then Some (-1, w0, out ++ o0)
          else commit (Request (poke (new_list st) (real_size st) d) (ptr st)
                         (unsigned_long (real_size st + Z.of_nat (length d))))
                      w0 (out ++ o0)
        end
      | None => commit st w out
      end
    end
  end.

(** [import_moks] and [delete_moks]. *)
Definition import_moks (fuel : nat) (files : list string) (w : world)
    : option (Z * world * list string) :=
  issue_mok_request fuel files true w.

Definition delete_moks (fuel : nat) (files : list string) (w : world)
    : option (Z * world * list string) :=
  issue_mok_request fuel files false w.

Definition revoke_request : IO Z :=
  r ← test_and_delete_var "MokNew";
  if bool_decide (r < 0) then mret (-1) else
  r ← test_and_delete_var "MokAuth";
  if bool_decide (r < 0) then mret (-1) else mret 0.

Definition set_password : IO Z :=
  pw ← get_password PASSWORD_MIN PASSWORD_MAX;
  match pw : option (list Z * Z) with
  | None => _ ← say ("Abort" +:+ LF); mret (-1)
  | Some (password, pw_len) =>
    match generate_auth None 0 (Some password) pw_len with
    | None => _ ← say ("Couldn't generate hash" +:+ LF); mret (-1)
    | Some auth =>
      ok ← edit_variable SHIM_LOCK_GUID "MokPW" (bytes_at auth SHA256_DIGEST_LENGTH);
      if (ok : bool) then mret 0
      else _ ← say ("Failed to write MokPW" +:+ LF); mret (-1)
    end
  end.

Definition reset_moks : IO Z :=
  r ← update_request None 0 true;
  if bool_decide (r ≠ 0)
  then _ ← say ("Failed to issue a reset request" +:+ LF); mret (-1)
  else mret 0.

(** C's [a && b] over calls that may not return. *)
Definition c_and (a b : option Z) : option Z :=
  x ← a; if bool_decide (x = 0) then Some 0 else
  y ← b; Some (if bool_decide (y ≠ 0) then 1 else 0).

(** [test_key]: the result and what is printed; [None] when a duplicate
    check never returns. *)
Definition test_key (fuel : nat) (key_file : string)
    (store : gmap (efi_guid_t * string) (list Z)) : option (Z * list string) :=
  match fs key_file with
  | None => Some (-1, ["Failed to get file status, " +:+ key_file +:+ LF])
  | Some contents =>
    let st_size := Z.of_nat (length contents) in
    let key := take (Z.to_nat st_size) contents in
    let read_size := Z.of_nat (length key) in
    if bool_decide (read_size < 0) || bool_decide (read_size ≠ st_size)
    then Some (-1, ["Failed to read " +:+ key_file +:+ LF])
    else
      let dup name guid := is_duplicate fuel key (uint32_t read_size) name guid store in
      c ← c_and (c_not (dup "PK" EFI_GLOBAL_VARIABLE))
          (c_and (c_not (dup "KEK" EFI_GLOBAL_VARIABLE))
          (c_and (c_not (dup "db" EFI_GLOBAL_VARIABLE))
          (c_and (c_not (dup "MokListRT" SHIM_LOCK_GUID))
                 (c_not (dup "MokNew" SHIM_LOCK_GUID)))));
      Some (if bool_decide (c ≠ 0)
            then (0, [key_file +:+ " is not enrolled" +:+ LF])
            else (1, [key_file +:+ " is already enrolled" +:+ LF]))
  end.

(** Whether [open (filename, O_CREAT | O_WRONLY, mode)] succeeds, and the
    count that [write] answers for the bytes it is given. *)
Variable creat : string → bool.
Variable write : string → list Z → Z.

(** [snprintf] with [%04d]: at least four digits, zeros in front. *)
Definition zero_padded (i : Z) : string :=
  let digits := pretty i in
  Nat.iter (4 - String.length digits) (λ s, "0" +:+ s) digits.

Definition mok_filename (i : Z) : string := "MOK-" +:+ zero_padded (i + 1) +:+ ".der".

(** The loop of [export_moks] from index [i] on: the result and, in
    order, the files written with the bytes that reached them. *)
Fixpoint export_loop (h : heap) (i : Z) (mlist : list MokListNode)
    : Z * list (string * list Z) * list string :=
  match mlist with
  | [] => (0, [], [])
  | node :: mlist' =>
    let filename := mok_filename i in
    if negb (creat filename)
    then (-1, [], ["Failed to open " +:+ filename +:+ LF])
    else
      let bytes := peek h (mok node) (Z.to_nat (mok_size node)) in
      let write_size := write filename bytes in
      if bool_decide (write_size ≠ mok_size node)
      then (-1, [(filename, take (Z.to_nat write_size) bytes)],
            ["Failed to write " +:+ filename +:+ LF])
      else
        let '(r, written, out) := export_loop h (i + 1) mlist' in
        (r, (filename, bytes) :: written, out)
  end.

(** [export_moks]; [None] when decoding MokListRT never returns. *)
Definition export_moks (fuel : nat) (store : gmap (efi_guid_t * string) (list Z))
    : option (Z * list (string * list Z) * list string) :=
  match store !! (SHIM_LOCK_GUID, "MokListRT"%string) with
  | None => Some (-1, [], ["Failed to read MokListRT" +:+ LF])
  | Some data =>
    let h := heap_of data beyond in
    match (build_mok_list EfiCertX509Guid EfiHashSha256Guid fuel h
                          (Z.of_nat (length data))).1 with
    | None => None
    | Some mlist => Some (export_loop h 0 mlist)
    end
  end.

End Protocol.

(** ** SHA-256

    The digest that OpenSSL computes, written out from FIPS 180-4 so that
    the protocol can be run on concrete inputs. *)

Definition add32 (x y : Z) : Z := (x + y) `mod` 2 ^ 32.
Definition rotr (n x : Z) : Z := Z.lor (Z.shiftr x n) (Z.shiftl x (32 - n) `mod` 2 ^ 32).
Definition Ch (x y z : Z) : Z := Z.lxor (Z.land x y) (Z.land (Z.lxor x 0xffffffff) z).
Definition Maj (x y z : Z) : Z := Z.lxor (Z.lxor (Z.land x y) (Z.land x z)) (Z.land y z).
Definition Sigma0 (x : Z) : Z := Z.lxor (Z.lxor (rotr 2 x) (rotr 13 x)) (rotr 22 x).
Definition Sigma1 (x : Z) : Z := Z.lxor (Z.lxor (rotr 6 x) (rotr 11 x)) (rotr 25 x).
Definition sigma0 (x : Z) : Z := Z.lxor (Z.lxor (rotr 7 x) (rotr 18 x)) (Z.shiftr x 3).
Definition sigma1 (x : Z) : Z := Z.lxor (Z.lxor (rotr 17 x) (rotr 19 x)) (Z.shiftr x 10).

(** The first 64 primes, and the first 32 bits of the fractional parts of
    their square and cube roots, from which FIPS 180-4 takes the initial
    hash value and the round constants. *)
Definition is_prime (p : Z) : bool :=
  forallb (λ d, negb (bool_decide (p `mod` d = 0))) (seqZ 2 (p - 2)).

Definition primes64 : list Z := take 64 (filter (λ p, is_prime p = true) (seqZ 2 310)).

Definition icbrt (n : Z) : Z :=
  foldl (λ r b, let r' := r + 2 ^ Z.of_nat b in if bool_decide (r' * r' * r' ≤ n) then r' else r)
        0 (reverse (seq 0 36)).

Definition sha256_K : list Z :=
  Eval vm_compute in (λ p, icbrt (p * 2 ^ 96) `mod` 2 ^ 32) <$> primes64.

Record sha256_state := Sha256State { sa : Z; sb : Z; sc : Z; sd : Z; se : Z; sf : Z; sg : Z; sh : Z }.

Definition sha256_H0 : sha256_state :=
  Eval vm_compute in
    let r (i : nat) := Z.sqrt ((primes64 !!! i) * 2 ^ 64) `mod` 2 ^ 32 in
    Sha256State (r 0%nat) (r 1%nat) (r 2%nat) (r 3%nat) (r 4%nat) (r 5%nat) (r 6%nat) (r 7%nat).

Definition be_decode (bs : list Z) : Z := foldl (λ acc b, 256 * acc + b) 0 bs.
Definition be_encode_4 (v : Z) : list Z :=
  [(v `div` 2 ^ 24) `mod` 256; (v `div` 2 ^ 16) `mod` 256; (v `div` 2 ^ 8) `mod` 256; v `mod` 256].

Fixpoint be_words (n : nat) (bs : list Z) : list Z :=
  match n with
  | O => []
  | S n' => be_decode (take 4 bs) :: be_words n' (drop 4 bs)
  end.

Definition sha256_round (sw : sha256_state * list Z) (k : Z) : sha256_state * list Z :=
  let '(s, win) := sw in
  let w := win !!! 0%nat in
  let T1 := add32 (add32 (add32 (add32 (sh s) (Sigma1 (se s))) (Ch (se s) (sf s) (sg s))) k) w in
  let T2 := add32 (Sigma0 (sa s)) (Maj (sa s) (sb s) (sc s)) in
  let next := add32 (add32 (add32 (sigma1 (win !!! 14%nat)) (win !!! 9%nat))
                           (sigma0 (win !!! 1%nat))) w in
  (Sha256State (add32 T1 T2) (sa s) (sb s) (sc s) (add32 (sd s) T1) (se s) (sf s) (sg s),
   tail win ++ [next]).

Definition sha256_compress (H : sha256_state) (block : list Z) : sha256_state :=
  let s := (foldl sha256_round (H, be_words 16 block) sha256_K).1 in
  Sha256State (add32 (sa H) (sa s)) (add32 (sb H) (sb s)) (add32 (sc H) (sc s))
              (add32 (sd H) (sd s)) (add32 (se H) (se s)) (add32 (sf H) (sf s))
              (add32 (sg H) (sg s)) (add32 (sh H) (sh s)).

Fixpoint sha256_blocks (n : nat) (H : sha256_state) (bs : list Z) : sha256_state :=
  match n, bs with
  | S n', _ :: _ => sha256_blocks n' (sha256_compress H (take 64 bs)) (drop 64 bs)
  | _, _ => H
  end.

Definition sha256_pad (msg : list Z) : list Z :=
  let len := Z.of_nat (length msg) in
  msg ++ [0x80] ++ replicate (Z.to_nat ((55 - len) `mod` 64)) 0
      ++ be_encode_4 ((8 * len) `div` 2 ^ 32) ++ be_encode_4 (8 * len).

Definition sha256 (msg : list Z) : list Z :=
  let padded := sha256_pad msg in
  let s := sha256_blocks (length padded) sha256_H0 padded in
  be_encode_4 (sa s) ++ be_encode_4 (sb s) ++ be_encode_4 (sc s) ++ be_encode_4 (sd s)
  ++ be_encode_4 (se s) ++ be_encode_4 (sf s) ++ be_encode_4 (sg s) ++ be_encode_4 (sh s).

(** ** Sample inputs *)

Definition uefi_x509 : efi_guid_t :=
  EFI_GUID 0xa5c059a1 0x94e4 0x4aa7 0x87 0xb5 0xab 0x15 0x5c 0x2b 0xf0 0x72.
Definition uefi_sha256 : efi_guid_t :=
  EFI_GUID 0xc1c41626 0x504c 0x4072 0xac 0xa9 0x41 0xf9 0x36 0x93 0x43 0x28.
Definition uefi_global_variable : efi_guid_t :=
  EFI_GUID 0x8be4df61 0x93ca 0x11d2 0xaa 0x0d 0x00 0xe0 0x98 0x03 0x2b 0x8c.
Definition uefi_image_security_database : efi_guid_t :=
  EFI_GUID 0xd719b2cb 0x3d3a 0x4596 0xa3 0xbc 0xda 0xd0 0x0e 0x67 0x65 0x6f.

Definition zeroed : Z → Z := λ _, 0.
Definition any_der : list Z → bool := λ _, true.

Definition key_A : list Z := replicate 1200 0x41.
Definition key_B : list Z := replicate 900 0x42.
Definition key_C : list Z := replicate 64 0x43.

Definition der_files : string → option (list Z) :=
  λ f, if decide (f = "A.der") then Some key_A
       else if decide (f = "B.der") then Some key_B
       else None.

(** The operator types [secret123] at every prompt. *)
Definition secret123 : list Z := [115; 101; 99; 114; 101; 116; 49; 50; 51].
Definition types_secret123 : nat → list Z := λ _, secret123.

(** The operator types [wrongpass] at every prompt. *)
Definition wrongpass : list Z := [119; 114; 111; 110; 103; 112; 97; 115; 115].
Definition types_wrongpass : nat → list Z := λ _, wrongpass.

(** The operator types a line that is too short, then [secret123], then
    a slip, then [secret123] from there on. *)
Definition fumbles : nat → list Z :=
  λ i, match i with
       | 0%nat => [49; 50; 51]
       | 2%nat => wrongpass
       | _ => secret123
       end.

(** A line with a NUL in it, and the line that differs from it after the
    NUL only; the operator types the first and then the second. *)
Definition nul_secret : list Z := [97; 98; 0; 99; 100; 101].
Definition nul_other : list Z := [97; 98; 0; 120; 121; 122].
Definition types_nul : nat → list Z := λ i, if decide (i = 0%nat) then nul_secret else nul_other.

(** The operator types [wrongpass] once and [secret123] from then on. *)
Definition slips_once : nat → list Z :=
  λ i, if decide (i = 0%nat) then wrongpass else secret123.

(** The operator only ever types [123]. *)
Definition types_123 : nat → list Z := λ _, [49; 50; 51].

(** ** Notions the statements use *)

Definition u32 (h : heap) (a : Z) : Z := le_decode (peek h a 4).

(** Whether the record at [p] yields a node. *)
Definition kept (Cert Hash : efi_guid_t) (h : heap) (p : Z) : bool :=
  negb (bool_decide (efi_guidcmp (peek h p 16) Cert ≠ 0)
        && bool_decide (efi_guidcmp (peek h p 16) Hash ≠ 0))
  && negb (bool_decide (efi_guidcmp (peek h p 16) Hash = 0)
           && bool_decide (u32 h (p + 24) ≠ 48)).

(** The node of the record at [p]. *)
Definition node_at (h : heap) (p : Z) : MokListNode :=
  new_node p (u32 h (p + 20)) (u32 h (p + 24)).

(** The offsets of the records the loop visits. *)
Fixpoint walk (fuel : nat) (h : heap) (dbsize p : Z) : option (list Z) :=
  match fuel with
  | O => None
  | S fuel' =>
    if bool_decide (0 < dbsize) && bool_decide (u32 h (p + 16) ≤ dbsize)
    then (p ::.) <$> walk fuel' h (dbsize - u32 h (p + 16)) (p + u32 h (p + 16))
    else Some []
  end.

(** The offsets of the records the loop visits within [fuel] rounds. *)
Fixpoint visits (fuel : nat) (h : heap) (dbsize p : Z) : list Z :=
  match fuel with
  | O => []
  | S fuel' =>
    if bool_decide (0 < dbsize) && bool_decide (u32 h (p + 16) ≤ dbsize)
    then p :: visits fuel' h (dbsize - u32 h (p + 16)) (p + u32 h (p + 16))
    else []
  end.

(** The sum of the sizes that the records at [ps] declare. *)
Definition declared_total (h : heap) (ps : list Z) : Z :=
  foldr (λ p acc, u32 h (p + 16) + acc) 0 ps.

(** A SHA-256 record whose first entry is [owner] and [hash], followed by
    the bytes [more] of further entries. *)
Definition hash_record (Hash owner hash more : list Z) : list Z :=
  Hash ++ le_encode 4 (76 + Z.of_nat (length more)) ++ le_encode 4 0 ++ le_encode 4 48
       ++ owner ++ hash ++ more.

(** An X.509 record with a signature header size [hs], a signature size
    [ss] and the bytes [body] after its 28-byte header. *)
Definition x509_record (Cert : efi_guid_t) (hs ss : Z) (body : list Z) : list Z :=
  Cert ++ le_encode 4 (28 + Z.of_nat (length body)) ++ le_encode 4 hs ++ le_encode 4 ss
       ++ body.

(** The files that [export_moks] is to write for [keys], numbered from
    index [i]. *)
Fixpoint numbered (i : Z) (keys : list (list Z)) : list (string * list Z) :=
  match keys with
  | [] => []
  | k :: keys' => (mok_filename i, k) :: numbered (i + 1) keys'
  end.

(** The record written for one key, as the spec words it: the X.509
    type, the three sizes with no signature header, the tool's GUID as
    owner, and the key. *)
Definition signature_list_record (Cert : efi_guid_t) (key : list Z) : list Z :=
  Cert ++ le_encode 4 (Z.of_nat (length key) + 44) ++ le_encode 4 0
       ++ le_encode 4 (Z.of_nat (length key) + 16) ++ SHIM_LOCK_GUID ++ key.

Definition encode (Cert : efi_guid_t) (keys : list (list Z)) : list Z :=
  keys ≫= signature_list_record Cert.

(** The keys whose verdict is not zero. *)
Fixpoint accepted (keys : list (list Z)) (verdicts : list Z) : list (list Z) :=
  match keys, verdicts with
  | k :: keys', v :: verdicts' =>
    if bool_decide (v ≠ 0) then k :: accepted keys' verdicts' else accepted keys' verdicts'
  | _, _ => []
  end.

(** The room the records of [keys] take. *)
Definition encoded_size (keys : list (list Z)) : Z :=
  foldr (λ k acc, Z.of_nat (length k) + 44 + acc) 0 keys.

Definition sum_length (keys : list (list Z)) : Z :=
  foldr (λ k acc, Z.of_nat (length k) + acc) 0 keys.

(** The password as the spec words it: re-encoded as UTF-16LE, cut or
    zero-padded to sixteen code units. *)
Definition utf16le_budget (password : list Z) : list Z :=
  take 16 (password ++ replicate 16 0) ≫= le_encode 2.

(** The tag that a caller of [generate_auth] finds in [auth] and writes
    to the store. *)
Definition stored_tag (SHA256 : list Z → list Z) (beyond : Z → Z)
    (new_list : option (list Z)) (list_len : Z) (password : list Z) (pw_len : Z) : list Z :=
  bytes_at beyond
    (auth_buffer beyond (generate_auth SHA256 beyond new_list list_len (Some password) pw_len))
    SHA256_DIGEST_LENGTH.

(** The spec's [contains], over the list stored under a name: some entry
    that [build_mok_list] decodes from the variable has a payload of the
    candidate's length and bytes.  A variable that is absent holds no
    entry. *)
Definition contains (Cert Hash : efi_guid_t) (beyond : Z → Z) (fuel : nat)
    (store : gmap (efi_guid_t * string) (list Z)) (name : string) (guid : efi_guid_t)
    (candidate : list Z) : Prop :=
  ∃ data mlist,
    store !! (guid, name) = Some data
    ∧ (build_mok_list Cert Hash fuel (heap_of data beyond) (Z.of_nat (length data))).1
      = Some mlist
    ∧ ∃ n, n ∈ mlist ∧ mok_size n = Z.of_nat (length candidate)
           ∧ payload (heap_of data beyond) n = candidate.

(** Decoding returns on every list of the store. *)
Definition decodes (Cert Hash : efi_guid_t) (beyond : Z → Z) (fuel : nat)
    (store : gmap (efi_guid_t * string) (list Z)) : Prop :=
  ∀ name guid data,
    store !! (guid, name) = Some data →
    is_Some (build_mok_list Cert Hash fuel (heap_of data beyond)
                            (Z.of_nat (length data))).1.

(** A line that [get_password] takes for the repetition of [password]:
    one of the same length that holds the same C string. *)
Definition confirms (password line : list Z) : Prop :=
  length line = length password ∧ c_str line = c_str password.

(** A line whose length [verify_old_req] turns down. *)
Definition wrong_length (password : list Z) : Prop :=
  Z.of_nat (length password) > PASSWORD_MAX ∨ Z.of_nat (length password) < PASSWORD_MIN.

(** An answer to the challenge that [verify_old_req] turns down: a line
    of the wrong length, or one whose tag differs from the stored one. *)
Definition failed_attempt (SHA256 : list Z → list Z) (beyond : Z → Z)
    (old_req tag password : list Z) : Prop :=
  let pw_len := Z.of_nat (length password) in
  pw_len > PASSWORD_MAX ∨ pw_len < PASSWORD_MIN
  ∨ memcmp (bytes_at beyond
              (auth_buffer beyond (generate_auth SHA256 beyond (Some old_req)
                                     (Z.of_nat (length old_req)) (Some password) pw_len))
              SHA256_DIGEST_LENGTH)
           (bytes_at beyond tag SHA256_DIGEST_LENGTH) ≠ 0.

(** The two notices of the encoding loop. *)
Definition skip_notice (f : string) : string := "Skip " +:+ f +:+ LF.
Definition der_warning (f : string) : string :=
  "Warning!!! " +:+ f +:+ (" is not a valid x509 certificate in DER format" +:+ LF).

(** A computation that leaves the variables and the pending write
    outcomes as they are. *)
Definition preserves {A} (m : IO A) : Prop :=
  ∀ w, vars (m w).1.2 = vars w ∧ edits (m w).1.2 = edits w.

(** [m] started in [w] answers [a] and leaves [w']. *)
Definition runs {A} (m : IO A) (w : world) (a : A) (w' : world) : Prop :=
  ∃ out, m w = (a, w', out).


(** ** Sample worlds *)

(** The signature database already holds key A; two writes will succeed. *)
Definition db_holds_A : world :=
  World {[ (uefi_image_security_database, "db"%string) := encode uefi_x509 [key_A] ]}
        [true; true] 0.

(** Key C is pending under the password [secret123]. *)
Definition pending_C : world :=
  let old := encode uefi_x509 [key_C] in
  World (<[ (SHIM_LOCK_GUID, "MokAuth"%string) := sha256 (old ++ utf16le_budget secret123) ]>
           {[ (SHIM_LOCK_GUID, "MokNew"%string) := old ]})
        [true; true] 0.

(** Only the tag of a request for key C under [secret123] is stored. *)
Definition tagged_C : world :=
  World {[ (SHIM_LOCK_GUID, "MokAuth"%string) := sha256 (key_C ++ utf16le_budget secret123) ]}
        [] 0.

(** The world after a request for key C under [secret123] went through
    on an empty store. *)
Definition committed_C : world :=
  (update_request sha256 zeroed types_secret123 (Some key_C) 64 true (World ∅ [] 0)).1.2.


(** The enrolled list holds key A and key B; key B is pending deletion. *)
Definition enrolled_AB : gmap (efi_guid_t * string) (list Z) :=
  <[ (SHIM_LOCK_GUID, "MokDel"%string) := encode uefi_x509 [key_B] ]>
    {[ (SHIM_LOCK_GUID, "MokListRT"%string) := encode uefi_x509 [key_A; key_B] ]}.

(** Nothing stored; the first write will succeed and the second fail. *)
Definition tag_write_fails : world := World ∅ [true; false] 0.

(** A list of four records: a SHA-256 record, a SHA-256 record whose
    entries are 40 bytes, a record of an unknown type and a certificate. *)
Definition mixed_list : list Z :=
  (uefi_sha256 ++ le_encode 4 76 ++ le_encode 4 0 ++ le_encode 4 48
     ++ SHIM_LOCK_GUID ++ replicate 32 0x5a)
  ++ (uefi_sha256 ++ le_encode 4 68 ++ le_encode 4 0 ++ le_encode 4 40
        ++ SHIM_LOCK_GUID ++ replicate 24 0x5b)
  ++ (replicate 16 0 ++ le_encode 4 30 ++ le_encode 4 0 ++ le_encode 4 0 ++ [1; 2])
  ++ signature_list_record uefi_x509 [9; 9; 9].

(** * Properties *)

(** ** Memory *)

Lemma length_span a n : length (span a n) = n.
Proof. unfold span. by rewrite length_fmap, length_seq. Qed.

Lemma length_peek h a n : length (peek h a n) = n.
Proof. unfold peek. by rewrite length_fmap, length_span. Qed.

Lemma span_S a n : span a (S n) = a :: span (a + 1) n.
Proof.
  unfold span. simpl. f_equal; [lia |].
  rewrite <- fmap_S_seq, <- list_fmap_compose.
  apply list_fmap_ext. intros _ i _. simpl. lia.
Qed.

Lemma peek_S h a n : peek h a (S n) = h a :: peek h (a + 1) n.
Proof. unfold peek. by rewrite span_S. Qed.

Lemma peek_heap_of data beyond (a : Z) (n : nat) :
  0 ≤ a → (Z.to_nat a + n ≤ length data)%nat →
  peek (heap_of data beyond) a n = take n (drop (Z.to_nat a) data).
Proof.
  revert a data. induction n as [|n IH]; intros a data Ha Hlen.
  - by rewrite take_0.
  - rewrite peek_S, IH by lia.
    destruct (drop (Z.to_nat a) data) as [|x rest] eqn:E.
    + apply (f_equal length) in E. rewrite length_drop in E. simpl in E. lia.
    + simpl. unfold heap_of at 1. rewrite bool_decide_true by lia.
      assert (data !! Z.to_nat a = Some x) as ->.
      { rewrite <- (Nat.add_0_r (Z.to_nat a)), <- lookup_drop, E. done. }
      simpl. f_equal.
      replace (Z.to_nat (a + 1)) with (S (Z.to_nat a)) by lia.
      rewrite <- Nat.add_1_r, <- drop_drop, E. done.
Qed.

Lemma length_le_encode n v : length (le_encode n v) = n.
Proof. revert v. induction n; intros; simpl; auto. Qed.

(** ** The decoder, one record at a time *)

Ltac rd_step :=
  repeat (cbn [fst snd];
          unfold mbind, rd_bind, mret, rd_ret, SignatureType, SignatureListSize,
            SignatureHeaderSize, SignatureSize, load_u32, load in *;
          try case_bool_decide; cbn [negb andb fst snd]).

Ltac prefix_tac := repeat first [ reflexivity | apply prefix_app_r ].

Section DecodeFacts.

Variables Cert Hash : efi_guid_t.

Lemma loop_trace_irrelevant fuel ds p l h tr tr' :
  (build_mok_list_loop Cert Hash fuel ds p l h tr).1
  = (build_mok_list_loop Cert Hash fuel ds p l h tr').1.
Proof.
  revert ds p l tr tr'. induction fuel as [|f IH]; intros; [done |].
  cbn [build_mok_list_loop]. rd_step; eauto.
Qed.

Lemma loop_trace_prefix fuel ds p l h tr :
  tr `prefix_of` (build_mok_list_loop Cert Hash fuel ds p l h tr).2.
Proof.
  revert ds p l tr. induction fuel as [|f IH]; intros; [done |].
  cbn [build_mok_list_loop]. rd_step;
    try (etrans; [| apply IH]); prefix_tac.
Qed.

Lemma loop_S fuel ds p l h tr :
  (build_mok_list_loop Cert Hash (S fuel) ds p l h tr).1
  = if bool_decide (0 < ds) && bool_decide (u32 h (p + 16) ≤ ds)
    then (build_mok_list_loop Cert Hash fuel (ds - u32 h (p + 16)) (p + u32 h (p + 16))
            (if kept Cert Hash h p then l ++ [node_at h p] else l) h []).1
    else Some l.
Proof.
  unfold kept, node_at, u32.
  cbn [build_mok_list_loop]. rd_step; try done; try lia;
    try apply loop_trace_irrelevant.
Qed.

Lemma loop_walk fuel ds p l h tr :
  (build_mok_list_loop Cert Hash fuel ds p l h tr).1
  = (λ ps, l ++ (node_at h <$> filter (λ q, kept Cert Hash h q) ps)) <$> walk fuel h ds p.
Proof.
  revert ds p l tr. induction fuel as [|f IH]; intros; [done |].
  rewrite loop_S. cbn [walk].
  destruct (bool_decide (0 < ds) && bool_decide (u32 h (p + 16) ≤ ds)).
  - rewrite IH, <- option_fmap_compose. apply option_fmap_ext. intros ps. simpl.
    rewrite filter_cons. case_decide as K; destruct (kept Cert Hash h p); try done.
    simpl. by rewrite <- app_assoc.
  - simpl. by rewrite app_nil_r.
Qed.

Lemma loop_zero_size fuel ds p l h tr :
  0 < ds → u32 h (p + 16) = 0 →
  (build_mok_list_loop Cert Hash fuel ds p l h tr).1 = None.
Proof.
  intros Hds Hz. revert l tr. induction fuel as [|f IH]; intros; [done |].
  rewrite loop_S, Hz, !bool_decide_true by lia. cbn [andb].
  replace (ds - 0) with ds by lia. replace (p + 0) with p by lia. apply IH.
Qed.

(** A record that declares more than what is left ends the decoding with
    the nodes gathered so far. *)
Lemma loop_oversized fuel ds p l h tr :
  ds < u32 h (p + 16) →
  (build_mok_list_loop Cert Hash (S fuel) ds p l h tr).1 = Some l.
Proof.
  intros Hover. rewrite loop_S.
  rewrite (bool_decide_false (u32 h (p + 16) ≤ ds)) by lia.
  by rewrite andb_false_r.
Qed.

Lemma loop_first_load fuel ds p l h tr :
  0 < ds →
  (tr ++ span (p + 16) 4) `prefix_of` (build_mok_list_loop Cert Hash (S fuel) ds p l h tr).2.
Proof.
  intros Hds. cbn [build_mok_list_loop]. rd_step; try lia;
    try (etrans; [| apply loop_trace_prefix]); prefix_tac.
Qed.

End DecodeFacts.

(** C1 (fails on the code): on the first ten bytes of the list that the
    tool writes for a three-byte key, the loop condition finds
    [dbsize > 0] and loads [CertList->SignatureListSize], the four bytes
    at offsets 16 to 19, all of them past the end of the ten-byte buffer. *)
Theorem build_mok_list_loads_past_short_buffer (Cert Hash : efi_guid_t)
    (beyond : Z → Z) (fuel : nat) :
  let data := take 10 (signature_list_record Cert [1; 2; 3]) in
  let loaded := (build_mok_list Cert Hash (S fuel) (heap_of data beyond)
                                (Z.of_nat (length data))).2 in
  16 ∈ loaded ∧ 17 ∈ loaded ∧ 18 ∈ loaded ∧ 19 ∈ loaded
  ∧ Z.of_nat (length data) ≤ 16.
Proof.
  intros data loaded.
  assert (length data = 10%nat) as Hlen.
  { subst data. rewrite length_take. unfold signature_list_record.
    rewrite !length_app, !length_le_encode. lia. }
  assert (span 16 4 ⊆ loaded) as Hsub.
  { intros a Ha. subst loaded. unfold build_mok_list.
    destruct (loop_first_load Cert Hash fuel (Z.of_nat (length data)) 0 []
                (heap_of data beyond) []) as [k Hk]; [lia |].
    rewrite Hk. apply elem_of_app. left. by rewrite app_nil_l. }
  repeat split; try (apply Hsub; unfold span; simpl; by repeat constructor).
  lia.
Qed.

(** C10 (fails on the code): a buffer that holds one record header whose
    [SignatureListSize] is zero keeps the loop at the same record with the
    same [dbsize]; no amount of fuel lets [build_mok_list] return. *)
Theorem build_mok_list_zero_size_never_returns (Cert Hash : efi_guid_t)
    (beyond : Z → Z) (fuel : nat) :
  (build_mok_list Cert Hash fuel (heap_of (replicate 28 0) beyond) 28).1 = None.
Proof.
  unfold build_mok_list. apply loop_zero_size; [lia | reflexivity].
Qed.

(** C8: the list returned by [build_mok_list] is made of the nodes of the
    visited records that are kept, in order; a record is dropped exactly
    when its type is neither of the two known ones or when it is a hash
    record whose [SignatureSize] is not 48; and a node that comes from a
    hash record has [mok_size] 32, so its payload is 32 bytes long. *)
Theorem build_mok_list_hash_nodes_32 (Cert Hash : efi_guid_t) (h : heap)
    (fuel : nat) (data_size : Z) :
  (build_mok_list Cert Hash fuel h data_size).1
  = (λ ps : list Z, node_at h <$> filter (λ q, kept Cert Hash h q) ps)
    <$> walk fuel h data_size 0
  ∧ (∀ p, kept Cert Hash h p = false ↔
          (efi_guidcmp (peek h p 16) Cert ≠ 0 ∧ efi_guidcmp (peek h p 16) Hash ≠ 0)
          ∨ (efi_guidcmp (peek h p 16) Hash = 0 ∧ u32 h (p + 24) ≠ 48))
  ∧ (∀ p, kept Cert Hash h p = true → efi_guidcmp (peek h p 16) Hash = 0 →
          mok_size (node_at h p) = 32 ∧ length (payload h (node_at h p)) = 32%nat).
Proof.
  split; [| split].
  - unfold build_mok_list. by rewrite loop_walk.
  - intros p. unfold kept.
    repeat case_bool_decide; cbn [negb andb]; split; intros; try done; tauto.
  - intros p Hk Hh. unfold kept in Hk.
    rewrite (bool_decide_true (efi_guidcmp (peek h p 16) Hash = 0)) in Hk by done.
    rewrite (bool_decide_false (efi_guidcmp (peek h p 16) Hash ≠ 0)) in Hk by tauto.
    rewrite andb_false_r in Hk. cbn [negb andb] in Hk.
    case_bool_decide as Hs; [done |].
    assert (u32 h (p + 24) = 48) as E by (destruct (decide (u32 h (p + 24) = 48)); tauto).
    assert (mok_size (node_at h p) = 32) as Hm.
    { unfold node_at, new_node. cbn [mok_size]. rewrite E. reflexivity. }
    split; [done |]. unfold payload. rewrite length_peek, Hm. reflexivity.
Qed.

(** ** Buffers *)

Lemma le_decode_encode_4 v : 0 ≤ v < 2 ^ 32 → le_decode (le_encode 4 v) = v.
Proof.
  intros Hv. unfold le_decode. simpl.
  Z.to_euclidean_division_equations. lia.
Qed.

Lemma memcmp_refl l : memcmp l l = 0.
Proof. induction l; simpl; [done |]. rewrite !bool_decide_false by lia. done. Qed.

Lemma memcmp_eq l r : length l = length r → memcmp l r = 0 → l = r.
Proof.
  revert r. induction l as [|x l IH]; intros [|y r] Hlen Hc; simpl in *; try done.
  repeat case_bool_decide; try done.
  f_equal; [lia |]. apply IH; [lia | done].
Qed.

Lemma length_poke buf off bs :
  0 ≤ off → (Z.to_nat off + length bs ≤ length buf)%nat →
  length (poke buf off bs) = length buf.
Proof.
  intros. unfold poke. rewrite !length_app, length_take, length_drop. lia.
Qed.

Lemma poke_app buf off off' xs ys :
  0 ≤ off → (Z.to_nat off ≤ length buf)%nat → off' = off + Z.of_nat (length xs) →
  poke (poke buf off xs) off' ys = poke buf off (xs ++ ys).
Proof.
  intros Hoff Hle ->. unfold poke.
  replace (Z.to_nat (off + Z.of_nat (length xs))) with (Z.to_nat off + length xs)%nat by lia.
  rewrite <- app_assoc. rewrite (app_assoc (take _ buf) xs).
  rewrite take_app_length'; [| rewrite length_app, length_take; lia].
  rewrite <- !app_assoc. do 2 f_equal.
  rewrite (app_assoc (take _ buf) xs).
  rewrite drop_app_ge; rewrite !length_app, length_take; [| lia].
  rewrite drop_drop. do 2 f_equal. lia.
Qed.

Lemma peek_poke buf off bs beyond :
  0 ≤ off → (Z.to_nat off ≤ length buf)%nat →
  peek (heap_of (poke buf off bs) beyond) off (length bs) = bs.
Proof.
  intros Hoff Hle. unfold poke. rewrite peek_heap_of; [| done |].
  - rewrite drop_app_length'; [| rewrite length_take; lia].
    by rewrite take_app_length.
  - rewrite !length_app, length_take. lia.
Qed.

Lemma take_poke_start buf off bs :
  0 ≤ off → (Z.to_nat off ≤ length buf)%nat →
  take (Z.to_nat off) (poke buf off bs) = take (Z.to_nat off) buf.
Proof.
  intros. unfold poke. rewrite take_app_length'; [done |]. rewrite length_take. lia.
Qed.

Lemma take_poke_end buf off bs n :
  0 ≤ off → (Z.to_nat off ≤ length buf)%nat → n = (Z.to_nat off + length bs)%nat →
  take n (poke buf off bs) = take (Z.to_nat off) buf ++ bs.
Proof.
  intros ? ? ->. unfold poke. rewrite app_assoc.
  rewrite take_app_length'; [done |]. rewrite length_app, length_take. lia.
Qed.

Lemma length_SHIM_LOCK_GUID : length SHIM_LOCK_GUID = 16%nat.
Proof. reflexivity. Qed.

(** ** The encoder *)

Lemma length_record Cert key :
  length Cert = 16%nat →
  Z.of_nat (length (signature_list_record Cert key)) = Z.of_nat (length key) + 44.
Proof.
  intros HC. unfold signature_list_record.
  rewrite !length_app, !length_le_encode, HC.
  replace (length SHIM_LOCK_GUID) with 16%nat by reflexivity. lia.
Qed.

Lemma length_encode Cert keys :
  length Cert = 16%nat → Z.of_nat (length (encode Cert keys)) = encoded_size keys.
Proof.
  intros HC. unfold encode. induction keys as [|k keys IH]; [done |].
  cbn [mbind list_bind encoded_size foldr]. rewrite length_app, Nat2Z.inj_add, length_record by done.
  rewrite IH. reflexivity.
Qed.

Lemma encoded_size_nonneg keys : 0 ≤ encoded_size keys.
Proof. induction keys; simpl; lia. Qed.

Lemma encoded_size_each keys B :
  encoded_size keys < B → Forall (λ k, Z.of_nat (length k) + 44 < B) keys.
Proof.
  induction keys as [|k keys IH]; intros Hb; constructor.
  - simpl in Hb. pose proof (encoded_size_nonneg keys). unfold encoded_size in *. lia.
  - apply IH. simpl in Hb. unfold encoded_size in *. lia.
Qed.

Lemma encoded_size_accepted keys verdicts :
  encoded_size (accepted keys verdicts) ≤ encoded_size keys.
Proof.
  revert verdicts. induction keys as [|k keys IH]; intros [|v vs]; simpl; try lia.
  - pose proof (encoded_size_nonneg keys). lia.
  - specialize (IH vs). case_bool_decide; simpl; lia.
Qed.

Section EncodeFacts.

Variables Cert Hash Global Image : efi_guid_t.
Variable d2i_X509 : list Z → bool.
Variable beyond : Z → Z.
Variable fs : string → option (list Z).
Hypothesis Cert_length : length Cert = 16%nat.

Lemma store_header_poke buf p size :
  0 ≤ p → p ≤ Z.of_nat (length buf) →
  store_header Cert buf p size
  = poke buf p (Cert ++ le_encode 4 (uint32_t (size + 28 + 17 - 1)) ++ le_encode 4 0
                     ++ le_encode 4 (uint32_t (size + 16)) ++ SHIM_LOCK_GUID).
Proof.
  intros Hp Hle. unfold store_header.
  unfold sizeof_EFI_SIGNATURE_LIST, sizeof_EFI_SIGNATURE_DATA, sizeof_efi_guid_t.
  repeat (rewrite (poke_app buf p);
          [| lia | lia
           | rewrite ?length_app, ?length_le_encode, ?Cert_length; lia]).
  by rewrite <- !app_assoc.
Qed.

Lemma length_store_header buf p size :
  0 ≤ p → p + 44 ≤ Z.of_nat (length buf) →
  length (store_header Cert buf p size) = length buf.
Proof.
  intros Hp Hle. rewrite store_header_poke by lia.
  apply length_poke; [done |].
  rewrite !length_app, !length_le_encode, Cert_length, length_SHIM_LOCK_GUID. lia.
Qed.

Lemma store_key buf p key :
  0 ≤ p → p + 44 + Z.of_nat (length key) ≤ Z.of_nat (length buf) →
  Z.of_nat (length key) + 44 < 2 ^ 32 →
  poke (store_header Cert buf p (Z.of_nat (length key)))
       (p + sizeof_EFI_SIGNATURE_LIST + sizeof_efi_guid_t) key
  = poke buf p (signature_list_record Cert key).
Proof.
  intros Hp Hle Hsz. rewrite store_header_poke by lia.
  unfold signature_list_record, sizeof_EFI_SIGNATURE_LIST, sizeof_efi_guid_t, uint32_t.
  replace (Z.of_nat (length key) + 28 + 17 - 1) with (Z.of_nat (length key) + 44) by lia.
  rewrite !Z.mod_small by lia.
  rewrite (poke_app buf p); [| lia | lia |].
  - by rewrite <- !app_assoc.
  - rewrite !length_app, !length_le_encode, Cert_length, length_SHIM_LOCK_GUID. lia.
Qed.

Lemma encode_files_spec fuel import store files keys verdicts st :
  Forall2 (λ f k, fs f = Some k) files keys →
  Forall2 (λ k v, is_valid_request Cert Hash Global Image beyond fuel k
                    (Z.of_nat (length k)) import store = Some v) keys verdicts →
  Forall (λ k, Z.of_nat (length k) + 44 < 2 ^ 32) keys →
  0 ≤ ptr st → ptr st + encoded_size keys ≤ Z.of_nat (length (new_list st)) →
  0 ≤ real_size st → real_size st + encoded_size keys < 2 ^ 64 →
  ∃ st' out,
    encode_files Cert Hash Global Image d2i_X509 beyond fs fuel import store files
      ((λ k, uint32_t (Z.of_nat (length k))) <$> keys) st = Some (Some st', out)
    ∧ take (Z.to_nat (ptr st')) (new_list st')
      = take (Z.to_nat (ptr st)) (new_list st) ++ encode Cert (accepted keys verdicts)
    ∧ ptr st' = ptr st + encoded_size (accepted keys verdicts)
    ∧ real_size st' = real_size st + encoded_size (accepted keys verdicts)
    ∧ length (new_list st') = length (new_list st)
    ∧ Forall2 (λ f v, v = 0 → skip_notice f ∈ out) files verdicts
    ∧ Forall (λ s, ∃ f, s = skip_notice f ∨ s = der_warning f) out.
Proof.
  intros Hfs. revert verdicts st.
  induction Hfs as [|f k files keys Hf Hfs IH];
    intros verdicts st Hv Hsmall Hp Hroom Hr Hbound.
  - inversion Hv; subst. exists st, []. simpl.
    rewrite app_nil_r. repeat split; try lia; constructor.
  - inversion Hv as [|k' v keys' vs Hk Hvs]; subst. clear Hv.
    inversion Hsmall as [|k' keys' Hk32 Hsmall']; subst. clear Hsmall.
    pose proof (encoded_size_nonneg keys) as Hnn.
    cbn [encoded_size foldr] in Hroom, Hbound. fold (encoded_size keys) in Hroom, Hbound.
    cbn [fmap list_fmap encode_files]. rewrite Hf.
    assert (uint32_t (Z.of_nat (length k)) = Z.of_nat (length k)) as Hsz
      by (unfold uint32_t; apply Z.mod_small; lia).
    rewrite Hsz, Nat2Z.id, firstn_all.
    rewrite (bool_decide_false (Z.of_nat (length k) < 0)) by lia.
    rewrite (bool_decide_false (Z.of_nat (length k) ≠ Z.of_nat (length k))) by tauto.
    cbn [orb].
    rewrite peek_poke;
      [| unfold sizeof_EFI_SIGNATURE_LIST, sizeof_efi_guid_t; lia
       | rewrite length_store_header by lia;
         unfold sizeof_EFI_SIGNATURE_LIST, sizeof_efi_guid_t; lia].
    rewrite Hk, store_key by lia.
    set (buf2 := poke (new_list st) (ptr st) (signature_list_record Cert k)).
    assert (length buf2 = length (new_list st)) as Hlen.
    { apply length_poke; [done |].
      pose proof (length_record Cert k Cert_length). lia. }
    pose proof (length_record Cert k Cert_length) as Hrec.
    assert (Forall (λ s, ∃ g, s = skip_notice g ∨ s = der_warning g)
                   (if d2i_X509 k then [] else [der_warning f])) as Hwarn.
    { destruct (d2i_X509 k); repeat constructor. exists f. by right. }
    unfold sizeof_EFI_SIGNATURE_LIST, sizeof_efi_guid_t.
    case_bool_decide as Hvalid.
    + edestruct (IH vs (Request buf2 (ptr st + 28 + 16 + Z.of_nat (length k))
                   (unsigned_long (real_size st + Z.of_nat (length k) + 28 + 16))))
        as (st' & out & -> & Htake & Hptr & Hreal & Hl & Hskip & Hout);
        cbn [ptr real_size new_list];
        try done; try lia;
        try (unfold unsigned_long; rewrite Z.mod_small by lia; lia).
      eexists _, _. split; [reflexivity |].
      cbn [ptr real_size new_list] in *.
      cbn [accepted]. rewrite bool_decide_true by done.
      unfold encode. cbn [mbind list_bind encoded_size foldr].
      fold (encoded_size (accepted keys vs)).
      unfold unsigned_long in Hreal. rewrite Z.mod_small in Hreal by lia.
      split; [| split; [lia | split; [lia | split; [lia | split]]]].
      * rewrite Htake. subst buf2.
        rewrite take_poke_end with (bs := signature_list_record Cert k); [| lia | lia | lia].
        by rewrite <- app_assoc.
      * constructor; [| eapply Forall2_impl; [exact Hskip |]].
        -- intros ->. done.
        -- intros g u Hg Hu. apply elem_of_app. right. apply elem_of_app. right. auto.
      * apply Forall_app. split; [exact Hwarn | exact Hout].
    + edestruct (IH vs (Request buf2 (ptr st + 28 + 16 - (28 + 16)) (real_size st)))
        as (st' & out & -> & Htake & Hptr & Hreal & Hl & Hskip & Hout);
        cbn [ptr real_size new_list];
        try done; try lia.
      eexists _, _. split; [reflexivity |].
      cbn [ptr real_size new_list] in *.
      cbn [accepted]. rewrite bool_decide_false by (intros Hne; by apply Hne).
      split; [| split; [lia | split; [lia | split; [lia | split]]]].
      * rewrite Htake. subst buf2.
        replace (ptr st + 28 + 16 - (28 + 16)) with (ptr st) by lia.
        rewrite take_poke_start by lia. done.
      * constructor; [| eapply Forall2_impl; [exact Hskip |]].
        -- intros _. apply elem_of_app. right. apply elem_of_app. left. by constructor.
        -- intros g u Hg Hu. apply elem_of_app. right. apply elem_of_app. right. auto.
      * apply Forall_app. split; [exact Hwarn |].
        constructor; [| exact Hout]. exists f. by left.
Qed.

End EncodeFacts.

(** ** Decoding what the encoder wrote *)

Section RoundTrip.

Variables Cert Hash : efi_guid_t.
Variable beyond : Z → Z.
Hypothesis Cert_length : length Cert = 16%nat.
Hypothesis Cert_not_Hash : efi_guidcmp Cert Hash ≠ 0.

Lemma peek_at data a m b off n :
  data = a ++ m ++ b → off = Z.of_nat (length a) → n = length m →
  peek (heap_of data beyond) off n = m.
Proof.
  intros -> -> ->. rewrite peek_heap_of; [| lia |].
  - rewrite Nat2Z.id, drop_app_length. by rewrite take_app_length.
  - rewrite !length_app. lia.
Qed.

Lemma record_fields pre k post :
  Z.of_nat (length k) + 44 < 2 ^ 32 →
  let h := heap_of (pre ++ signature_list_record Cert k ++ post) beyond in
  let p := Z.of_nat (length pre) in
  peek h p 16 = Cert
  ∧ u32 h (p + 16) = Z.of_nat (length k) + 44
  ∧ u32 h (p + 20) = 0
  ∧ u32 h (p + 24) = Z.of_nat (length k) + 16
  ∧ peek h (p + 44) (length k) = k.
Proof.
  intros Hk h p. subst h p. unfold signature_list_record, u32.
  set (f1 := le_encode 4 (Z.of_nat (length k) + 44)).
  set (f2 := le_encode 4 0).
  set (f3 := le_encode 4 (Z.of_nat (length k) + 16)).
  assert (length f1 = 4%nat ∧ length f2 = 4%nat ∧ length f3 = 4%nat) as (L1 & L2 & L3)
    by (subst f1 f2 f3; by rewrite !length_le_encode).
  repeat split.
  - apply (peek_at _ pre Cert (f1 ++ f2 ++ f3 ++ SHIM_LOCK_GUID ++ k ++ post));
      [by rewrite <- !app_assoc | done | done].
  - rewrite (peek_at _ (pre ++ Cert) f1 (f2 ++ f3 ++ SHIM_LOCK_GUID ++ k ++ post));
      [subst f1; apply le_decode_encode_4; lia | by rewrite <- !app_assoc
       | rewrite length_app; lia | done].
  - rewrite (peek_at _ (pre ++ Cert ++ f1) f2 (f3 ++ SHIM_LOCK_GUID ++ k ++ post));
      [done | by rewrite <- !app_assoc | rewrite !length_app; lia | done].
  - rewrite (peek_at _ (pre ++ Cert ++ f1 ++ f2) f3 (SHIM_LOCK_GUID ++ k ++ post));
      [subst f3; apply le_decode_encode_4; lia | by rewrite <- !app_assoc
       | rewrite !length_app; lia | done].
  - apply (peek_at _ (pre ++ Cert ++ f1 ++ f2 ++ f3 ++ SHIM_LOCK_GUID) k post);
      [by rewrite <- !app_assoc | | done].
    rewrite !length_app, length_SHIM_LOCK_GUID. lia.
Qed.

Lemma decode_encoded keys :
  Forall (λ k, Z.of_nat (length k) + 44 < 2 ^ 32) keys →
  ∀ pre l fuel tr, (length keys < fuel)%nat →
  let h := heap_of (pre ++ encode Cert keys) beyond in
  ∃ nodes,
    (build_mok_list_loop Cert Hash fuel (Z.of_nat (length (encode Cert keys)))
       (Z.of_nat (length pre)) l h tr).1 = Some (l ++ nodes)
    ∧ payload h <$> nodes = keys.
Proof.
  induction 1 as [|k keys Hk Hks IH]; intros pre l fuel tr Hfuel h.
  - destruct fuel as [|f]; [simpl in Hfuel; lia |].
    exists []. rewrite loop_S. simpl. by rewrite app_nil_r.
  - destruct fuel as [|f]; [simpl in Hfuel; lia |].
    subst h. unfold encode. cbn [mbind list_bind]. fold (encode Cert keys).
    destruct (record_fields pre k (encode Cert keys) Hk) as (Ht & Hs & Hh & Hss & Hkey).
    set (h := heap_of (pre ++ signature_list_record Cert k ++ encode Cert keys) beyond) in *.
    rewrite loop_S, Hs.
    rewrite length_app, Nat2Z.inj_add, length_record by done.
    rewrite !bool_decide_true by lia. cbn [andb].
    assert (kept Cert Hash h (Z.of_nat (length pre)) = true) as ->.
    { unfold kept. rewrite Ht.
      rewrite (bool_decide_false (efi_guidcmp Cert Cert ≠ 0))
        by (unfold efi_guidcmp; rewrite memcmp_refl; tauto).
      by rewrite (bool_decide_false (efi_guidcmp Cert Hash = 0)). }
    specialize (IH (pre ++ signature_list_record Cert k)
                   (l ++ [node_at h (Z.of_nat (length pre))]) f []).
    destruct IH as (nodes & Hrun & Hpay); [simpl in Hfuel; lia |].
    rewrite <- app_assoc in Hrun, Hpay. fold h in Hrun, Hpay.
    exists (node_at h (Z.of_nat (length pre)) :: nodes). split.
    + rewrite <- app_assoc in Hrun. cbn [app] in Hrun. rewrite <- Hrun.
      f_equal. f_equal; [lia |]. rewrite length_app, Nat2Z.inj_add, length_record by done. lia.
    + cbn [fmap list_fmap]. f_equal; [| exact Hpay].
      unfold payload, node_at, new_node. cbn [mok mok_size]. rewrite Hh, Hss.
      unfold sizeof_EFI_SIGNATURE_LIST, sizeof_efi_guid_t, uint32_t.
      replace (Z.of_nat (length k) + 16 - 16) with (Z.of_nat (length k)) by lia.
      rewrite Z.mod_small, Nat2Z.id by lia.
      etrans; [| exact Hkey]. f_equal. lia.
Qed.

End RoundTrip.

(** ** The terminal and the store *)

Lemma preserves_ret {A} (a : A) : preserves (mret a).
Proof. by intros w. Qed.

Lemma preserves_bind {A B} (m : IO A) (k : A → IO B) :
  preserves m → (∀ a, preserves (k a)) → preserves (m ≫= k).
Proof.
  intros Hm Hk w. unfold mbind, io_bind.
  specialize (Hm w). destruct (m w) as [[a w1] o1].
  specialize (Hk a w1). destruct (k a w1) as [[b w2] o2].
  simpl in *. destruct Hm, Hk. split; congruence.
Qed.

Lemma preserves_say s : preserves (say s).
Proof. by intros w. Qed.

Lemma preserves_read_variable guid name : preserves (read_variable guid name).
Proof. by intros w. Qed.

Lemma preserves_read_hidden_line stdin : preserves (read_hidden_line stdin).
Proof. by intros w. Qed.

Create HintDb preserves.

Global Hint Resolve preserves_ret preserves_say preserves_read_variable
  preserves_read_hidden_line : preserves.

Ltac preserves_tac :=
  repeat first
    [ apply preserves_bind; [| intros ?]
    | progress eauto with preserves
    | match goal with
      | |- preserves (let '(_, _) := ?r in _) => destruct r
      | |- preserves (if ?b then _ else _) => destruct b
      | |- preserves (match ?o with Some _ => _ | None => _ end) => destruct o
      end ].

Section TerminalFacts.

Variable SHA256 : list Z → list Z.
Variable beyond : Z → Z.
Variable stdin : nat → list Z.

Lemma preserves_get_password_first tries min max :
  preserves (get_password_first stdin tries min max).
Proof. induction tries; cbn [get_password_first]; preserves_tac. Qed.

Lemma preserves_get_password_again tries password_1 len_1 :
  preserves (get_password_again stdin tries password_1 len_1).
Proof. induction tries; cbn [get_password_again]; preserves_tac. Qed.

Lemma preserves_get_password min max : preserves (get_password stdin min max).
Proof.
  unfold get_password. apply preserves_bind; [apply preserves_get_password_first |].
  intros [[p l]|]; [| preserves_tac].
  apply preserves_bind; [apply preserves_get_password_again |]. intros []; preserves_tac.
Qed.

Lemma preserves_verify_old_req_loop tries freed old_req old_req_size tag :
  preserves (verify_old_req_loop SHA256 beyond stdin tries freed old_req old_req_size tag).
Proof.
  revert freed. induction tries; intros freed; cbn [verify_old_req_loop]; [preserves_tac |].
  destruct freed; preserves_tac.
Qed.

Lemma preserves_verify_old_req old_req old_req_size import :
  preserves (verify_old_req SHA256 beyond stdin old_req old_req_size import).
Proof.
  unfold verify_old_req. apply preserves_bind; [preserves_tac |].
  intros [tag|]; [apply preserves_verify_old_req_loop | preserves_tac].
Qed.

End TerminalFacts.

(** ** The tag, the eligibility check and the commit *)

Lemma length_bind_le_encode (units : list Z) n :
  length (units ≫= le_encode n) = (length units * n)%nat.
Proof.
  induction units as [|u units IH]; [done |].
  change (length (le_encode n u ++ (units ≫= le_encode n)) = (S (length units) * n)%nat).
  rewrite length_app, length_le_encode, IH. simpl. lia.
Qed.

Lemma bytes_at_take beyond buf n :
  0 ≤ n ≤ Z.of_nat (length buf) → bytes_at beyond buf n = take (Z.to_nat n) buf.
Proof.
  intros Hn. unfold bytes_at. rewrite peek_heap_of; [done | lia | simpl; lia].
Qed.

Lemma bytes_at_all beyond buf : bytes_at beyond buf (Z.of_nat (length buf)) = buf.
Proof. rewrite bytes_at_take by lia. by rewrite Nat2Z.id, firstn_all. Qed.

Lemma efichar_from_char_budget beyond password :
  let '(efichar_pass, efichar_len) :=
    efichar_from_char password ((PASSWORD_MAX + 1) * sizeof_efi_char16_t) in
  bytes_at beyond efichar_pass efichar_len = utf16le_budget password.
Proof.
  unfold efichar_from_char, utf16le_budget.
  assert (Z.to_nat (Z.div ((PASSWORD_MAX + 1) * sizeof_efi_char16_t) sizeof_efi_char16_t - 1)
          = 16%nat) as Hb by reflexivity.
  rewrite !Hb.
  set (units := take 16 (password ++ replicate 16 0)).
  assert (length units = 16%nat) as Hu.
  { subst units. rewrite length_take, length_app, length_replicate. lia. }
  rewrite bytes_at_take.
  - rewrite take_app_length'; [done |]. rewrite length_bind_le_encode, Hu. reflexivity.
  - rewrite length_app, length_bind_le_encode, Hu. simpl. unfold sizeof_efi_char16_t. lia.
Qed.

(** C4: [generate_auth] answers the SHA-256 digest of the list's bytes
    (none when the list is absent) followed by the password re-encoded as
    UTF-16LE within the budget of sixteen code units, in that order; the
    tag is 32 bytes long as the digest is.  Without a password it fails. *)
Theorem generate_auth_digest (SHA256 : list Z → list Z) (beyond : Z → Z)
    (new_list : option (list Z)) (password : list Z) (pw_len : Z) :
  let list_bytes := default [] new_list in
  let list_len := Z.of_nat (length list_bytes) in
  generate_auth SHA256 beyond new_list list_len (Some password) pw_len
  = Some (SHA256 (list_bytes ++ utf16le_budget password))
  ∧ generate_auth SHA256 beyond new_list list_len None pw_len = None
  ∧ ((∀ m, length (SHA256 m) = 32%nat) →
     ∀ tag, generate_auth SHA256 beyond new_list list_len (Some password) pw_len = Some tag →
            length tag = 32%nat).
Proof.
  intros list_bytes list_len.
  assert (generate_auth SHA256 beyond new_list list_len (Some password) pw_len
          = Some (SHA256 (list_bytes ++ utf16le_budget password))) as Hgen.
  { unfold generate_auth.
    pose proof (efichar_from_char_budget beyond password) as Hpw.
    destruct (efichar_from_char password _) as [efichar_pass efichar_len].
    rewrite Hpw. subst list_len list_bytes.
    destruct new_list as [l|]; cbn [default from_option id app]; [| done].
    by rewrite bytes_at_all. }
  split; [exact Hgen |]. split; [done |].
  intros Hlen tag. rewrite Hgen. intros [= <-]. apply Hlen.
Qed.

Section Eligibility.

Variables Cert Hash Global Image : efi_guid_t.
Variable beyond : Z → Z.

Lemma is_duplicate_range fuel cert cert_size db_name guid store v :
  is_duplicate Cert Hash beyond fuel cert cert_size db_name guid store = Some v →
  v = 0 ∨ v = 1.
Proof.
  unfold is_duplicate. case_bool_decide; [intros [= <-]; by left |].
  destruct (store !! (guid, db_name)); [| intros [= <-]; by left].
  destruct (build_mok_list _ _ _ _ _).1; [| done].
  destruct (existsb _ _); intros [= <-]; auto.
Qed.

Lemma is_duplicate_ext (fuel : nat) (cert : list Z) (cert_size : Z)
    (db_name : string) (guid : efi_guid_t)
    (store store' : gmap (efi_guid_t * string) (list Z)) :
  store' !! (guid, db_name) = store !! (guid, db_name) →
  is_duplicate Cert Hash beyond fuel cert cert_size db_name guid store'
  = is_duplicate Cert Hash beyond fuel cert cert_size db_name guid store.
Proof. intros H. unfold is_duplicate. by rewrite H. Qed.

(** For a key that is not empty, [is_duplicate] answers 1 exactly when
    some node of the decoded list has the key as its payload. *)
Lemma is_duplicate_payload (fuel : nat) (cert : list Z) (db_name : string)
    (guid : efi_guid_t) (store : gmap (efi_guid_t * string) (list Z))
    (data : list Z) (mlist : list MokListNode) :
  cert ≠ [] →
  store !! (guid, db_name) = Some data →
  (build_mok_list Cert Hash fuel (heap_of data beyond) (Z.of_nat (length data))).1
  = Some mlist →
  is_duplicate Cert Hash beyond fuel cert (Z.of_nat (length cert)) db_name guid store = Some 1
  ↔ ∃ n, n ∈ mlist ∧ mok_size n = Z.of_nat (length cert)
         ∧ payload (heap_of data beyond) n = cert.
Proof.
  intros Hne Hdata Hrun. unfold is_duplicate.
  rewrite bool_decide_false by (destruct cert; [done | simpl; lia]).
  rewrite Hdata. cbv zeta. rewrite Hrun, bytes_at_all, Nat2Z.id.
  destruct (existsb _ mlist) eqn:E.
  - split; [intros _ | done].
    apply existsb_exists in E as (n & Hin & Hn).
    apply andb_true_iff in Hn as [Hs Hm].
    apply bool_decide_eq_true in Hs. apply bool_decide_eq_true in Hm.
    exists n. split; [by apply list_elem_of_In |]. split; [done |].
    unfold payload. rewrite Hs, Nat2Z.id.
    apply memcmp_eq; [by rewrite length_peek | done].
  - split; [done |]. intros (n & Hin & Hs & Hp).
    assert (existsb (λ n, bool_decide (mok_size n = Z.of_nat (length cert))
                          && bool_decide (memcmp (peek (heap_of data beyond) (mok n)
                                                       (length cert)) cert = 0)) mlist
            = true) as E'; [| congruence].
    apply existsb_exists. exists n. split; [by apply list_elem_of_In |].
    apply andb_true_iff. split; [by apply bool_decide_eq_true |].
    apply bool_decide_eq_true. unfold payload in Hp. rewrite Hs, Nat2Z.id in Hp.
    rewrite Hp. apply memcmp_refl.
Qed.

End Eligibility.

Ltac case_dup name :=
  match goal with
  | |- context [is_duplicate ?a ?b ?c ?d ?e ?f name ?g ?s] =>
    let E := fresh "E" in
    destruct (is_duplicate a b c d e f name g s) as [?|] eqn:E;
    [destruct (is_duplicate_range _ _ _ _ _ _ _ _ _ _ E) as [-> | ->] |]
  end.

(** The verdict in terms of the checks it makes: [is_valid_request]
    answers 0 or 1 whenever it returns.  For an enrolment it answers 1
    exactly when [is_duplicate] answers 0 for PK, KEK, db, MokListRT and
    MokNew, and the answer does not depend on the contents of MokDel; for
    a deletion it answers 1 exactly when [is_duplicate] answers 1 for
    MokListRT and 0 for MokDel. *)
Lemma is_valid_request_checks (Cert Hash Global Image : efi_guid_t)
    (beyond : Z → Z) (fuel : nat) (mok : list Z) (mok_size : Z)
    (store : gmap (efi_guid_t * string) (list Z)) :
  let dup name guid := is_duplicate Cert Hash beyond fuel mok mok_size name guid store in
  let valid import := is_valid_request Cert Hash Global Image beyond fuel mok mok_size
                                       import store in
  (valid true = Some 1 ↔
     dup "PK" Global = Some 0 ∧ dup "KEK" Global = Some 0 ∧ dup "db" Image = Some 0
     ∧ dup "MokListRT" SHIM_LOCK_GUID = Some 0 ∧ dup "MokNew" SHIM_LOCK_GUID = Some 0)
  ∧ (valid false = Some 1 ↔
       dup "MokListRT" SHIM_LOCK_GUID = Some 1 ∧ dup "MokDel" SHIM_LOCK_GUID = Some 0)
  ∧ (∀ import v, valid import = Some v → v = 0 ∨ v = 1)
  ∧ (∀ store' : gmap (efi_guid_t * string) (list Z),
       (∀ guid name, name ≠ "MokDel" → store' !! (guid, name) = store !! (guid, name)) →
       is_valid_request Cert Hash Global Image beyond fuel mok mok_size true store'
       = valid true).
Proof.
  intros dup valid. subst dup valid. unfold is_valid_request. cbv beta zeta.
  refine (conj _ (conj _ (conj _ _))).
  - case_dup ("PK"); case_dup ("KEK"); case_dup ("db"); case_dup ("MokListRT");
      case_dup ("MokNew"); vm_compute; (split; [intros; repeat split |intros (? & ? & ? & ? & ?)]);
      congruence.
  - case_dup ("MokListRT"); case_dup ("MokDel"); vm_compute;
      (split; [intros; repeat split |intros (? & ?)]); congruence.
  - intros [] v; unfold c_or, c_not, mbind, option_bind;
      repeat (match goal with
              | |- context [match ?o with Some _ => _ | None => _ end] =>
                  destruct o; try done
              | |- context [bool_decide ?P] => destruct (bool_decide P)
              end); intros [= <-]; auto.
  - intros store' Hext.
    rewrite !(is_duplicate_ext Cert Hash beyond fuel mok mok_size _ _ store store')
      by (apply Hext; done).
    reflexivity.
Qed.

Lemma runs_ret {A} (a : A) w : runs (mret a) w a w.
Proof. by eexists. Qed.

Lemma runs_bind {A B} (m : IO A) (k : A → IO B) w a w1 b w2 :
  runs m w a w1 → runs (k a) w1 b w2 → runs (m ≫= k) w b w2.
Proof.
  intros [o1 H1] [o2 H2]. exists (o1 ++ o2). unfold mbind, io_bind. by rewrite H1, H2.
Qed.

Lemma runs_say s w : runs (say s) w tt w.
Proof. by eexists. Qed.

Lemma runs_edit_variable_ok guid name data w rest :
  edits w = true :: rest →
  runs (edit_variable guid name data) w true
       (World (<[(guid, name) := data]> (vars w)) rest (cursor w)).
Proof. intros H. eexists. unfold edit_variable. by rewrite H. Qed.

Lemma runs_edit_variable_fail guid name data w rest :
  edits w = false :: rest →
  runs (edit_variable guid name data) w false (World (vars w) rest (cursor w)).
Proof. intros H. eexists. unfold edit_variable. by rewrite H. Qed.

Section Commit.

Variable SHA256 : list Z → list Z.
Variable beyond : Z → Z.
Variable stdin : nat → list Z.

Lemma test_and_delete_var_present var_name w data :
  vars w !! (SHIM_LOCK_GUID, var_name) = Some data →
  runs (test_and_delete_var var_name) w 0
       (World (delete (SHIM_LOCK_GUID, var_name) (vars w)) (edits w) (cursor w)).
Proof.
  intros H. eexists.
  unfold test_and_delete_var, mbind, io_bind, test_variable, delete_variable.
  rewrite H, bool_decide_true by eauto. cbv beta iota. by rewrite H.
Qed.

Lemma update_request_rolled_back l list_len import w password pw_len w1 o1 rest :
  get_password stdin PASSWORD_MIN PASSWORD_MAX w = (Some (password, pw_len), w1, o1) →
  edits w = true :: false :: rest →
  runs (update_request SHA256 beyond stdin (Some l) list_len import) w (-1)
       (World (delete (SHIM_LOCK_GUID, req_name import) (vars w)) rest (cursor w1)).
Proof.
  intros Hpw Hed.
  destruct (preserves_get_password stdin PASSWORD_MIN PASSWORD_MAX w) as [Hv He].
  rewrite Hpw in Hv, He. cbn [fst snd] in Hv, He. rewrite Hed in He.
  unfold update_request.
  eapply runs_bind; [by eexists |]. cbv beta iota.
  eapply runs_bind.
  { eapply runs_bind; [by apply runs_edit_variable_ok |]. apply runs_ret. }
  cbn [negb].
  eapply runs_bind; [by apply runs_edit_variable_fail |]. cbv beta iota.
  eapply runs_bind; [apply runs_say |].
  eapply runs_bind.
  { eapply test_and_delete_var_present. cbn [vars]. apply lookup_insert_eq. }
  cbn [vars edits cursor]. rewrite delete_insert_eq, Hv. apply runs_ret.
Qed.

Lemma update_request_committed l list_len import w password pw_len w1 o1 rest :
  get_password stdin PASSWORD_MIN PASSWORD_MAX w = (Some (password, pw_len), w1, o1) →
  edits w = true :: true :: rest →
  (∀ m, length (SHA256 m) = 32%nat) →
  0 ≤ list_len ≤ Z.of_nat (length l) →
  runs (update_request SHA256 beyond stdin (Some l) list_len import) w 0
       (World (<[(SHIM_LOCK_GUID, auth_name import) :=
                   SHA256 (take (Z.to_nat list_len) l ++ utf16le_budget password)]>
                (<[(SHIM_LOCK_GUID, req_name import) := take (Z.to_nat list_len) l]>
                 (vars w)))
              rest (cursor w1)).
Proof.
  intros Hpw Hed Hsha Hlen.
  destruct (preserves_get_password stdin PASSWORD_MIN PASSWORD_MAX w) as [Hv He].
  rewrite Hpw in Hv, He. cbn [fst snd] in Hv, He. rewrite Hed in He.
  assert (auth_buffer beyond (generate_auth SHA256 beyond (Some l) list_len (Some password) pw_len)
          = SHA256 (take (Z.to_nat list_len) l ++ utf16le_budget password)) as Hauth.
  { unfold generate_auth.
    pose proof (efichar_from_char_budget beyond password) as Hb.
    destruct (efichar_from_char password _) as [efichar_pass efichar_len].
    rewrite Hb, bytes_at_take by done. reflexivity. }
  unfold update_request.
  eapply runs_bind; [by eexists |]. cbv beta iota zeta. rewrite Hauth.
  eapply runs_bind.
  { eapply runs_bind; [by apply runs_edit_variable_ok |]. apply runs_ret. }
  cbn [negb].
  eapply runs_bind; [by apply runs_edit_variable_ok |]. cbv beta iota.
  cbn [vars edits cursor].
  rewrite (bytes_at_take beyond l) by done.
  replace SHA256_DIGEST_LENGTH with (Z.of_nat (length (SHA256 (take (Z.to_nat list_len) l
                                                   ++ utf16le_budget password))))
    by (rewrite Hsha; reflexivity).
  rewrite bytes_at_all, Hv. apply runs_ret.
Qed.

(** Answers that are all turned down make the loop of [verify_old_req]
    answer 0 once they are used up, provided that only the last of them
    has a wrong length. *)
Lemma verify_old_req_loop_fails tries old_req tag w :
  (∀ i, (i < tries)%nat →
        failed_attempt SHA256 beyond old_req tag (stdin (cursor w + i)%nat)) →
  (∀ i, (S i < tries)%nat → ¬ wrong_length (stdin (cursor w + i)%nat)) →
  runs (verify_old_req_loop SHA256 beyond stdin tries false old_req
          (Z.of_nat (length old_req)) tag) w (Answered 0)
       (World (vars w) (edits w) (cursor w + tries)).
Proof.
  revert w. induction tries as [|t IH]; intros w Hbad Hlen.
  - rewrite Nat.add_0_r. destruct w. apply runs_ret.
  - cbn [verify_old_req_loop].
    eapply runs_bind; [apply runs_say |].
    eapply runs_bind; [by eexists |].
    eapply runs_bind; [apply runs_say |]. cbv beta iota.
    pose proof (Hbad 0%nat ltac:(lia)) as H0. rewrite Nat.add_0_r in H0.
    unfold failed_attempt in H0. cbv zeta in H0.
    destruct (bool_decide (Z.of_nat (length (stdin (cursor w))) > PASSWORD_MAX)
              || bool_decide (Z.of_nat (length (stdin (cursor w))) < PASSWORD_MIN)) eqn:E.
    + eapply runs_bind; [apply runs_say |].
      destruct t as [|t].
      * replace (cursor w + 1)%nat with (S (cursor w)) by lia. apply runs_ret.
      * exfalso. apply (Hlen 0%nat ltac:(lia)). rewrite Nat.add_0_r. unfold wrong_length.
        apply orb_true_iff in E as [E|E]; apply bool_decide_eq_true in E; tauto.
    + apply orb_false_iff in E as [E1 E2].
      apply bool_decide_eq_false in E1. apply bool_decide_eq_false in E2.
      rewrite bool_decide_false by tauto.
      replace (cursor w + S t)%nat with (S (cursor w) + t)%nat by lia.
      apply (IH (World (vars w) (edits w) (S (cursor w)))); cbn [cursor].
      * intros i Hi. replace (S (cursor w) + i)%nat with (cursor w + S i)%nat by lia.
        apply Hbad. lia.
      * intros i Hi. replace (S (cursor w) + i)%nat with (cursor w + S i)%nat by lia.
        apply Hlen. lia.
Qed.

Lemma verify_old_req_fails old_req tag import w :
  vars w !! (SHIM_LOCK_GUID, auth_name import) = Some tag →
  (∀ i, (i < 3)%nat →
        failed_attempt SHA256 beyond old_req tag (stdin (cursor w + i)%nat)) →
  (∀ i, (i < 2)%nat → ¬ wrong_length (stdin (cursor w + i)%nat)) →
  runs (verify_old_req SHA256 beyond stdin old_req (Z.of_nat (length old_req)) import) w
       (Answered 0) (World (vars w) (edits w) (cursor w + 3)).
Proof.
  intros Htag Hbad Hlen. unfold verify_old_req.
  eapply runs_bind; [by eexists |]. cbn [fst snd]. rewrite Htag.
  apply verify_old_req_loop_fails; [done |]. intros i Hi. apply Hlen. lia.
Qed.

(** A line of the wrong length that is not the last attempt leaves the
    loop with a freed buffer, which the next round hands to [getline]. *)
Lemma verify_old_req_loop_freed tries k old_req tag w :
  (S k < tries)%nat →
  (∀ i, (i < k)%nat →
        failed_attempt SHA256 beyond old_req tag (stdin (cursor w + i)%nat)
        ∧ ¬ wrong_length (stdin (cursor w + i)%nat)) →
  wrong_length (stdin (cursor w + k)%nat) →
  runs (verify_old_req_loop SHA256 beyond stdin tries false old_req
          (Z.of_nat (length old_req)) tag) w UseAfterFree
       (World (vars w) (edits w) (cursor w + k + 1)).
Proof.
  revert w k. induction tries as [|t IH]; intros w k Hk Hbad Hlen; [lia |].
  cbn [verify_old_req_loop].
  eapply runs_bind; [apply runs_say |].
  eapply runs_bind; [by eexists |].
  eapply runs_bind; [apply runs_say |]. cbv beta iota.
  destruct k as [|k].
  - rewrite Nat.add_0_r in *. unfold wrong_length in Hlen.
    assert (bool_decide (Z.of_nat (length (stdin (cursor w))) > PASSWORD_MAX)
            || bool_decide (Z.of_nat (length (stdin (cursor w))) < PASSWORD_MIN) = true) as ->.
    { apply orb_true_iff. destruct Hlen; [left | right]; by apply bool_decide_eq_true. }
    eapply runs_bind; [apply runs_say |].
    destruct t as [|t]; [lia |]. cbn [verify_old_req_loop].
    eapply runs_bind; [apply runs_say |].
    replace (cursor w + 1)%nat with (S (cursor w)) by lia. apply runs_ret.
  - destruct (Hbad 0%nat ltac:(lia)) as [H0 Hl0]. rewrite Nat.add_0_r in H0, Hl0.
    unfold failed_attempt in H0. unfold wrong_length in Hl0. cbv zeta in H0.
    rewrite !bool_decide_false by tauto. cbn [orb].
    replace (cursor w + S k + 1)%nat with (S (cursor w) + k + 1)%nat by lia.
    apply (IH (World (vars w) (edits w) (S (cursor w))) k); [lia | |]; cbn [cursor].
    + intros i Hi. replace (S (cursor w) + i)%nat with (cursor w + S i)%nat by lia.
      apply Hbad. lia.
    + by replace (S (cursor w) + k)%nat with (cursor w + S k)%nat by lia.
Qed.

End Commit.

(** C6: when the write of the pending list succeeds and the write of its
    tag fails, [update_request] deletes the pending list it has just
    written and answers -1: afterwards the pending-list variable is absent
    and every other variable, the tag included, is as before. *)
Theorem update_request_rolls_back (SHA256 : list Z → list Z) (beyond : Z → Z)
    (stdin : nat → list Z) (l : list Z) (list_len : Z) (import : bool) (w : world)
    (password : list Z) (pw_len : Z) (w1 : world) (o1 : list string) (rest : list bool) :
  get_password stdin PASSWORD_MIN PASSWORD_MAX w = (Some (password, pw_len), w1, o1) →
  edits w = true :: false :: rest →
  ∃ w' out,
    update_request SHA256 beyond stdin (Some l) list_len import w = (-1, w', out)
    ∧ vars w' !! (SHIM_LOCK_GUID, req_name import) = None
    ∧ (∀ k, k ≠ (SHIM_LOCK_GUID, req_name import) → vars w' !! k = vars w !! k)
    ∧ vars w' !! (SHIM_LOCK_GUID, auth_name import)
      = vars w !! (SHIM_LOCK_GUID, auth_name import).
Proof.
  intros Hpw Hed.
  destruct (update_request_rolled_back SHA256 beyond stdin l list_len import w
              password pw_len w1 o1 rest Hpw Hed) as [out Hrun].
  eexists _, out. split; [exact Hrun |]. cbn [vars].
  split; [apply lookup_delete_eq |].
  split; [intros k Hk; by apply lookup_delete_ne |].
  apply lookup_delete_ne. destruct import; intros [=].
Qed.

(** ** The request builder *)

Lemma encoded_size_sum keys :
  encoded_size keys = sum_length keys + 44 * Z.of_nat (length keys).
Proof. induction keys as [|k keys IH]; simpl in *; lia. Qed.

Lemma accepted_all keys verdicts :
  Forall2 (λ (_ : list Z) v, v ≠ 0) keys verdicts → accepted keys verdicts = keys.
Proof.
  induction 1 as [|k v keys vs Hv _ IH]; [done |].
  cbn [accepted]. rewrite bool_decide_true by done. by rewrite IH.
Qed.

Lemma accepted_none keys verdicts :
  Forall2 (λ (_ : list Z) v, v = 0) keys verdicts → accepted keys verdicts = [].
Proof.
  induction 1 as [|k v keys vs Hv _ IH]; [done |].
  cbn [accepted]. rewrite bool_decide_false by (intros Hne; by apply Hne). done.
Qed.

Lemma encoded_size_pos keys : keys ≠ [] → 0 < encoded_size keys.
Proof.
  destruct keys as [|k keys]; [done |]. intros _. simpl.
  pose proof (encoded_size_nonneg keys). unfold encoded_size in *. lia.
Qed.

Section Request.

Variables Cert Hash Global Image : efi_guid_t.
Variable SHA256 : list Z → list Z.
Variable d2i_X509 : list Z → bool.
Variable beyond : Z → Z.
Variable stdin : nat → list Z.
Variable fs : string → option (list Z).
Hypothesis Cert_length : length Cert = 16%nat.

Lemma stat_files_ok files keys :
  Forall2 (λ f k, fs f = Some k) files keys →
  stat_files fs files
  = inr ((λ k, uint32_t (Z.of_nat (length k))) <$> keys, sum_length keys).
Proof.
  induction 1 as [|f k files keys Hf _ IH]; [done |].
  cbn [stat_files]. by rewrite Hf, IH.
Qed.

(** What the two loops of [issue_mok_request] leave behind when every
    file can be read and every duplicate check returns. *)
Lemma issue_mok_request_loops fuel import w files keys verdicts :
  Forall2 (λ f k, fs f = Some k) files keys →
  Forall2 (λ k v, is_valid_request Cert Hash Global Image beyond fuel k
                    (Z.of_nat (length k)) import (vars w) = Some v) keys verdicts →
  encoded_size keys
    + Z.of_nat (length (default [] (vars w !! (SHIM_LOCK_GUID, req_name import)))) < 2 ^ 31 →
  ∃ st out,
    stat_files fs files
    = inr ((λ k, uint32_t (Z.of_nat (length k))) <$> keys, sum_length keys)
    ∧ encode_files Cert Hash Global Image d2i_X509 beyond fs fuel import (vars w) files
        ((λ k, uint32_t (Z.of_nat (length k))) <$> keys)
        (Request
           (peek beyond 0
              (Z.to_nat
                 (unsigned_long
                    (match vars w !! (SHIM_LOCK_GUID, req_name import) with
                     | Some d =>
                         sum_length keys
                         + sizeof_EFI_SIGNATURE_LIST * uint32_t (Z.of_nat (length files))
                         + sizeof_efi_guid_t * uint32_t (Z.of_nat (length files))
                         + Z.of_nat (length d)
                     | None =>
                         sum_length keys
                         + sizeof_EFI_SIGNATURE_LIST * uint32_t (Z.of_nat (length files))
                         + sizeof_efi_guid_t * uint32_t (Z.of_nat (length files))
                     end))))
           0 0)
      = Some (Some st, out)
    ∧ take (Z.to_nat (real_size st)) (new_list st) = encode Cert (accepted keys verdicts)
    ∧ real_size st = encoded_size (accepted keys verdicts)
    ∧ Z.of_nat (length (new_list st))
      = encoded_size keys
        + Z.of_nat (length (default [] (vars w !! (SHIM_LOCK_GUID, req_name import))))
    ∧ Forall2 (λ f v, v = 0 → skip_notice f ∈ out) files verdicts
    ∧ Forall (λ s, ∃ f, s = skip_notice f ∨ s = der_warning f) out.
Proof.
  intros Hfs Hv Hbound.
  pose proof (Forall2_length _ _ _ Hfs) as Hcount.
  pose proof (encoded_size_sum keys) as Hsum.
  pose proof (encoded_size_nonneg keys) as Hnn.
  assert (0 ≤ sum_length keys) as Hsl by (clear; induction keys; simpl; lia).
  set (old := vars w !! (SHIM_LOCK_GUID, req_name import)) in *.
  set (room := match old with
               | Some d => _
               | None => _
               end).
  assert (room = encoded_size keys + Z.of_nat (length (default [] old))) as Hroom.
  { subst room. unfold uint32_t, sizeof_EFI_SIGNATURE_LIST, sizeof_efi_guid_t.
    rewrite Z.mod_small by lia. destruct old; simpl; lia. }
  rewrite Hroom. unfold unsigned_long. rewrite Z.mod_small by lia.
  set (fresh := peek beyond 0 _).
  assert (Z.of_nat (length fresh)
          = encoded_size keys + Z.of_nat (length (default [] old))) as Hfresh
    by (subst fresh; rewrite length_peek; lia).
  destruct (encode_files_spec Cert Hash Global Image d2i_X509 beyond fs Cert_length
              fuel import (vars w) files keys verdicts (Request fresh 0 0) Hfs Hv)
    as (st & out & Hrun & Htake & Hptr & Hreal & Hlen & Hskip & Hout);
    cbn [ptr real_size new_list]; try lia;
    [apply encoded_size_each; lia |].
  exists st, out. cbn [ptr real_size new_list] in *.
  split; [by apply stat_files_ok |]. split; [exact Hrun |].
  rewrite Hreal, Z.add_0_l. rewrite Hptr, Z.add_0_l in Htake.
  rewrite Htake. change (Z.to_nat 0) with 0%nat. rewrite take_0, app_nil_l.
  repeat split; try done. by rewrite Hlen.
Qed.

(** The merge: a pending request whose challenge is passed is appended,
    byte for byte, after the records of the eligible keys, and the new
    tag covers both. *)
Lemma issue_mok_request_merges fuel import w files keys verdicts
    old_req ok w0 o0 password pw_len w1 o1 rest :
  (∀ m, length (SHA256 m) = 32%nat) →
  Forall2 (λ f k, fs f = Some k) files keys →
  Forall2 (λ k v, is_valid_request Cert Hash Global Image beyond fuel k
                    (Z.of_nat (length k)) import (vars w) = Some v) keys verdicts →
  accepted keys verdicts ≠ [] →
  encoded_size keys + Z.of_nat (length old_req) < 2 ^ 31 →
  vars w !! (SHIM_LOCK_GUID, req_name import) = Some old_req →
  verify_old_req SHA256 beyond stdin old_req (Z.of_nat (length old_req)) import w
  = (Answered ok, w0, o0) →
  ok ≠ 0 →
  get_password stdin PASSWORD_MIN PASSWORD_MAX w0 = (Some (password, pw_len), w1, o1) →
  edits w = true :: true :: rest →
  let committed := encode Cert (accepted keys verdicts) ++ old_req in
  ∃ w' out,
    issue_mok_request Cert Hash Global Image SHA256 d2i_X509 beyond stdin fs
                      fuel files import w = Some (0, w', out)
    ∧ vars w' !! (SHIM_LOCK_GUID, req_name import) = Some committed
    ∧ vars w' !! (SHIM_LOCK_GUID, auth_name import)
      = Some (SHA256 (committed ++ utf16le_budget password)).
Proof.
  intros Hsha Hfs Hv Hsome Hbound Hold Hverify Hok Hpw Hed committed.
  destruct (issue_mok_request_loops fuel import w files keys verdicts Hfs Hv)
    as (st & out & Hstat & Hrun & Htake & Hreal & Hlen & _ & _);
    [by rewrite Hold |].
  rewrite Hold in Hlen. cbn [default from_option id] in Hlen.
  pose proof (encoded_size_pos _ Hsome) as Hpos.
  pose proof (encoded_size_accepted keys verdicts) as Hle.
  destruct (preserves_verify_old_req SHA256 beyond stdin old_req
              (Z.of_nat (length old_req)) import w) as [Hvars Hedits].
  rewrite Hverify in Hvars, Hedits. cbn [fst snd] in Hvars, Hedits.
  set (merged := poke (new_list st) (real_size st) old_req).
  set (size := real_size st + Z.of_nat (length old_req)).
  assert (take (Z.to_nat size) merged = committed) as Hmerged.
  { subst merged size committed.
    rewrite take_poke_end with (bs := old_req); [by rewrite Htake | lia | lia | lia]. }
  assert (length merged = length (new_list st)) as Hml
    by (subst merged; apply length_poke; lia).
  assert (int (unsigned_long size) = size) as Hint.
  { unfold int, unsigned_long. subst size.
    rewrite (Z.mod_small _ (2 ^ 64)) by lia.
    rewrite Z.mod_small by lia. rewrite bool_decide_true by lia. done. }
  destruct (update_request_committed SHA256 beyond stdin merged size import w0
              password pw_len w1 o1 rest Hpw) as [out' Hup];
    [congruence | exact Hsha | subst size; lia |].
  rewrite Hmerged in Hup.
  eexists _, ((out ++ o0) ++ out' ++ []).
  split; [| split].
  - unfold issue_mok_request. rewrite Hstat. cbv beta iota zeta.
    rewrite Hrun, Hold. rewrite bool_decide_false by lia.
    rewrite Hverify. rewrite bool_decide_false by done.
    cbn [new_list real_size]. fold merged size. rewrite Hint.
    unfold mbind, io_bind in Hup |- *. rewrite Hup.
    rewrite bool_decide_false by lia. reflexivity.
  - cbn [vars]. rewrite lookup_insert_ne by (destruct import; intros [=]).
    apply lookup_insert_eq.
  - cbn [vars]. apply lookup_insert_eq.
Qed.

End Request.

(** C9: when every file is read and none is eligible, [issue_mok_request]
    answers 0 and the world is the one it started in: no variable is
    written or deleted, no write is attempted and no line is read from
    the terminal; all it prints are the notices of the files it skipped
    and the warnings about their format, so no password is asked for. *)
Theorem issue_mok_request_nothing_eligible (Cert Hash Global Image : efi_guid_t)
    (SHA256 : list Z → list Z) (d2i_X509 : list Z → bool) (beyond : Z → Z)
    (stdin : nat → list Z) (fs : string → option (list Z))
    (fuel : nat) (import : bool) (w : world) (files : list string) (keys : list (list Z)) :
  length Cert = 16%nat →
  Forall2 (λ f k, fs f = Some k) files keys →
  Forall (λ k, is_valid_request Cert Hash Global Image beyond fuel k
                 (Z.of_nat (length k)) import (vars w) = Some 0) keys →
  encoded_size keys
    + Z.of_nat (length (default [] (vars w !! (SHIM_LOCK_GUID, req_name import)))) < 2 ^ 31 →
  ∃ out,
    issue_mok_request Cert Hash Global Image SHA256 d2i_X509 beyond stdin fs
                      fuel files import w = Some (0, w, out)
    ∧ Forall (λ s, ∃ f, s = skip_notice f ∨ s = der_warning f) out.
Proof.
  intros HC Hfs Hnone Hbound.
  set (verdicts := replicate (length keys) 0).
  assert (Forall2 (λ k v, is_valid_request Cert Hash Global Image beyond fuel k
                            (Z.of_nat (length k)) import (vars w) = Some v) keys verdicts) as Hv.
  { subst verdicts. clear -Hnone. induction Hnone; simpl; constructor; auto. }
  assert (accepted keys verdicts = []) as Hacc.
  { apply accepted_none. subst verdicts. clear. induction keys; simpl; constructor; auto. }
  destruct (issue_mok_request_loops Cert Hash Global Image d2i_X509 beyond fs HC
              fuel import w files keys verdicts Hfs Hv Hbound)
    as (st & out & Hstat & Hrun & _ & Hreal & _ & _ & Hout).
  exists out. split; [| exact Hout]. unfold issue_mok_request. rewrite Hstat. cbv beta iota zeta.
  rewrite Hrun. rewrite Hacc in Hreal. simpl in Hreal.
  by rewrite bool_decide_true.
Qed.

(** C2 (fails on the code): with a request pending and some file
    eligible, an answer of the wrong length that is the first or the
    second attempt of the challenge makes [verify_old_req] free the line
    buffer and pass the freed buffer to the next [getline]: the challenge
    does not come to the answer 0 and [issue_mok_request] has no result. *)
Theorem issue_mok_request_challenge_reads_freed_memory
    (Cert Hash Global Image : efi_guid_t)
    (SHA256 : list Z → list Z) (d2i_X509 : list Z → bool) (beyond : Z → Z)
    (stdin : nat → list Z) (fs : string → option (list Z))
    (fuel : nat) (import : bool) (w : world) (files : list string)
    (keys : list (list Z)) (verdicts : list Z) (old_req tag : list Z) (k : nat) :
  length Cert = 16%nat →
  Forall2 (λ f k, fs f = Some k) files keys →
  Forall2 (λ k v, is_valid_request Cert Hash Global Image beyond fuel k
                    (Z.of_nat (length k)) import (vars w) = Some v) keys verdicts →
  accepted keys verdicts ≠ [] →
  encoded_size keys + Z.of_nat (length old_req) < 2 ^ 31 →
  vars w !! (SHIM_LOCK_GUID, req_name import) = Some old_req →
  vars w !! (SHIM_LOCK_GUID, auth_name import) = Some tag →
  (k < 2)%nat →
  (∀ i, (i < k)%nat →
        failed_attempt SHA256 beyond old_req tag (stdin (cursor w + i)%nat)
        ∧ ¬ wrong_length (stdin (cursor w + i)%nat)) →
  wrong_length (stdin (cursor w + k)%nat) →
  (verify_old_req SHA256 beyond stdin old_req (Z.of_nat (length old_req)) import w).1.1
  = UseAfterFree
  ∧ issue_mok_request Cert Hash Global Image SHA256 d2i_X509 beyond stdin fs
                      fuel files import w = None.
Proof.
  intros HC Hfs Hv Hsome Hbound Hold Htag Hk Hbad Hlen.
  destruct (issue_mok_request_loops Cert Hash Global Image d2i_X509 beyond fs HC
              fuel import w files keys verdicts Hfs Hv)
    as (st & out & Hstat & Hrun & _ & Hreal & _ & _ & _); [by rewrite Hold |].
  pose proof (encoded_size_pos _ Hsome) as Hpos.
  assert (runs (verify_old_req SHA256 beyond stdin old_req (Z.of_nat (length old_req)) import)
               w UseAfterFree (World (vars w) (edits w) (cursor w + k + 1))) as [o Hverify].
  { unfold verify_old_req. eapply runs_bind; [by eexists |]. cbn [fst snd]. rewrite Htag.
    apply verify_old_req_loop_freed; [lia | done | done]. }
  split; [by rewrite Hverify |].
  unfold issue_mok_request. rewrite Hstat. cbv beta iota zeta.
  rewrite Hrun, Hold. rewrite bool_decide_false by lia.
  by rewrite Hverify.
Qed.

(** X25: when a request is already pending, some file is eligible and
    three answers to the challenge are turned down, of which only the last
    may have a wrong length, [issue_mok_request] answers -1 after those
    three lines; the variables, the pending list and its tag among them,
    are what they were, and no write was attempted. *)
Theorem issue_mok_request_failed_challenge (Cert Hash Global Image : efi_guid_t)
    (SHA256 : list Z → list Z) (d2i_X509 : list Z → bool) (beyond : Z → Z)
    (stdin : nat → list Z) (fs : string → option (list Z))
    (fuel : nat) (import : bool) (w : world) (files : list string)
    (keys : list (list Z)) (verdicts : list Z) (old_req tag : list Z) :
  length Cert = 16%nat →
  Forall2 (λ f k, fs f = Some k) files keys →
  Forall2 (λ k v, is_valid_request Cert Hash Global Image beyond fuel k
                    (Z.of_nat (length k)) import (vars w) = Some v) keys verdicts →
  accepted keys verdicts ≠ [] →
  encoded_size keys + Z.of_nat (length old_req) < 2 ^ 31 →
  vars w !! (SHIM_LOCK_GUID, req_name import) = Some old_req →
  vars w !! (SHIM_LOCK_GUID, auth_name import) = Some tag →
  (∀ i, (i < 3)%nat →
        failed_attempt SHA256 beyond old_req tag (stdin (cursor w + i)%nat)) →
  (∀ i, (i < 2)%nat → ¬ wrong_length (stdin (cursor w + i)%nat)) →
  ∃ out,
    issue_mok_request Cert Hash Global Image SHA256 d2i_X509 beyond stdin fs
                      fuel files import w
    = Some (-1, World (vars w) (edits w) (cursor w + 3), out).
Proof.
  intros HC Hfs Hv Hsome Hbound Hold Htag Hbad Hlen.
  destruct (issue_mok_request_loops Cert Hash Global Image d2i_X509 beyond fs HC
              fuel import w files keys verdicts Hfs Hv)
    as (st & out & Hstat & Hrun & _ & Hreal & _ & _ & _); [by rewrite Hold |].
  pose proof (encoded_size_pos _ Hsome) as Hpos.
  destruct (verify_old_req_fails SHA256 beyond stdin old_req tag import w Htag Hbad Hlen)
    as [o1 Hverify].
  exists (out ++ o1).
  unfold issue_mok_request. rewrite Hstat. cbv beta iota zeta.
  rewrite Hrun, Hold. rewrite bool_decide_false by lia.
  rewrite Hverify. by rewrite bool_decide_true.
Qed.

(** C7: with no request pending, every file read, at least one of them
    eligible, a new password entered and both writes accepted,
    [issue_mok_request] answers 0; the pending-list variable then holds
    the records of the eligible keys and nothing else, in the order of the
    files; the tag variable holds the digest of those bytes followed by
    the new password; and a notice names every file that was skipped. *)
Theorem issue_mok_request_commits_eligible (Cert Hash Global Image : efi_guid_t)
    (SHA256 : list Z → list Z) (d2i_X509 : list Z → bool) (beyond : Z → Z)
    (stdin : nat → list Z) (fs : string → option (list Z))
    (fuel : nat) (import : bool) (w : world) (files : list string)
    (keys : list (list Z)) (verdicts : list Z)
    (password : list Z) (pw_len : Z) (w1 : world) (o1 : list string) (rest : list bool) :
  length Cert = 16%nat →
  (∀ m, length (SHA256 m) = 32%nat) →
  Forall2 (λ f k, fs f = Some k) files keys →
  Forall2 (λ k v, is_valid_request Cert Hash Global Image beyond fuel k
                    (Z.of_nat (length k)) import (vars w) = Some v) keys verdicts →
  accepted keys verdicts ≠ [] →
  encoded_size keys < 2 ^ 31 →
  vars w !! (SHIM_LOCK_GUID, req_name import) = None →
  get_password stdin PASSWORD_MIN PASSWORD_MAX w = (Some (password, pw_len), w1, o1) →
  edits w = true :: true :: rest →
  let committed := encode Cert (accepted keys verdicts) in
  ∃ w' out,
    issue_mok_request Cert Hash Global Image SHA256 d2i_X509 beyond stdin fs
                      fuel files import w = Some (0, w', out)
    ∧ vars w' !! (SHIM_LOCK_GUID, req_name import) = Some committed
    ∧ vars w' !! (SHIM_LOCK_GUID, auth_name import)
      = Some (SHA256 (committed ++ utf16le_budget password))
    ∧ Forall2 (λ f v, v = 0 → skip_notice f ∈ out) files verdicts.
Proof.
  intros HC Hsha Hfs Hv Hsome Hbound Hold Hpw Hed committed.
  destruct (issue_mok_request_loops Cert Hash Global Image d2i_X509 beyond fs HC
              fuel import w files keys verdicts Hfs Hv)
    as (st & out & Hstat & Hrun & Htake & Hreal & Hlen & Hskip & _);
    [rewrite Hold; simpl; lia |].
  rewrite Hold in Hlen. simpl in Hlen.
  pose proof (encoded_size_pos _ Hsome) as Hpos.
  pose proof (encoded_size_accepted keys verdicts) as Hle.
  assert (int (real_size st) = real_size st) as Hint.
  { unfold int. rewrite Z.mod_small by lia. rewrite bool_decide_true by lia. done. }
  destruct (update_request_committed SHA256 beyond stdin (new_list st) (real_size st)
              import w password pw_len w1 o1 rest Hpw Hed Hsha) as [out' Hup]; [lia |].
  rewrite Htake in Hup. fold committed in Hup.
  eexists _, (out ++ [] ++ out' ++ []).
  split; [| split; [| split]].
  - unfold issue_mok_request. rewrite Hstat. cbv beta iota zeta.
    rewrite Hrun, Hold. rewrite bool_decide_false by lia.
    unfold mbind, io_bind. cbn [mret io_ret]. rewrite Hint.
    fold (@mbind IO _). unfold mbind, io_bind in Hup. rewrite Hup.
    rewrite bool_decide_false by lia. reflexivity.
  - cbn [vars]. rewrite lookup_insert_ne by (destruct import; intros [=]).
    apply lookup_insert_eq.
  - cbn [vars]. apply lookup_insert_eq.
  - eapply Forall2_impl; [exact Hskip |]. intros f v Hin Hz. apply elem_of_app. auto.
Qed.

(** C3: the encoding loop run over keys that are all eligible leaves, in
    the bytes it accepts, one X.509 record per key with no signature
    header and the tool's GUID as owner; [build_mok_list] on those bytes
    returns one node per key, whose payloads are the keys in order. *)
Theorem decode_of_encode (Cert Hash Global Image : efi_guid_t)
    (d2i_X509 : list Z → bool) (beyond : Z → Z) (fs : string → option (list Z))
    (fuel : nat) (import : bool) (store : gmap (efi_guid_t * string) (list Z))
    (files : list string) (keys : list (list Z)) (fresh : list Z) :
  length Cert = 16%nat →
  efi_guidcmp Cert Hash ≠ 0 →
  Forall2 (λ f k, fs f = Some k) files keys →
  Forall (λ k, ∃ v, is_valid_request Cert Hash Global Image beyond fuel k
                      (Z.of_nat (length k)) import store = Some v ∧ v ≠ 0) keys →
  Forall (λ k, Z.of_nat (length k) + 44 < 2 ^ 32) keys →
  encoded_size keys ≤ Z.of_nat (length fresh) →
  encoded_size keys < 2 ^ 64 →
  ∃ st out nodes loaded,
    encode_files Cert Hash Global Image d2i_X509 beyond fs fuel import store files
      ((λ k, uint32_t (Z.of_nat (length k))) <$> keys) (Request fresh 0 0)
    = Some (Some st, out)
    ∧ let data := bytes_at beyond (new_list st) (real_size st) in
      data = encode Cert keys
      ∧ build_mok_list Cert Hash (S (length keys)) (heap_of data beyond)
                       (Z.of_nat (length data)) = (Some nodes, loaded)
      ∧ length nodes = length keys
      ∧ payload (heap_of data beyond) <$> nodes = keys.
Proof.
  intros HC HCH Hfs Hall Hsmall Hroom Hbound.
  assert (∃ verdicts,
            Forall2 (λ k v, is_valid_request Cert Hash Global Image beyond fuel k
                              (Z.of_nat (length k)) import store = Some v) keys verdicts
            ∧ Forall2 (λ (_ : list Z) v, v ≠ 0) keys verdicts) as (verdicts & Hv & Hnz).
  { clear -Hall. induction Hall as [|k keys (v & Hk & Hne) _ (vs & H1 & H2)].
    - exists []. split; constructor.
    - exists (v :: vs). split; constructor; auto. }
  destruct (encode_files_spec Cert Hash Global Image d2i_X509 beyond fs HC
              fuel import store files keys verdicts (Request fresh 0 0) Hfs Hv Hsmall)
    as (st & out & Hrun & Htake & Hptr & Hreal & Hlen & _);
    cbn [ptr real_size new_list]; try lia.
  cbn [ptr real_size new_list] in *.
  rewrite (accepted_all _ _ Hnz) in *.
  rewrite Z.add_0_l in Hptr, Hreal. change (Z.to_nat 0) with 0%nat in Htake.
  rewrite take_0, app_nil_l, Hptr in Htake.
  pose proof (encoded_size_nonneg keys) as Hnn.
  assert (bytes_at beyond (new_list st) (real_size st) = encode Cert keys) as Hdata.
  { rewrite bytes_at_take by lia. by rewrite Hreal. }
  destruct (decode_encoded Cert Hash beyond HC HCH keys Hsmall [] [] (S (length keys)) [])
    as (nodes & Hdec & Hpay); [lia |].
  rewrite !app_nil_l in Hdec, Hpay.
  exists st, out, nodes.
  eexists. split; [exact Hrun |]. cbv zeta. rewrite Hdata.
  split; [done |]. split; [| split; [| exact Hpay]].
  - unfold build_mok_list. apply injective_projections; [exact Hdec | reflexivity].
  - pose proof (f_equal length Hpay) as HL. by rewrite length_fmap in HL.
Qed.

(** * Concrete runs *)

Lemma length_sha256 msg : length (sha256 msg) = 32%nat.
Proof. reflexivity. Qed.

Lemma build_mok_list_hash_nodes_32_witness :
  (build_mok_list uefi_x509 uefi_sha256 5 (heap_of mixed_list zeroed) 221).1
  = Some [ {| mok_size := 32; mok := 44 |}; {| mok_size := 3; mok := 218 |} ]
  ∧ mok_size (node_at (heap_of mixed_list zeroed) 0) = 32
  ∧ length (payload (heap_of mixed_list zeroed) (node_at (heap_of mixed_list zeroed) 0))
    = 32%nat.
Proof.
  destruct (build_mok_list_hash_nodes_32 uefi_x509 uefi_sha256
              (heap_of mixed_list zeroed) 5 221) as (Hrun & _ & Hhash).
  split.
  - rewrite Hrun. vm_compute. reflexivity.
  - apply Hhash; vm_compute; reflexivity.
Defined.

Lemma generate_auth_digest_witness :
  generate_auth sha256 zeroed (Some key_C) 64 (Some secret123) 9
  = Some (sha256 (key_C ++ utf16le_budget secret123))
  ∧ ∀ tag, generate_auth sha256 zeroed (Some key_C) 64 (Some secret123) 9 = Some tag →
           length tag = 32%nat.
Proof.
  destruct (generate_auth_digest sha256 zeroed (Some key_C) secret123 9)
    as (Hgen & _ & Hlen).
  split; [exact Hgen |]. apply Hlen. intros m. reflexivity.
Defined.

Lemma update_request_rolls_back_witness :
  ∃ w' out,
    update_request sha256 zeroed types_secret123 (Some key_C) 64 true tag_write_fails
    = (-1, w', out)
    ∧ vars w' !! (SHIM_LOCK_GUID, "MokNew"%string) = None
    ∧ (∀ k, k ≠ (SHIM_LOCK_GUID, "MokNew"%string) → vars w' !! k = vars tag_write_fails !! k)
    ∧ vars w' !! (SHIM_LOCK_GUID, "MokAuth"%string)
      = vars tag_write_fails !! (SHIM_LOCK_GUID, "MokAuth"%string).
Proof.
  apply (update_request_rolls_back sha256 zeroed types_secret123 key_C 64 true
           tag_write_fails secret123 9
           (get_password types_secret123 PASSWORD_MIN PASSWORD_MAX tag_write_fails).1.2
           (get_password types_secret123 PASSWORD_MIN PASSWORD_MAX tag_write_fails).2 []).
  - vm_compute. reflexivity.
  - reflexivity.
Defined.

Lemma issue_mok_request_nothing_eligible_witness :
  ∃ out,
    issue_mok_request uefi_x509 uefi_sha256 uefi_global_variable uefi_image_security_database
                      sha256 any_der zeroed types_secret123 der_files
                      5 ["A.der"%string] true db_holds_A
    = Some (0, db_holds_A, out)
    ∧ Forall (λ s, ∃ f, s = skip_notice f ∨ s = der_warning f) out.
Proof.
  apply (issue_mok_request_nothing_eligible uefi_x509 uefi_sha256 uefi_global_variable
           uefi_image_security_database sha256 any_der zeroed types_secret123 der_files
           5 true db_holds_A ["A.der"%string] [key_A]).
  - reflexivity.
  - constructor; [vm_compute; reflexivity | constructor].
  - constructor; [vm_compute; reflexivity | constructor].
  - vm_compute. reflexivity.
Defined.

Lemma issue_mok_request_challenge_reads_freed_memory_witness :
  (verify_old_req sha256 zeroed types_123 (encode uefi_x509 [key_C])
                  (Z.of_nat (length (encode uefi_x509 [key_C]))) true pending_C).1.1
  = UseAfterFree
  ∧ issue_mok_request uefi_x509 uefi_sha256 uefi_global_variable
                      uefi_image_security_database sha256 any_der zeroed types_123 der_files
                      5 ["B.der"%string] true pending_C
    = None.
Proof.
  apply (issue_mok_request_challenge_reads_freed_memory uefi_x509 uefi_sha256
           uefi_global_variable uefi_image_security_database sha256 any_der zeroed
           types_123 der_files 5 true pending_C ["B.der"%string] [key_B] [1]
           (encode uefi_x509 [key_C])
           (sha256 (encode uefi_x509 [key_C] ++ utf16le_budget secret123)) 0).
  - reflexivity.
  - constructor; [vm_compute; reflexivity | constructor].
  - constructor; [vm_compute; reflexivity | constructor].
  - vm_compute. discriminate.
  - vm_compute. reflexivity.
  - vm_compute. reflexivity.
  - vm_compute. reflexivity.
  - lia.
  - intros i Hi. lia.
  - right. vm_compute. reflexivity.
Defined.

Lemma issue_mok_request_failed_challenge_witness :
  ∃ out,
    issue_mok_request uefi_x509 uefi_sha256 uefi_global_variable uefi_image_security_database
                      sha256 any_der zeroed types_wrongpass der_files
                      5 ["B.der"%string] true pending_C
    = Some (-1, World (vars pending_C) (edits pending_C) (cursor pending_C + 3), out).
Proof.
  apply (issue_mok_request_failed_challenge uefi_x509 uefi_sha256 uefi_global_variable
           uefi_image_security_database sha256 any_der zeroed types_wrongpass der_files
           5 true pending_C ["B.der"%string] [key_B] [1]
           (encode uefi_x509 [key_C])
           (sha256 (encode uefi_x509 [key_C] ++ utf16le_budget secret123))).
  - reflexivity.
  - constructor; [vm_compute; reflexivity | constructor].
  - constructor; [vm_compute; reflexivity | constructor].
  - vm_compute. discriminate.
  - vm_compute. reflexivity.
  - vm_compute. reflexivity.
  - vm_compute. reflexivity.
  - intros i _. right. right. vm_compute. discriminate.
  - intros i _ [H|H]; vm_compute in H; discriminate.
Defined.

Lemma issue_mok_request_commits_eligible_witness :
  ∃ w' out,
    issue_mok_request uefi_x509 uefi_sha256 uefi_global_variable uefi_image_security_database
                      sha256 any_der zeroed types_secret123 der_files
                      5 ["A.der"%string; "B.der"%string] true db_holds_A
    = Some (0, w', out)
    ∧ vars w' !! (SHIM_LOCK_GUID, "MokNew"%string)
      = Some (encode uefi_x509 (accepted [key_A; key_B] [0; 1]))
    ∧ vars w' !! (SHIM_LOCK_GUID, "MokAuth"%string)
      = Some (sha256 (encode uefi_x509 (accepted [key_A; key_B] [0; 1])
                      ++ utf16le_budget secret123))
    ∧ Forall2 (λ f v, v = 0 → skip_notice f ∈ out)
              ["A.der"%string; "B.der"%string] [0; 1].
Proof.
  apply (issue_mok_request_commits_eligible uefi_x509 uefi_sha256 uefi_global_variable
           uefi_image_security_database sha256 any_der zeroed types_secret123 der_files
           5 true db_holds_A ["A.der"%string; "B.der"%string] [key_A; key_B] [0; 1]
           secret123 9 (World (vars db_holds_A) [true; true] 2)
           (get_password types_secret123 PASSWORD_MIN PASSWORD_MAX db_holds_A).2 []).
  - reflexivity.
  - intros m. reflexivity.
  - constructor; [vm_compute; reflexivity |].
    constructor; [vm_compute; reflexivity | constructor].
  - constructor; [vm_compute; reflexivity |].
    constructor; [vm_compute; reflexivity | constructor].
  - vm_compute. discriminate.
  - vm_compute. reflexivity.
  - vm_compute. reflexivity.
  - vm_compute. reflexivity.
  - reflexivity.
Defined.

Lemma decode_of_encode_witness :
  ∃ st out nodes loaded,
    encode_files uefi_x509 uefi_sha256 uefi_global_variable uefi_image_security_database
      any_der zeroed der_files 5 true ∅ ["A.der"%string; "B.der"%string]
      ((λ k, uint32_t (Z.of_nat (length k))) <$> [key_A; key_B])
      (Request (replicate 2188 0) 0 0)
    = Some (Some st, out)
    ∧ let data := bytes_at zeroed (new_list st) (real_size st) in
      data = encode uefi_x509 [key_A; key_B]
      ∧ build_mok_list uefi_x509 uefi_sha256 3 (heap_of data zeroed)
                       (Z.of_nat (length data)) = (Some nodes, loaded)
      ∧ length nodes = 2%nat
      ∧ payload (heap_of data zeroed) <$> nodes = [key_A; key_B].
Proof.
  apply (decode_of_encode uefi_x509 uefi_sha256 uefi_global_variable
           uefi_image_security_database any_der zeroed der_files 5 true ∅
           ["A.der"%string; "B.der"%string] [key_A; key_B] (replicate 2188 0)).
  - reflexivity.
  - vm_compute. discriminate.
  - constructor; [vm_compute; reflexivity |].
    constructor; [vm_compute; reflexivity | constructor].
  - constructor; [exists 1; split; [vm_compute; reflexivity | lia] |].
    constructor; [exists 1; split; [vm_compute; reflexivity | lia] | constructor].
  - constructor; [vm_compute; reflexivity |].
    constructor; [vm_compute; reflexivity | constructor].
  - vm_compute. discriminate.
  - vm_compute. reflexivity.
Defined.


(** * Further properties *)

(** ** The decoder *)

Lemma elem_of_span a b n : a ∈ span b n ↔ b ≤ a < b + Z.of_nat n.
Proof.
  unfold span. rewrite list_elem_of_fmap. split.
  - intros (i & -> & Hi). apply elem_of_seq in Hi. lia.
  - intros Ha. exists (Z.to_nat (a - b)). split; [lia |]. apply elem_of_seq. lia.
Qed.

Section DecodeMore.

Variables Cert Hash : efi_guid_t.

(** The loads of one round stay within the 28 bytes of the record header. *)
Lemma loop_S_loads fuel ds p l h tr :
  0 < ds → u32 h (p + 16) ≤ ds →
  ∃ extra,
    (∀ a, a ∈ extra → p ≤ a < p + 28)
    ∧ (build_mok_list_loop Cert Hash (S fuel) ds p l h tr).2
      = (build_mok_list_loop Cert Hash fuel (ds - u32 h (p + 16)) (p + u32 h (p + 16))
           (if kept Cert Hash h p then l ++ [node_at h p] else l) h (tr ++ extra)).2.
Proof.
  intros Hds Hfit. unfold kept, node_at, u32 in *.
  cbn [build_mok_list_loop]. rd_step; try lia;
    (eexists; split; [| rewrite <- !app_assoc; reflexivity]);
    intros a; rewrite !elem_of_app, !elem_of_span; lia.
Qed.

Lemma loop_exit_loads fuel ds p l h tr :
  ¬ (0 < ds ∧ u32 h (p + 16) ≤ ds) →
  (build_mok_list_loop Cert Hash (S fuel) ds p l h tr).2
  = if bool_decide (0 < ds) then tr ++ span (p + 16) 4 else tr.
Proof.
  intros Hexit. unfold u32 in *.
  cbn [build_mok_list_loop]. rd_step; try done; tauto.
Qed.

Lemma loop_loads_within fuel : ∀ ds p l h tr ps,
  walk fuel h ds p = Some ps →
  Forall (λ q, 28 ≤ u32 h (q + 16)) ps →
  0 ≤ p →
  ds - declared_total h ps ≤ 0 ∨ 20 ≤ ds - declared_total h ps →
  Forall (λ a, 0 ≤ a < p + ds) tr →
  Forall (λ a, 0 ≤ a < p + ds) (build_mok_list_loop Cert Hash fuel ds p l h tr).2.
Proof.
  induction fuel as [|f IH]; intros ds p l h tr ps Hwalk Hbig Hp Hrest Htr; [done |].
  cbn [walk] in Hwalk.
  destruct (bool_decide (0 < ds) && bool_decide (u32 h (p + 16) ≤ ds)) eqn:E.
  - apply andb_true_iff in E as [E1 E2].
    apply bool_decide_eq_true in E1. apply bool_decide_eq_true in E2.
    destruct (walk f h _ _) as [ps'|] eqn:Hw; [| done].
    injection Hwalk as <-. inversion Hbig as [|? ? Hsz Hbig']; subst.
    cbn [declared_total foldr] in Hrest. fold (declared_total h ps') in Hrest.
    destruct (loop_S_loads f ds p l h tr E1 E2) as (extra & Hextra & ->).
    replace (p + ds) with ((p + u32 h (p + 16)) + (ds - u32 h (p + 16))) by lia.
    eapply IH; eauto; try lia.
    apply Forall_app. split.
    + eapply Forall_impl; [exact Htr |]. simpl. intros; lia.
    + apply Forall_forall. intros a Ha. apply Hextra in Ha. lia.
  - injection Hwalk as <-. cbn [declared_total foldr] in Hrest.
    rewrite loop_exit_loads.
    + case_bool_decide; [| done]. apply Forall_app. split; [done |].
      apply Forall_forall. intros a Ha. apply elem_of_span in Ha. lia.
    + intros [H1 H2]. rewrite !bool_decide_true in E by done. done.
Qed.

Lemma loop_returns fuel : ∀ ds p l h tr,
  (Z.to_nat ds < fuel)%nat →
  Forall (λ q, 0 < u32 h (q + 16)) (visits fuel h ds p) →
  ∃ l', (build_mok_list_loop Cert Hash fuel ds p l h tr).1 = Some l'.
Proof.
  induction fuel as [|f IH]; intros ds p l h tr Hfuel Hpos; [lia |].
  rewrite loop_S. cbn [visits] in Hpos.
  destruct (bool_decide (0 < ds) && bool_decide (u32 h (p + 16) ≤ ds)) eqn:E; [| eauto].
  apply andb_true_iff in E as [E1 E2].
  apply bool_decide_eq_true in E1. apply bool_decide_eq_true in E2.
  inversion Hpos as [|? ? Hsz Hpos']; subst.
  apply IH; [lia | done].
Qed.

Lemma loop_extends fuel ds p l h tr r :
  (build_mok_list_loop Cert Hash fuel ds p l h tr).1 = Some r → l `prefix_of` r.
Proof.
  rewrite loop_walk. destruct (walk fuel h ds p); [| done].
  intros [= <-]. by apply prefix_app_r.
Qed.

Lemma loop_shorter fuel : ∀ ds ds' p l h tr r,
  ds' ≤ ds →
  (build_mok_list_loop Cert Hash fuel ds p l h tr).1 = Some r →
  ∃ r', (build_mok_list_loop Cert Hash fuel ds' p l h tr).1 = Some r' ∧ r' `prefix_of` r.
Proof.
  induction fuel as [|f IH]; intros ds ds' p l h tr r Hle Hrun; [done |].
  rewrite loop_S in Hrun |- *.
  destruct (bool_decide (0 < ds') && bool_decide (u32 h (p + 16) ≤ ds')) eqn:E'.
  - apply andb_true_iff in E' as [E1 E2].
    apply bool_decide_eq_true in E1. apply bool_decide_eq_true in E2.
    rewrite !bool_decide_true in Hrun by lia. cbn [andb] in Hrun.
    eapply IH; [| exact Hrun]. lia.
  - exists l. split; [done |].
    destruct (bool_decide (0 < ds) && bool_decide (u32 h (p + 16) ≤ ds)).
    + apply loop_extends in Hrun. etrans; [| exact Hrun].
      destruct (kept Cert Hash h p); [by apply prefix_app_r | done].
    + by injection Hrun as <-.
Qed.

End DecodeMore.

(** X1: when every record that the loop visits declares at least the 28
    bytes of its own header, and what is left after the last of them is
    nothing or at least 20 bytes, every load of [build_mok_list] falls
    inside the buffer. *)
Theorem build_mok_list_loads_within (Cert Hash : efi_guid_t) (h : heap)
    (fuel : nat) (data_size : Z) (ps : list Z) :
  walk fuel h data_size 0 = Some ps →
  Forall (λ q, 28 ≤ u32 h (q + 16)) ps →
  data_size - declared_total h ps ≤ 0 ∨ 20 ≤ data_size - declared_total h ps →
  Forall (λ a, 0 ≤ a < data_size) (build_mok_list Cert Hash fuel h data_size).2.
Proof.
  intros Hwalk Hbig Hrest. unfold build_mok_list.
  pose proof (loop_loads_within Cert Hash fuel data_size 0 [] h [] ps
                Hwalk Hbig ltac:(lia) Hrest ltac:(constructor)) as H.
  eapply Forall_impl; [exact H |]. simpl. intros; lia.
Qed.

Lemma build_mok_list_loads_within_witness :
  Forall (λ a, 0 ≤ a < 221)
         (build_mok_list uefi_x509 uefi_sha256 5 (heap_of mixed_list zeroed) 221).2.
Proof.
  apply (build_mok_list_loads_within uefi_x509 uefi_sha256 (heap_of mixed_list zeroed)
           5 221 [0; 76; 144; 174]).
  - vm_compute. reflexivity.
  - repeat constructor; vm_compute; discriminate.
  - left. vm_compute. discriminate.
Defined.

(** X2: [build_mok_list] returns within [data_size + 1] rounds whenever
    every record it visits declares a size above zero. *)
Theorem build_mok_list_returns (Cert Hash : efi_guid_t) (h : heap)
    (fuel : nat) (data_size : Z) :
  (Z.to_nat data_size < fuel)%nat →
  Forall (λ q, 0 < u32 h (q + 16)) (visits fuel h data_size 0) →
  ∃ mlist, (build_mok_list Cert Hash fuel h data_size).1 = Some mlist.
Proof. intros Hfuel Hpos. unfold build_mok_list. by apply loop_returns. Qed.

Lemma build_mok_list_returns_witness :
  ∃ mlist,
    (build_mok_list uefi_x509 uefi_sha256 222 (heap_of mixed_list zeroed) 221).1
    = Some mlist.
Proof.
  apply (build_mok_list_returns uefi_x509 uefi_sha256 (heap_of mixed_list zeroed) 222 221).
  - vm_compute. lia.
  - vm_compute. repeat constructor.
Defined.

(** X3: over the same memory, a smaller [data_size] makes
    [build_mok_list] return a prefix of the list it returns for the
    larger one. *)
Theorem build_mok_list_shorter (Cert Hash : efi_guid_t) (h : heap)
    (fuel : nat) (data_size data_size' : Z) (mlist : list MokListNode) :
  data_size' ≤ data_size →
  (build_mok_list Cert Hash fuel h data_size).1 = Some mlist →
  ∃ mlist', (build_mok_list Cert Hash fuel h data_size').1 = Some mlist'
            ∧ mlist' `prefix_of` mlist.
Proof. intros Hle Hrun. unfold build_mok_list in *. by eapply loop_shorter. Qed.

Lemma build_mok_list_shorter_witness :
  ∃ mlist',
    (build_mok_list uefi_x509 uefi_sha256 5 (heap_of mixed_list zeroed) 150).1
    = Some mlist'
    ∧ mlist' `prefix_of` [ {| mok_size := 32; mok := 44 |}; {| mok_size := 3; mok := 218 |} ].
Proof.
  apply (build_mok_list_shorter uefi_x509 uefi_sha256 (heap_of mixed_list zeroed)
           5 221 150).
  - lia.
  - vm_compute. reflexivity.
Defined.

Lemma peek_middle (beyond : Z → Z) (a m b : list Z) :
  peek (heap_of (a ++ m ++ b) beyond) (Z.of_nat (length a)) (length m) = m.
Proof.
  rewrite peek_heap_of; [| lia |].
  - rewrite Nat2Z.id, drop_app_length. by rewrite take_app_length.
  - rewrite !length_app. lia.
Qed.

Section FirstEntry.

Variables Cert Hash : efi_guid_t.
Variable beyond : Z → Z.
Hypothesis Hash_length : length Hash = 16%nat.

Lemma hash_record_fields owner hash more :
  length owner = 16%nat → length hash = 32%nat →
  76 + Z.of_nat (length more) < 2 ^ 32 →
  let h := heap_of (hash_record Hash owner hash more) beyond in
  peek h 0 16 = Hash
  ∧ u32 h 16 = 76 + Z.of_nat (length more)
  ∧ u32 h 20 = 0
  ∧ u32 h 24 = 48
  ∧ peek h 44 32 = hash
  ∧ Z.of_nat (length (hash_record Hash owner hash more)) = 76 + Z.of_nat (length more).
Proof.
  intros Ho Hh Hsmall h. subst h. unfold hash_record, u32.
  set (f1 := le_encode 4 (76 + Z.of_nat (length more))).
  set (f2 := le_encode 4 0).
  set (f3 := le_encode 4 48).
  assert (length f1 = 4%nat ∧ length f2 = 4%nat ∧ length f3 = 4%nat) as (L1 & L2 & L3)
    by (subst f1 f2 f3; by rewrite !length_le_encode).
  refine (conj _ (conj _ (conj _ (conj _ (conj _ _))))).
  - pose proof (peek_middle beyond [] Hash (f1 ++ f2 ++ f3 ++ owner ++ hash ++ more)) as E.
    by rewrite Hash_length in E.
  - pose proof (peek_middle beyond Hash f1 (f2 ++ f3 ++ owner ++ hash ++ more)) as E.
    rewrite Hash_length, L1 in E. change (Z.of_nat 16) with 16 in E. rewrite E.
    subst f1. apply le_decode_encode_4. lia.
  - pose proof (peek_middle beyond (Hash ++ f1) f2 (f3 ++ owner ++ hash ++ more)) as E.
    rewrite length_app, Hash_length, L1, L2, <- !app_assoc in E.
    change (Z.of_nat (16 + 4)) with 20 in E. by rewrite E.
  - pose proof (peek_middle beyond (Hash ++ f1 ++ f2) f3 (owner ++ hash ++ more)) as E.
    rewrite !length_app, Hash_length, L1, L2, L3, <- !app_assoc in E.
    change (Z.of_nat (16 + (4 + 4))) with 24 in E. by rewrite E.
  - pose proof (peek_middle beyond (Hash ++ f1 ++ f2 ++ f3 ++ owner) hash more) as E.
    rewrite !length_app, Hash_length, L1, L2, L3, Ho, Hh, <- !app_assoc in E.
    exact E.
  - rewrite !length_app. lia.
Qed.

Lemma hash_record_decoded fuel owner hash more :
  length owner = 16%nat → length hash = 32%nat →
  76 + Z.of_nat (length more) < 2 ^ 32 →
  let data := hash_record Hash owner hash more in
  (build_mok_list Cert Hash (S (S fuel)) (heap_of data beyond) (Z.of_nat (length data))).1
  = Some [ {| mok_size := 32; mok := 44 |} ].
Proof.
  intros Ho Hh Hsmall data.
  destruct (hash_record_fields owner hash more Ho Hh Hsmall)
    as (Hty & Hsls & Hhs & Hss & _ & Hlen).
  fold data in Hty, Hsls, Hhs, Hss, Hlen.
  unfold build_mok_list. rewrite loop_S. change (0 + 16) with 16. rewrite Hsls, Hlen.
  rewrite !bool_decide_true by lia. cbn [andb].
  assert (kept Cert Hash (heap_of data beyond) 0 = true) as ->.
  { unfold kept. change (0 + 24) with 24. rewrite Hty, Hss.
    assert (efi_guidcmp Hash Hash = 0) as -> by apply memcmp_refl.
    rewrite (bool_decide_false (0 ≠ 0)), (bool_decide_false (48 ≠ 48)) by lia.
    by rewrite !andb_false_r. }
  rewrite loop_S. rewrite (bool_decide_false (0 < _)) by lia. cbn [andb app].
  unfold node_at, new_node. change (0 + 20) with 20. change (0 + 24) with 24.
  rewrite Hhs, Hss. reflexivity.
Qed.

End FirstEntry.

(** X4: in a SHA-256 record that holds several entries only the first is
    ever compared: against a list made of one such record, [is_duplicate]
    answers 1 for the first entry's hash and 0 for every other key that
    is not empty, the hashes of the later entries included. *)
Theorem is_duplicate_first_entry_only (Cert Hash : efi_guid_t) (beyond : Z → Z)
    (fuel : nat) (db_name : string) (guid : efi_guid_t)
    (store : gmap (efi_guid_t * string) (list Z))
    (owner hash more cert : list Z) :
  length Hash = 16%nat → length owner = 16%nat → length hash = 32%nat →
  76 + Z.of_nat (length more) < 2 ^ 32 →
  store !! (guid, db_name) = Some (hash_record Hash owner hash more) →
  cert ≠ [] →
  is_duplicate Cert Hash beyond (S (S fuel)) cert (Z.of_nat (length cert)) db_name guid store
  = Some (if bool_decide (cert = hash) then 1 else 0).
Proof.
  intros HH Ho Hh Hsmall Hstore Hne.
  pose proof (hash_record_decoded Cert Hash beyond HH fuel owner hash more Ho Hh Hsmall)
    as Hrun. cbv zeta in Hrun.
  destruct (hash_record_fields Hash beyond HH owner hash more Ho Hh Hsmall)
    as (_ & _ & _ & _ & Hpay & _).
  pose proof (is_duplicate_payload Cert Hash beyond (S (S fuel)) cert db_name guid store
                _ _ Hne Hstore Hrun) as Hiff.
  case_bool_decide as Hc.
  - apply Hiff. eexists. split; [by constructor |]. subst cert.
    cbn [mok_size]. split; [lia |]. unfold payload. cbn [mok mok_size].
    exact Hpay.
  - pose proof (is_duplicate_range Cert Hash beyond (S (S fuel)) cert
                  (Z.of_nat (length cert)) db_name guid store) as Hrange.
    destruct (is_duplicate Cert Hash beyond (S (S fuel)) cert _ db_name guid store)
      as [v|] eqn:E.
    + destruct (Hrange v eq_refl) as [-> | ->]; [done |].
      destruct (proj1 Hiff eq_refl) as (n & Hin & _ & Hp).
      apply list_elem_of_singleton in Hin. subst n.
      unfold payload in Hp. cbn [mok mok_size] in Hp.
      change (Z.to_nat 32) with 32%nat in Hp. congruence.
    + unfold is_duplicate in E.
      rewrite bool_decide_false in E by (destruct cert; [done | simpl; lia]).
      rewrite Hstore in E. cbv zeta in E. by rewrite Hrun in E.
Qed.

Lemma is_duplicate_first_entry_only_witness :
  is_duplicate uefi_x509 uefi_sha256 zeroed 2 (replicate 32 7) 32 "db"
               uefi_image_security_database
               {[ (uefi_image_security_database, "db"%string) :=
                    hash_record uefi_sha256 SHIM_LOCK_GUID (replicate 32 5)
                                (SHIM_LOCK_GUID ++ replicate 32 7) ]}
  = Some 0.
Proof.
  apply (is_duplicate_first_entry_only uefi_x509 uefi_sha256 zeroed 0 "db"
           uefi_image_security_database _ SHIM_LOCK_GUID (replicate 32 5)
           (SHIM_LOCK_GUID ++ replicate 32 7) (replicate 32 7)).
  - reflexivity.
  - reflexivity.
  - reflexivity.
  - vm_compute. reflexivity.
  - vm_compute. reflexivity.
  - discriminate.
Defined.

(** ** The terminal *)

Lemma runs_bind_inv {A B} (m : IO A) (k : A → IO B) w b w2 :
  runs (m ≫= k) w b w2 → ∃ a w1, runs m w a w1 ∧ runs (k a) w1 b w2.
Proof.
  intros [o H]. unfold mbind, io_bind in H.
  destruct (m w) as [[a w1] o1] eqn:E1. destruct (k a w1) as [[b' w2'] o2] eqn:E2.
  injection H as -> -> _. exists a, w1. split; by eexists.
Qed.

Lemma runs_ret_inv {A} (a b : A) w w' : runs (mret a) w b w' → b = a ∧ w' = w.
Proof. intros [o H]. by injection H as <- <- _. Qed.

Lemma runs_say_inv s w u w' : runs (say s) w u w' → w' = w.
Proof. intros [o H]. by injection H as _ <- _. Qed.

Lemma c_str_nonzero l : Forall (λ x, x ≠ 0) (c_str l).
Proof.
  induction l as [|x l IH]; simpl; [constructor |].
  case_bool_decide; by constructor.
Qed.

Lemma memcmp_terminated a b :
  Forall (λ x, x ≠ 0) a → Forall (λ x, x ≠ 0) b →
  memcmp (a ++ [0]) (b ++ [0]) = 0 → a = b.
Proof.
  intros Ha. revert b. induction Ha as [|x a Hx _ IH]; intros b Hb; destruct Hb as [|y b Hy Hb];
    simpl; repeat case_bool_decide; try done; try lia.
  intros Hc. f_equal; [lia |]. by apply IH.
Qed.

Lemma strcmp_0 l r : strcmp l r = 0 ↔ c_str l = c_str r.
Proof.
  unfold strcmp. split.
  - apply memcmp_terminated; apply c_str_nonzero.
  - intros ->. apply memcmp_refl.
Qed.

Lemma c_str_whole l : 0 ∉ l → c_str l = l.
Proof.
  induction l as [|x l IH]; [done |]. intros Hnot. simpl.
  rewrite bool_decide_false by (intros ->; apply Hnot; by left).
  f_equal. apply IH. intros Hin. apply Hnot. by right.
Qed.

Lemma length_c_str l : (length (c_str l) ≤ length l)%nat.
Proof. induction l as [|x l IH]; simpl; [lia |]. case_bool_decide; simpl; lia. Qed.

Lemma c_str_of_length l : length (c_str l) = length l → c_str l = l.
Proof.
  induction l as [|x l IH]; [done |]. simpl. case_bool_decide; simpl; [lia |].
  intros [= Hl]. f_equal. by apply IH.
Qed.

(** Between lines without a NUL, the repetition is the password itself. *)
Lemma confirms_eq password line : 0 ∉ password → confirms password line → line = password.
Proof.
  intros Hnot [Hlen Hstr]. rewrite (c_str_whole password Hnot) in Hstr.
  rewrite <- Hstr. symmetry. apply c_str_of_length. by rewrite Hstr.
Qed.

Lemma confirms_refl password : confirms password password.
Proof. by split. Qed.

Lemma confirms_test password line :
  bool_decide (Z.of_nat (length password) ≠ Z.of_nat (length line))
  || bool_decide (strcmp password line ≠ 0) = false
  ↔ confirms password line.
Proof.
  rewrite orb_false_iff, !bool_decide_eq_false. unfold confirms. split.
  - intros [Hl Hs]. split; [lia |]. symmetry. apply strcmp_0.
    destruct (decide (strcmp password line = 0)); [done | by destruct Hs].
  - intros [Hl Hs]. split; [lia |]. intros Hne. apply Hne, strcmp_0. done.
Qed.

Section Terminal.

Variable stdin : nat → list Z.

Lemma runs_read_hidden_line w : 
  runs (read_hidden_line stdin) w
       (stdin (cursor w), Z.of_nat (length (stdin (cursor w))))
       (World (vars w) (edits w) (S (cursor w))).
Proof. by eexists. Qed.

Lemma runs_read_hidden_line_inv w r w' :
  runs (read_hidden_line stdin) w r w' →
  r = (stdin (cursor w), Z.of_nat (length (stdin (cursor w))))
  ∧ w' = World (vars w) (edits w) (S (cursor w)).
Proof. intros [o H]. by injection H as <- <- _. Qed.

Lemma get_password_first_some tries min max w pw len w' :
  runs (get_password_first stdin tries min max) w (Some (pw, len)) w' →
  len = Z.of_nat (length pw) ∧ min ≤ len ≤ max
  ∧ (cursor w < cursor w' ≤ cursor w + tries)%nat
  ∧ stdin (cursor w' - 1) = pw ∧ vars w' = vars w ∧ edits w' = edits w.
Proof.
  revert w. induction tries as [|t IH]; intros w H.
  - by apply runs_ret_inv in H as [[=] _].
  - cbn [get_password_first] in H.
    apply runs_bind_inv in H as (? & w1 & H1 & H). apply runs_say_inv in H1 as ->.
    apply runs_bind_inv in H as ([line n] & w2 & H2 & H).
    apply runs_read_hidden_line_inv in H2 as [[= -> ->] ->].
    apply runs_bind_inv in H as (? & w3 & H3 & H). apply runs_say_inv in H3 as ->.
    cbv beta iota in H.
    destruct (bool_decide (_ > max) || bool_decide (_ < min)) eqn:E.
    + apply runs_bind_inv in H as (? & w4 & H4 & H). apply runs_say_inv in H4 as ->.
      apply IH in H as (-> & Hr & Hc & Hl & Hv & He). cbn [cursor vars edits] in *.
      refine (conj _ (conj _ (conj _ (conj _ (conj _ _))))); try done; lia.
    + apply runs_ret_inv in H as [[= -> ->] ->]. cbn [cursor vars edits].
      apply orb_false_iff in E as [E1%bool_decide_eq_false E2%bool_decide_eq_false].
      rewrite Nat.sub_succ, Nat.sub_0_r.
      refine (conj _ (conj _ (conj _ (conj _ (conj _ _))))); try done; lia.
Qed.

Lemma get_password_again_true tries pw w w' :
  runs (get_password_again stdin tries pw (Z.of_nat (length pw))) w true w' →
  (cursor w < cursor w' ≤ cursor w + tries)%nat
  ∧ confirms pw (stdin (cursor w' - 1)) ∧ vars w' = vars w ∧ edits w' = edits w.
Proof.
  revert w. induction tries as [|t IH]; intros w H.
  - by apply runs_ret_inv in H as [[=] _].
  - cbn [get_password_again] in H.
    apply runs_bind_inv in H as (? & w1 & H1 & H). apply runs_say_inv in H1 as ->.
    apply runs_bind_inv in H as ([line n] & w2 & H2 & H).
    apply runs_read_hidden_line_inv in H2 as [[= -> ->] ->].
    apply runs_bind_inv in H as (? & w3 & H3 & H). apply runs_say_inv in H3 as ->.
    cbv beta iota in H.
    destruct (bool_decide (_ ≠ _) || bool_decide (_ ≠ 0)) eqn:E.
    + apply runs_bind_inv in H as (? & w4 & H4 & H). apply runs_say_inv in H4 as ->.
      apply IH in H as (Hc & Hl & Hv & He). cbn [cursor vars edits] in *.
      refine (conj _ (conj _ (conj _ _))); try done; lia.
    + apply runs_ret_inv in H as [_ ->]. cbn [cursor vars edits].
      apply confirms_test in E.
      rewrite Nat.sub_succ, Nat.sub_0_r.
      refine (conj _ (conj _ (conj _ _))); try done; lia.
Qed.

Lemma get_password_some min max w pw len w' :
  runs (get_password stdin min max) w (Some (pw, len)) w' →
  len = Z.of_nat (length pw) ∧ min ≤ len ≤ max
  ∧ (∃ i, (cursor w ≤ i < cursor w + 3)%nat ∧ (i < cursor w' - 1)%nat ∧ stdin i = pw)
  ∧ confirms pw (stdin (cursor w' - 1))
  ∧ (cursor w' ≤ cursor w + 6)%nat
  ∧ vars w' = vars w ∧ edits w' = edits w.
Proof.
  intros H. unfold get_password in H.
  apply runs_bind_inv in H as ([[p1 l1]|] & w1 & H1 & H);
    [| by apply runs_ret_inv in H as [[=] _]].
  apply get_password_first_some in H1 as (-> & Hr & Hc & Hl & Hv & He).
  apply runs_bind_inv in H as ([] & w2 & H2 & H);
    [| by apply runs_ret_inv in H as [[=] _]].
  apply runs_ret_inv in H as [[= -> ->] ->].
  apply get_password_again_true in H2 as (Hc2 & Hl2 & Hv2 & He2).
  refine (conj _ (conj _ (conj _ (conj _ (conj _ (conj _ _)))))); try done;
    try congruence; try lia.
  exists (cursor w1 - 1)%nat. split; [lia |]. split; [lia | done].
Qed.

(** A line that [get_password] turns down in its first loop. *)
Lemma get_password_first_none tries min max w :
  (∀ i, (i < tries)%nat →
        let n := Z.of_nat (length (stdin (cursor w + i)%nat)) in n > max ∨ n < min) →
  runs (get_password_first stdin tries min max) w None
       (World (vars w) (edits w) (cursor w + tries)).
Proof.
  revert w. induction tries as [|t IH]; intros w Hbad.
  - rewrite Nat.add_0_r. destruct w. apply runs_ret.
  - cbn [get_password_first].
    eapply runs_bind; [apply runs_say |].
    eapply runs_bind; [apply runs_read_hidden_line |].
    eapply runs_bind; [apply runs_say |]. cbv beta iota.
    pose proof (Hbad 0%nat ltac:(lia)) as H0. rewrite Nat.add_0_r in H0. cbv zeta in H0.
    assert (bool_decide (Z.of_nat (length (stdin (cursor w))) > max)
            || bool_decide (Z.of_nat (length (stdin (cursor w))) < min) = true) as ->.
    { apply orb_true_iff. destruct H0; [left | right]; by apply bool_decide_eq_true. }
    eapply runs_bind; [apply runs_say |].
    replace (cursor w + S t)%nat with (S (cursor w) + t)%nat by lia.
    apply (IH (World (vars w) (edits w) (S (cursor w)))). intros i Hi. cbn [cursor].
    replace (S (cursor w) + i)%nat with (cursor w + S i)%nat by lia.
    apply Hbad. lia.
Qed.

Lemma get_password_again_false tries pw w :
  (∀ i, (i < tries)%nat → ¬ confirms pw (stdin (cursor w + i)%nat)) →
  runs (get_password_again stdin tries pw (Z.of_nat (length pw))) w false
       (World (vars w) (edits w) (cursor w + tries)).
Proof.
  revert w. induction tries as [|t IH]; intros w Hbad.
  - rewrite Nat.add_0_r. destruct w. apply runs_ret.
  - cbn [get_password_again].
    eapply runs_bind; [apply runs_say |].
    eapply runs_bind; [apply runs_read_hidden_line |].
    eapply runs_bind; [apply runs_say |]. cbv beta iota.
    pose proof (Hbad 0%nat ltac:(lia)) as H0. rewrite Nat.add_0_r in H0.
    assert (bool_decide (Z.of_nat (length pw) ≠ Z.of_nat (length (stdin (cursor w))))
            || bool_decide (strcmp pw (stdin (cursor w)) ≠ 0) = true) as ->.
    { apply not_false_iff_true. by rewrite confirms_test. }
    eapply runs_bind; [apply runs_say |].
    replace (cursor w + S t)%nat with (S (cursor w) + t)%nat by lia.
    apply (IH (World (vars w) (edits w) (S (cursor w)))). intros i Hi. cbn [cursor].
    replace (S (cursor w) + i)%nat with (cursor w + S i)%nat by lia.
    apply Hbad. lia.
Qed.

Lemma get_password_first_skips tries k min max w :
  (k < tries)%nat →
  (∀ i, (i < k)%nat →
        let n := Z.of_nat (length (stdin (cursor w + i)%nat)) in n > max ∨ n < min) →
  min ≤ Z.of_nat (length (stdin (cursor w + k)%nat)) ≤ max →
  runs (get_password_first stdin tries min max) w
       (Some (stdin (cursor w + k)%nat, Z.of_nat (length (stdin (cursor w + k)%nat))))
       (World (vars w) (edits w) (cursor w + k + 1)).
Proof.
  revert w k. induction tries as [|t IH]; intros w k Hk Hbad Hgood; [lia |].
  cbn [get_password_first].
  eapply runs_bind; [apply runs_say |].
  eapply runs_bind; [apply runs_read_hidden_line |].
  eapply runs_bind; [apply runs_say |]. cbv beta iota.
  destruct k as [|k].
  - rewrite Nat.add_0_r in *. rewrite !bool_decide_false by lia. cbn [orb].
    replace (cursor w + 1)%nat with (S (cursor w)) by lia. apply runs_ret.
  - pose proof (Hbad 0%nat ltac:(lia)) as H0. rewrite Nat.add_0_r in H0. cbv zeta in H0.
    assert (bool_decide (Z.of_nat (length (stdin (cursor w))) > max)
            || bool_decide (Z.of_nat (length (stdin (cursor w))) < min) = true) as ->.
    { apply orb_true_iff. destruct H0; [left | right]; by apply bool_decide_eq_true. }
    eapply runs_bind; [apply runs_say |].
    replace (cursor w + S k)%nat with (S (cursor w) + k)%nat in * by lia.
    apply (IH (World (vars w) (edits w) (S (cursor w))) k); [lia | | done].
    intros i Hi. cbn [cursor].
    replace (S (cursor w) + i)%nat with (cursor w + S i)%nat by lia.
    apply Hbad. lia.
Qed.

Lemma get_password_again_skips tries k pw w :
  (k < tries)%nat →
  (∀ i, (i < k)%nat → ¬ confirms pw (stdin (cursor w + i)%nat)) →
  confirms pw (stdin (cursor w + k)%nat) →
  runs (get_password_again stdin tries pw (Z.of_nat (length pw))) w true
       (World (vars w) (edits w) (cursor w + k + 1)).
Proof.
  revert w k. induction tries as [|t IH]; intros w k Hk Hbad Hgood; [lia |].
  cbn [get_password_again].
  eapply runs_bind; [apply runs_say |].
  eapply runs_bind; [apply runs_read_hidden_line |].
  eapply runs_bind; [apply runs_say |]. cbv beta iota.
  destruct k as [|k].
  - rewrite Nat.add_0_r in *. apply confirms_test in Hgood. rewrite Hgood.
    replace (cursor w + 1)%nat with (S (cursor w)) by lia. apply runs_ret.
  - pose proof (Hbad 0%nat ltac:(lia)) as H0. rewrite Nat.add_0_r in H0.
    assert (bool_decide (Z.of_nat (length pw) ≠ Z.of_nat (length (stdin (cursor w))))
            || bool_decide (strcmp pw (stdin (cursor w)) ≠ 0) = true) as ->.
    { apply not_false_iff_true. by rewrite confirms_test. }
    eapply runs_bind; [apply runs_say |].
    replace (cursor w + S k)%nat with (S (cursor w) + k)%nat in * by lia.
    apply (IH (World (vars w) (edits w) (S (cursor w))) k); [lia | | done].
    intros i Hi. cbn [cursor].
    replace (S (cursor w) + i)%nat with (cursor w + S i)%nat by lia.
    apply Hbad. lia.
Qed.

End Terminal.

(** X5: a password that [get_password] hands back was typed and then
    repeated: it is one of the first three lines read, and the last line
    read has its length and holds the same C string, so that it is the
    same line when the password holds no NUL.  Its length is the reported
    one and lies within the bounds, at most six lines were read, and no
    variable was touched. *)
Theorem get_password_twice_typed (stdin : nat → list Z) (min max : Z) (w w' : world)
    (pw : list Z) (len : Z) (out : list string) :
  get_password stdin min max w = (Some (pw, len), w', out) →
  len = Z.of_nat (length pw) ∧ min ≤ len ≤ max
  ∧ (∃ i, (cursor w ≤ i < cursor w + 3)%nat ∧ (i < cursor w' - 1)%nat ∧ stdin i = pw)
  ∧ length (stdin (cursor w' - 1)%nat) = length pw
  ∧ c_str (stdin (cursor w' - 1)%nat) = c_str pw
  ∧ (0 ∉ pw → stdin (cursor w' - 1)%nat = pw)
  ∧ (cursor w' ≤ cursor w + 6)%nat
  ∧ vars w' = vars w ∧ edits w' = edits w.
Proof.
  intros H.
  destruct (get_password_some stdin min max w pw len w') as (Hl & Hr & Hi & Hc & Hn & Hv & He);
    [by exists out |].
  refine (conj Hl (conj Hr (conj Hi (conj _ (conj _ (conj _ (conj Hn (conj Hv He)))))))).
  - apply Hc.
  - apply Hc.
  - intros Hnot. by apply confirms_eq.
Qed.

Lemma get_password_twice_typed_witness :
  6 = Z.of_nat (length nul_secret) ∧ 6 ≤ 6 ≤ 16
  ∧ (∃ i, (0 ≤ i < 0 + 3)%nat ∧ (i < 2 - 1)%nat ∧ types_nul i = nul_secret)
  ∧ length (types_nul (2 - 1)%nat) = length nul_secret
  ∧ c_str (types_nul (2 - 1)%nat) = c_str nul_secret
  ∧ (0 ∉ nul_secret → types_nul (2 - 1)%nat = nul_secret)
  ∧ (2 ≤ 0 + 6)%nat
  ∧ vars (World ∅ [] 2) = vars (World ∅ [] 0) ∧ edits (World ∅ [] 2) = edits (World ∅ [] 0).
Proof.
  apply (get_password_twice_typed types_nul 6 16 (World ∅ [] 0) (World ∅ [] 2) nul_secret 6
           (get_password types_nul 6 16 (World ∅ [] 0)).2).
  vm_compute. reflexivity.
Defined.

(** X6: [get_password] hands back the first line of acceptable length,
    provided it comes within three lines and one of the three lines after
    it repeats it (same length, same C string); it stops reading at the
    first line that does. *)
Theorem get_password_accepts (stdin : nat → list Z) (min max : Z) (w : world)
    (k j : nat) :
  (k < 3)%nat → (j < 3)%nat →
  (∀ i, (i < k)%nat →
        let n := Z.of_nat (length (stdin (cursor w + i)%nat)) in n > max ∨ n < min) →
  min ≤ Z.of_nat (length (stdin (cursor w + k)%nat)) ≤ max →
  (∀ i, (i < j)%nat →
        ¬ confirms (stdin (cursor w + k)%nat) (stdin (cursor w + k + 1 + i)%nat)) →
  confirms (stdin (cursor w + k)%nat) (stdin (cursor w + k + 1 + j)%nat) →
  ∃ out,
    get_password stdin min max w
    = (Some (stdin (cursor w + k)%nat, Z.of_nat (length (stdin (cursor w + k)%nat))),
       World (vars w) (edits w) (cursor w + k + j + 2), out).
Proof.
  intros Hk Hj Hbad Hgood Hdiff Hsame.
  change (runs (get_password stdin min max) w
            (Some (stdin (cursor w + k)%nat, Z.of_nat (length (stdin (cursor w + k)%nat))))
            (World (vars w) (edits w) (cursor w + k + j + 2))).
  unfold get_password.
  eapply runs_bind; [by apply (get_password_first_skips stdin 3 k) |]. cbv beta iota.
  eapply runs_bind.
  { by apply (get_password_again_skips stdin 3 j). }
  cbn [vars edits cursor].
  replace (cursor w + k + 1 + j + 1)%nat with (cursor w + k + j + 2)%nat by lia.
  apply runs_ret.
Qed.

Lemma get_password_accepts_witness :
  ∃ out, get_password fumbles 8 16 (World ∅ [] 0)
         = (Some (secret123, 9), World ∅ [] 4, out).
Proof.
  apply (get_password_accepts fumbles 8 16 (World ∅ [] 0) 1 1).
  - lia.
  - lia.
  - intros i Hi. assert (i = 0%nat) as -> by lia. vm_compute. right. reflexivity.
  - vm_compute. split; discriminate.
  - intros i Hi. assert (i = 0%nat) as -> by lia. intros [_ Hs]. vm_compute in Hs.
    discriminate.
  - split; reflexivity.
Defined.

(** X7: after three lines in a row whose length is out of bounds
    [get_password] gives up: it answers -1 having read exactly those three
    lines, so it never asks for the password again. *)
Theorem get_password_refuses_lengths (stdin : nat → list Z) (min max : Z) (w : world) :
  (∀ i, (i < 3)%nat →
        let n := Z.of_nat (length (stdin (cursor w + i)%nat)) in n > max ∨ n < min) →
  ∃ out,
    get_password stdin min max w = (None, World (vars w) (edits w) (cursor w + 3), out).
Proof.
  intros Hbad.
  change (runs (get_password stdin min max) w None
            (World (vars w) (edits w) (cursor w + 3))).
  unfold get_password.
  eapply runs_bind; [by apply get_password_first_none |]. apply runs_ret.
Qed.

Lemma get_password_refuses_lengths_witness :
  ∃ out, get_password types_123 8 16 (World ∅ [] 0) = (None, World ∅ [] 3, out).
Proof.
  apply (get_password_refuses_lengths types_123 8 16 (World ∅ [] 0)).
  intros i _. vm_compute. right. reflexivity.
Defined.

(** X8: when none of the three lines after the line that [get_password]
    has accepted repeats it (same length, same C string), it gives up and
    answers -1, whatever was typed before that line. *)
Theorem get_password_refuses_mismatch (stdin : nat → list Z) (min max : Z) (w : world)
    (k : nat) :
  (k < 3)%nat →
  (∀ i, (i < k)%nat →
        let n := Z.of_nat (length (stdin (cursor w + i)%nat)) in n > max ∨ n < min) →
  min ≤ Z.of_nat (length (stdin (cursor w + k)%nat)) ≤ max →
  (∀ i, (i < 3)%nat →
        ¬ confirms (stdin (cursor w + k)%nat) (stdin (cursor w + k + 1 + i)%nat)) →
  ∃ out,
    get_password stdin min max w
    = (None, World (vars w) (edits w) (cursor w + k + 4), out).
Proof.
  intros Hk Hbad Hgood Hdiff.
  change (runs (get_password stdin min max) w None
            (World (vars w) (edits w) (cursor w + k + 4))).
  unfold get_password.
  eapply runs_bind; [by apply (get_password_first_skips stdin 3 k) |]. cbv beta iota.
  eapply runs_bind.
  { by apply (get_password_again_false stdin 3). }
  cbn [vars edits cursor].
  replace (cursor w + k + 1 + 3)%nat with (cursor w + k + 4)%nat by lia.
  apply runs_ret.
Qed.

Lemma get_password_refuses_mismatch_witness :
  ∃ out,
    get_password (λ i, if decide (i = 0%nat) then secret123 else wrongpass) 8 16
                 (World ∅ [] 0)
    = (None, World ∅ [] 4, out).
Proof.
  apply (get_password_refuses_mismatch
           (λ i, if decide (i = 0%nat) then secret123 else wrongpass) 8 16
           (World ∅ [] 0) 0).
  - lia.
  - intros i Hi. lia.
  - vm_compute. split; discriminate.
  - intros i _ [_ Hs]. vm_compute in Hs. discriminate.
Defined.

(** ** The store *)

Lemma runs_det {A} (m : IO A) w a w1 b w2 :
  runs m w a w1 → runs m w b w2 → a = b ∧ w1 = w2.
Proof. intros [o1 H1] [o2 H2]. rewrite H1 in H2. by injection H2 as -> -> _. Qed.

Lemma runs_edit_variable_inv guid name data w b w' :
  runs (edit_variable guid name data) w b w' →
  cursor w' = cursor w
  ∧ if b then vars w' = <[(guid, name) := data]> (vars w) ∧ edits w' = tail (edits w)
    else vars w' = vars w ∧ edits w = false :: edits w'.
Proof.
  intros [o H]. unfold edit_variable in H.
  destruct (edits w) as [|[|] rest] eqn:E; injection H as <- <- _; cbn; by rewrite ?E.
Qed.

Lemma runs_test_and_delete_var var_name w :
  runs (test_and_delete_var var_name) w 0
       (World (delete (SHIM_LOCK_GUID, var_name) (vars w)) (edits w) (cursor w)).
Proof.
  destruct (vars w !! (SHIM_LOCK_GUID, var_name)) as [d|] eqn:E.
  - by eapply test_and_delete_var_present.
  - eexists. unfold test_and_delete_var, mbind, io_bind, test_variable.
    rewrite E, bool_decide_false by (by intros [? ?]).
    rewrite delete_id by done. by destruct w.
Qed.

Lemma runs_test_and_delete_var_inv var_name w r w' :
  runs (test_and_delete_var var_name) w r w' →
  r = 0 ∧ w' = World (delete (SHIM_LOCK_GUID, var_name) (vars w)) (edits w) (cursor w).
Proof. intros H. eapply runs_det; [exact H | apply runs_test_and_delete_var]. Qed.

Lemma req_name_not_auth_name import import' :
  (SHIM_LOCK_GUID, auth_name import) ≠ (SHIM_LOCK_GUID, req_name import').
Proof. destruct import, import'; intros [=]. Qed.

Section Store.

Variable SHA256 : list Z → list Z.
Variable beyond : Z → Z.
Variable stdin : nat → list Z.

Lemma update_request_some_inv l list_len import w r w' :
  runs (update_request SHA256 beyond stdin (Some l) list_len import) w r w' →
  (r = -1 ∧ vars w' = vars w)
  ∨ ∃ password pw_len wp,
      runs (get_password stdin PASSWORD_MIN PASSWORD_MAX) w (Some (password, pw_len)) wp
      ∧ cursor w' = cursor wp
      ∧ ((r = -1 ∧ vars w' = delete (SHIM_LOCK_GUID, req_name import) (vars w))
         ∨ (r = 0
            ∧ vars w' = <[(SHIM_LOCK_GUID, auth_name import) :=
                            stored_tag SHA256 beyond (Some l) list_len password pw_len]>
                          (<[(SHIM_LOCK_GUID, req_name import) := bytes_at beyond l list_len]>
                           (vars w)))).
Proof.
  intros H. unfold update_request in H.
  apply runs_bind_inv in H as ([[password pw_len]|] & wp & Hpw & H).
  2:{ left. apply runs_bind_inv in H as (? & w1 & H1 & H).
      apply runs_say_inv in H1 as ->. apply runs_ret_inv in H as [-> ->].
      split; [done |]. destruct (preserves_get_password stdin PASSWORD_MIN PASSWORD_MAX w)
        as [Hv _]. destruct Hpw as [o Hpw]. by rewrite Hpw in Hv. }
  assert (vars wp = vars w) as Hv.
  { destruct (preserves_get_password stdin PASSWORD_MIN PASSWORD_MAX w) as [Hv _].
    destruct Hpw as [o Hpw']. by rewrite Hpw' in Hv. }
  cbv beta iota zeta in H.
  apply runs_bind_inv in H as (wrote & w1 & H1 & H).
  apply runs_bind_inv in H1 as (ok & w2 & H2 & H1).
  apply runs_edit_variable_inv in H2 as [Hc2 H2].
  destruct ok.
  - apply runs_ret_inv in H1 as [-> ->]. destruct H2 as [Hv2 He2]. cbn [negb] in H.
    apply runs_bind_inv in H as (ok & w3 & H3 & H).
    apply runs_edit_variable_inv in H3 as [Hc3 H3].
    right. exists password, pw_len, wp. split; [done |].
    destruct ok.
    + apply runs_ret_inv in H as [-> ->]. destruct H3 as [Hv3 He3].
      split; [congruence |]. right. split; [done |].
      rewrite Hv3, Hv2, Hv. reflexivity.
    + apply runs_bind_inv in H as (? & w4 & H4 & H). apply runs_say_inv in H4 as ->.
      apply runs_bind_inv in H as (? & w5 & H5 & H).
      apply runs_test_and_delete_var_inv in H5 as [_ ->].
      apply runs_ret_inv in H as [-> ->]. destruct H3 as [Hv3 He3]. cbn [cursor vars].
      split; [congruence |]. left. split; [done |].
      by rewrite Hv3, Hv2, Hv, delete_insert_eq.
  - apply runs_bind_inv in H1 as (? & w3 & H3 & H1). apply runs_say_inv in H3 as ->.
    apply runs_ret_inv in H1 as [-> ->]. cbn [negb] in H.
    apply runs_ret_inv in H as [-> ->]. destruct H2 as [Hv2 _].
    left. split; [done | congruence].
Qed.

Lemma update_request_none_inv list_len import w r w' :
  runs (update_request SHA256 beyond stdin None list_len import) w r w' →
  (r = -1 ∧ vars w' = vars w ∧ edits w' = edits w)
  ∨ ∃ password pw_len wp,
      runs (get_password stdin PASSWORD_MIN PASSWORD_MAX) w (Some (password, pw_len)) wp
      ∧ cursor w' = cursor wp
      ∧ ((r = -1 ∧ vars w' = delete (SHIM_LOCK_GUID, req_name import) (vars w)
          ∧ edits w = false :: edits w')
         ∨ (r = 0
            ∧ vars w' = <[(SHIM_LOCK_GUID, auth_name import) :=
                            stored_tag SHA256 beyond None list_len password pw_len]>
                          (delete (SHIM_LOCK_GUID, req_name import) (vars w)))).
Proof.
  intros H. unfold update_request in H.
  apply runs_bind_inv in H as ([[password pw_len]|] & wp & Hpw & H).
  2:{ left. apply runs_bind_inv in H as (? & w1 & H1 & H).
      apply runs_say_inv in H1 as ->. apply runs_ret_inv in H as [-> ->].
      split; [done |]. destruct (preserves_get_password stdin PASSWORD_MIN PASSWORD_MAX w)
        as [Hv He]. destruct Hpw as [o Hpw]. by rewrite Hpw in Hv, He. }
  assert (vars wp = vars w ∧ edits wp = edits w) as [Hv He].
  { destruct (preserves_get_password stdin PASSWORD_MIN PASSWORD_MAX w) as [Hv He].
    destruct Hpw as [o Hpw']. by rewrite Hpw' in Hv, He. }
  cbv beta iota zeta in H.
  apply runs_bind_inv in H as (wrote & w1 & H1 & H).
  apply runs_bind_inv in H1 as (? & w2 & H2 & H1).
  apply runs_test_and_delete_var_inv in H2 as [_ ->].
  apply runs_ret_inv in H1 as [-> ->]. cbn [negb] in H.
  apply runs_bind_inv in H as (ok & w3 & H3 & H).
  apply runs_edit_variable_inv in H3 as [Hc3 H3]. cbn [cursor vars edits] in *.
  right. exists password, pw_len, wp. split; [done |].
  destruct ok.
  - apply runs_ret_inv in H as [-> ->]. destruct H3 as [Hv3 He3].
    split; [done |]. right. split; [done |]. rewrite Hv3, Hv. reflexivity.
  - apply runs_bind_inv in H as (? & w4 & H4 & H). apply runs_say_inv in H4 as ->.
    apply runs_bind_inv in H as (? & w5 & H5 & H).
    apply runs_test_and_delete_var_inv in H5 as [_ ->].
    apply runs_ret_inv in H as [-> ->]. destruct H3 as [Hv3 He3]. cbn [cursor vars edits].
    split; [done |]. left. split; [done |].
    rewrite Hv3, Hv. rewrite delete_delete_eq. split; [done | congruence].
Qed.

End Store.

(** ** The challenge *)

Section Challenge.

Variable SHA256 : list Z → list Z.
Variable beyond : Z → Z.
Variable stdin : nat → list Z.

Lemma failed_attempt_dec old_req tag password :
  failed_attempt SHA256 beyond old_req tag password
  ∨ ¬ failed_attempt SHA256 beyond old_req tag password.
Proof.
  unfold failed_attempt. cbv zeta.
  set (c := memcmp _ _).
  destruct (decide (Z.of_nat (length password) > PASSWORD_MAX)); [by left; left |].
  destruct (decide (Z.of_nat (length password) < PASSWORD_MIN)); [by left; right; left |].
  destruct (decide (c = 0)); [right; tauto | by left; right; right].
Qed.

Lemma wrong_length_failed old_req tag password :
  wrong_length password → failed_attempt SHA256 beyond old_req tag password.
Proof. unfold wrong_length, failed_attempt. tauto. Qed.

Lemma wrong_length_dec password : wrong_length password ∨ ¬ wrong_length password.
Proof.
  unfold wrong_length.
  destruct (decide (Z.of_nat (length password) > PASSWORD_MAX)); [by left; left |].
  destruct (decide (Z.of_nat (length password) < PASSWORD_MIN)); [by left; right |].
  right. tauto.
Qed.

Lemma verify_old_req_loop_accepts tries k old_req tag w :
  (k < tries)%nat →
  (∀ i, (i < k)%nat →
        failed_attempt SHA256 beyond old_req tag (stdin (cursor w + i)%nat)
        ∧ ¬ wrong_length (stdin (cursor w + i)%nat)) →
  ¬ failed_attempt SHA256 beyond old_req tag (stdin (cursor w + k)%nat) →
  runs (verify_old_req_loop SHA256 beyond stdin tries false old_req
          (Z.of_nat (length old_req)) tag) w (Answered 1)
       (World (vars w) (edits w) (cursor w + k + 1)).
Proof.
  revert w k. induction tries as [|t IH]; intros w k Hk Hbad Hgood; [lia |].
  cbn [verify_old_req_loop].
  eapply runs_bind; [apply runs_say |].
  eapply runs_bind; [by eexists |].
  eapply runs_bind; [apply runs_say |]. cbv beta iota.
  destruct k as [|k].
  - rewrite Nat.add_0_r in *. unfold failed_attempt in Hgood. cbv zeta in Hgood.
    rewrite !bool_decide_false by tauto. cbn [orb].
    rewrite bool_decide_true.
    + replace (cursor w + 1)%nat with (S (cursor w)) by lia. apply runs_ret.
    + set (c := memcmp _ _) in *. destruct (decide (c = 0)); tauto.
  - destruct (Hbad 0%nat ltac:(lia)) as [H0 Hl0]. rewrite Nat.add_0_r in H0, Hl0.
    unfold failed_attempt in H0. unfold wrong_length in Hl0. cbv zeta in H0.
    rewrite !bool_decide_false by tauto. cbn [orb].
    replace (cursor w + S k + 1)%nat with (S (cursor w) + k + 1)%nat by lia.
    apply (IH (World (vars w) (edits w) (S (cursor w))) k); [lia | |]; cbn [cursor].
    + intros i Hi. replace (S (cursor w) + i)%nat with (cursor w + S i)%nat by lia.
      apply Hbad. lia.
    + by replace (S (cursor w) + k)%nat with (cursor w + S k)%nat by lia.
Qed.

(** How the next [tries] lines settle the challenge: one of them is the
    first not to be turned down; or one that is not the last has a wrong
    length, before any is accepted; or all are turned down. *)
Lemma verify_old_req_loop_outcome tries old_req tag w :
  (∃ k, (k < tries)%nat
        ∧ (∀ i, (i < k)%nat →
                failed_attempt SHA256 beyond old_req tag (stdin (cursor w + i)%nat)
                ∧ ¬ wrong_length (stdin (cursor w + i)%nat))
        ∧ ¬ failed_attempt SHA256 beyond old_req tag (stdin (cursor w + k)%nat))
  ∨ (∃ k, (S k < tries)%nat
          ∧ (∀ i, (i < k)%nat →
                  failed_attempt SHA256 beyond old_req tag (stdin (cursor w + i)%nat)
                  ∧ ¬ wrong_length (stdin (cursor w + i)%nat))
          ∧ wrong_length (stdin (cursor w + k)%nat))
  ∨ ((∀ i, (i < tries)%nat →
            failed_attempt SHA256 beyond old_req tag (stdin (cursor w + i)%nat))
     ∧ (∀ i, (S i < tries)%nat → ¬ wrong_length (stdin (cursor w + i)%nat))).
Proof.
  revert w. induction tries as [|t IH]; intros w.
  { right. right. split; intros i Hi; exfalso; clear -Hi; lia. }
  destruct (failed_attempt_dec old_req tag (stdin (cursor w))) as [Hf|Hok].
  2:{ left. exists 0%nat. split; [lia |]. split; [intros i Hi; exfalso; clear -Hi; lia |].
      rewrite Nat.add_0_r. exact Hok. }
  destruct (wrong_length_dec (stdin (cursor w))) as [Hwl|Hwl].
  { destruct t as [|t].
    - right. right. split.
      + intros i Hi. assert (i = 0%nat) as -> by (clear -Hi; lia).
        rewrite Nat.add_0_r. exact Hf.
      + intros i Hi. exfalso. clear -Hi. lia.
    - right. left. exists 0%nat. split; [lia |].
      split; [intros i Hi; exfalso; clear -Hi; lia |].
      rewrite Nat.add_0_r. exact Hwl. }
  destruct (IH (World (vars w) (edits w) (S (cursor w))))
    as [(k & Hk & Hbad & Hgood)|[(k & Hk & Hbad & Hlen)|[Hall Hlens]]]; cbn [cursor] in *.
  - left. exists (S k). split; [clear -Hk; lia |]. split.
    + intros [|i] Hi; [rewrite Nat.add_0_r; exact (conj Hf Hwl) |].
      replace (cursor w + S i)%nat with (S (cursor w) + i)%nat by (clear; lia).
      apply Hbad. clear -Hi. lia.
    + replace (cursor w + S k)%nat with (S (cursor w) + k)%nat by (clear; lia).
      exact Hgood.
  - right. left. exists (S k). split; [clear -Hk; lia |]. split.
    + intros [|i] Hi; [rewrite Nat.add_0_r; exact (conj Hf Hwl) |].
      replace (cursor w + S i)%nat with (S (cursor w) + i)%nat by (clear; lia).
      apply Hbad. clear -Hi. lia.
    + replace (cursor w + S k)%nat with (S (cursor w) + k)%nat by (clear; lia).
      exact Hlen.
  - right. right. split.
    + intros [|i] Hi; [rewrite Nat.add_0_r; exact Hf |].
      replace (cursor w + S i)%nat with (S (cursor w) + i)%nat by (clear; lia).
      apply Hall. clear -Hi. lia.
    + intros [|i] Hi; [rewrite Nat.add_0_r; exact Hwl |].
      replace (cursor w + S i)%nat with (S (cursor w) + i)%nat by (clear; lia).
      apply Hlens. clear -Hi. lia.
Qed.

Lemma stored_tag_idem new_list list_len password pw_len :
  bytes_at beyond (stored_tag SHA256 beyond new_list list_len password pw_len)
           SHA256_DIGEST_LENGTH
  = stored_tag SHA256 beyond new_list list_len password pw_len.
Proof.
  set (t := stored_tag _ _ _ _ _ _).
  assert (Z.of_nat (length t) = SHA256_DIGEST_LENGTH) as <-
    by (subst t; unfold stored_tag, bytes_at; by rewrite length_peek).
  apply bytes_at_all.
Qed.

End Challenge.

(** X9: with a stored tag, [verify_old_req] is settled by the next three
    lines, and changes no variable.  It answers 1 right after the first
    line that has an acceptable length and the stored tag, when the lines
    before it had an acceptable length; it answers 0 after three lines
    that are all turned down, of which only the last may have a wrong
    length; and a line of the wrong length that is the first or the second
    attempt makes the next round read into the freed line buffer. *)
Theorem verify_old_req_characterised (SHA256 : list Z → list Z) (beyond : Z → Z)
    (stdin : nat → list Z) (old_req tag : list Z) (import : bool) (w w' : world)
    (c : challenge) (out : list string) :
  vars w !! (SHIM_LOCK_GUID, auth_name import) = Some tag →
  verify_old_req SHA256 beyond stdin old_req (Z.of_nat (length old_req)) import w
  = (c, w', out) →
  vars w' = vars w ∧ edits w' = edits w
  ∧ ((c = Answered 1
      ∧ ∃ k, (k < 3)%nat ∧ cursor w' = (cursor w + k + 1)%nat
             ∧ (∀ i, (i < k)%nat →
                     failed_attempt SHA256 beyond old_req tag (stdin (cursor w + i)%nat)
                     ∧ ¬ wrong_length (stdin (cursor w + i)%nat))
             ∧ ¬ failed_attempt SHA256 beyond old_req tag (stdin (cursor w + k)%nat))
     ∨ (c = Answered 0 ∧ cursor w' = (cursor w + 3)%nat
        ∧ (∀ i, (i < 3)%nat →
                failed_attempt SHA256 beyond old_req tag (stdin (cursor w + i)%nat))
        ∧ (∀ i, (i < 2)%nat → ¬ wrong_length (stdin (cursor w + i)%nat)))
     ∨ (c = UseAfterFree
        ∧ ∃ k, (k < 2)%nat ∧ cursor w' = (cursor w + k + 1)%nat
               ∧ (∀ i, (i < k)%nat →
                       failed_attempt SHA256 beyond old_req tag (stdin (cursor w + i)%nat)
                       ∧ ¬ wrong_length (stdin (cursor w + i)%nat))
               ∧ wrong_length (stdin (cursor w + k)%nat))).
Proof.
  intros Htag Hrun.
  assert (runs (verify_old_req_loop SHA256 beyond stdin 3 false old_req
                  (Z.of_nat (length old_req)) tag) w c w') as Hloop.
  { exists out. revert Hrun. unfold verify_old_req, mbind, io_bind, read_variable.
    rewrite Htag. by destruct (verify_old_req_loop _ _ _ _ _ _ _ _ _) as [[? ?] ?]. }
  clear Hrun.
  destruct (verify_old_req_loop_outcome SHA256 beyond stdin 3 old_req tag w)
    as [(k & Hk & Hbad & Hgood)|[(k & Hk & Hbad & Hlen)|[Hall Hlens]]].
  - pose proof (verify_old_req_loop_accepts SHA256 beyond stdin 3 k old_req tag w
                  Hk Hbad Hgood) as Hacc.
    destruct (runs_det _ _ _ _ _ _ Hloop Hacc) as [-> ->]. cbn [vars edits cursor].
    refine (conj eq_refl (conj eq_refl (or_introl (conj eq_refl _)))).
    exists k. exact (conj Hk (conj eq_refl (conj Hbad Hgood))).
  - pose proof (verify_old_req_loop_freed SHA256 beyond stdin 3 k old_req tag w
                  Hk Hbad Hlen) as Hfree.
    destruct (runs_det _ _ _ _ _ _ Hloop Hfree) as [-> ->]. cbn [vars edits cursor].
    refine (conj eq_refl (conj eq_refl (or_intror (or_intror (conj eq_refl _))))).
    exists k. refine (conj _ (conj eq_refl (conj Hbad Hlen))). clear -Hk. lia.
  - pose proof (verify_old_req_loop_fails SHA256 beyond stdin 3 old_req tag w Hall Hlens)
      as Hrej.
    destruct (runs_det _ _ _ _ _ _ Hloop Hrej) as [-> ->]. cbn [vars edits cursor].
    refine (conj eq_refl (conj eq_refl (or_intror (or_introl
              (conj eq_refl (conj eq_refl (conj Hall _))))))).
    intros i Hi. apply Hlens. clear -Hi. lia.
Qed.

Lemma verify_old_req_characterised_witness :
  vars (World (vars tagged_C) [] 2) = vars tagged_C
  ∧ edits (World (vars tagged_C) [] 2) = edits tagged_C
  ∧ ((Answered 1 = Answered 1
      ∧ ∃ k, (k < 3)%nat ∧ cursor (World (vars tagged_C) [] 2) = (cursor tagged_C + k + 1)%nat
             ∧ (∀ i, (i < k)%nat →
                     failed_attempt sha256 zeroed key_C
                       (sha256 (key_C ++ utf16le_budget secret123))
                       (slips_once (cursor tagged_C + i)%nat)
                     ∧ ¬ wrong_length (slips_once (cursor tagged_C + i)%nat))
             ∧ ¬ failed_attempt sha256 zeroed key_C
                   (sha256 (key_C ++ utf16le_budget secret123))
                   (slips_once (cursor tagged_C + k)%nat))
     ∨ (Answered 1 = Answered 0
        ∧ cursor (World (vars tagged_C) [] 2) = (cursor tagged_C + 3)%nat
        ∧ (∀ i, (i < 3)%nat →
                failed_attempt sha256 zeroed key_C
                  (sha256 (key_C ++ utf16le_budget secret123))
                  (slips_once (cursor tagged_C + i)%nat))
        ∧ (∀ i, (i < 2)%nat → ¬ wrong_length (slips_once (cursor tagged_C + i)%nat)))
     ∨ (Answered 1 = UseAfterFree
        ∧ ∃ k, (k < 2)%nat ∧ cursor (World (vars tagged_C) [] 2) = (cursor tagged_C + k + 1)%nat
               ∧ (∀ i, (i < k)%nat →
                       failed_attempt sha256 zeroed key_C
                         (sha256 (key_C ++ utf16le_budget secret123))
                         (slips_once (cursor tagged_C + i)%nat)
                       ∧ ¬ wrong_length (slips_once (cursor tagged_C + i)%nat))
               ∧ wrong_length (slips_once (cursor tagged_C + k)%nat))).
Proof.
  apply (verify_old_req_characterised sha256 zeroed slips_once key_C
           (sha256 (key_C ++ utf16le_budget secret123)) true tagged_C
           (World (vars tagged_C) [] 2) (Answered 1)
           (verify_old_req sha256 zeroed slips_once key_C 64 true tagged_C).2).
  - reflexivity.
  - vm_compute. reflexivity.
Defined.

(** X10: whatever path [update_request] takes for a list, the store ends
    in one of three states: the list and its tag, taken with the password
    that [get_password] handed back, both written (result 0); or, with
    result -1, nothing changed, or the pending list deleted.  In no case
    is the stored tag replaced without the list. *)
Theorem update_request_outcomes (SHA256 : list Z → list Z) (beyond : Z → Z)
    (stdin : nat → list Z) (l : list Z) (list_len : Z) (import : bool) (w w' : world)
    (r : Z) (out : list string) :
  update_request SHA256 beyond stdin (Some l) list_len import w = (r, w', out) →
  (r = 0
   ∧ ∃ password pw_len,
       (get_password stdin PASSWORD_MIN PASSWORD_MAX w).1.1 = Some (password, pw_len)
       ∧ vars w' = <[(SHIM_LOCK_GUID, auth_name import) :=
                       stored_tag SHA256 beyond (Some l) list_len password pw_len]>
                     (<[(SHIM_LOCK_GUID, req_name import) := bytes_at beyond l list_len]>
                      (vars w)))
  ∨ (r = -1
     ∧ vars w' !! (SHIM_LOCK_GUID, auth_name import)
       = vars w !! (SHIM_LOCK_GUID, auth_name import)
     ∧ (vars w' = vars w ∨ vars w' = delete (SHIM_LOCK_GUID, req_name import) (vars w))).
Proof.
  intros Hrun.
  destruct (update_request_some_inv SHA256 beyond stdin l list_len import w r w')
    as [[-> Hv]|(password & pw_len & wp & [o Hpw] & _ & [[-> Hv]|[-> Hv]])];
    [by exists out | | |].
  - right. split; [done |]. rewrite Hv. split; [done | by left].
  - right. split; [done |]. rewrite Hv. split; [| by right].
    apply lookup_delete_ne. apply not_eq_sym, req_name_not_auth_name.
  - left. split; [done |]. exists password, pw_len. by rewrite Hpw.
Qed.

Lemma update_request_outcomes_witness :
  (-1 = 0
   ∧ ∃ password pw_len,
       (get_password fumbles PASSWORD_MIN PASSWORD_MAX tag_write_fails).1.1
       = Some (password, pw_len)
       ∧ vars (World ∅ [] 4) = <[(SHIM_LOCK_GUID, auth_name true) :=
                       stored_tag sha256 zeroed (Some key_C) 64 password pw_len]>
                     (<[(SHIM_LOCK_GUID, req_name true) := bytes_at zeroed key_C 64]>
                      (vars tag_write_fails)))
  ∨ (-1 = -1
     ∧ vars (World ∅ [] 4) !! (SHIM_LOCK_GUID, auth_name true)
       = vars tag_write_fails !! (SHIM_LOCK_GUID, auth_name true)
     ∧ (vars (World ∅ [] 4) = vars tag_write_fails
        ∨ vars (World ∅ [] 4) = delete (SHIM_LOCK_GUID, req_name true) (vars tag_write_fails))).
Proof.
  apply (update_request_outcomes sha256 zeroed fumbles key_C 64 true tag_write_fails
           (World ∅ [] 4) (-1)
           (update_request sha256 zeroed fumbles (Some key_C) 64 true tag_write_fails).2).
  vm_compute. reflexivity.
Defined.

(** X11: the tag that [update_request] has stored for a list is the one
    [verify_old_req] accepts: once a request is committed, typing the
    password that [get_password] handed back at the next challenge over
    the stored list is answered 1 at the first attempt. *)
Theorem verify_old_req_accepts_committed (SHA256 : list Z → list Z) (beyond : Z → Z)
    (stdin : nat → list Z) (l : list Z) (list_len : Z) (import : bool) (w w1 : world)
    (out : list string) (password : list Z) (pw_len : Z) :
  update_request SHA256 beyond stdin (Some l) list_len import w = (0, w1, out) →
  (get_password stdin PASSWORD_MIN PASSWORD_MAX w).1.1 = Some (password, pw_len) →
  stdin (cursor w1) = password →
  ∃ old_req out',
    vars w1 !! (SHIM_LOCK_GUID, req_name import) = Some old_req
    ∧ verify_old_req SHA256 beyond stdin old_req (Z.of_nat (length old_req)) import w1
      = (Answered 1, World (vars w1) (edits w1) (S (cursor w1)), out').
Proof.
  intros Hrun Hget Hsame.
  destruct (update_request_some_inv SHA256 beyond stdin l list_len import w 0 w1)
    as [[[=] _]|(password' & pw_len' & wp & Hpw & Hc & [[[=] _]|[_ Hv]])];
    [by exists out |].
  assert (password' = password ∧ pw_len' = pw_len) as [-> ->].
  { destruct Hpw as [o Hpw]. rewrite Hpw in Hget. by injection Hget as -> ->. }
  apply get_password_some in Hpw as (Hlen & Hr & _).
  exists (bytes_at beyond l list_len).
  assert (vars w1 !! (SHIM_LOCK_GUID, req_name import) = Some (bytes_at beyond l list_len))
    as Hreq.
  { rewrite Hv, lookup_insert_ne by apply req_name_not_auth_name.
    apply lookup_insert_eq. }
  assert (vars w1 !! (SHIM_LOCK_GUID, auth_name import)
          = Some (stored_tag SHA256 beyond (Some l) list_len password pw_len)) as Htag
    by (rewrite Hv; apply lookup_insert_eq).
  assert (runs (verify_old_req SHA256 beyond stdin (bytes_at beyond l list_len)
                  (Z.of_nat (length (bytes_at beyond l list_len))) import) w1 (Answered 1)
               (World (vars w1) (edits w1) (cursor w1 + 0 + 1))) as [out' Hver].
  { unfold verify_old_req. eapply runs_bind; [by eexists |]. cbn [fst snd]. rewrite Htag.
    apply verify_old_req_loop_accepts; [lia | intros i Hi; lia |].
    rewrite Nat.add_0_r, Hsame. unfold failed_attempt. cbv zeta.
    intros [H|[H|H]]; [lia | lia |]. apply H.
    rewrite stored_tag_idem.
    assert (bytes_at beyond
              (auth_buffer beyond
                 (generate_auth SHA256 beyond (Some (bytes_at beyond l list_len))
                    (Z.of_nat (length (bytes_at beyond l list_len))) (Some password)
                    (Z.of_nat (length password))))
              SHA256_DIGEST_LENGTH
            = stored_tag SHA256 beyond (Some l) list_len password pw_len) as ->.
    { unfold stored_tag, generate_auth.
      destruct (efichar_from_char password _) as [efichar_pass efichar_len].
      by rewrite bytes_at_all. }
    apply memcmp_refl. }
  exists out'. split; [done |].
  by replace (cursor w1 + 0 + 1)%nat with (S (cursor w1)) in Hver by lia.
Qed.

Lemma verify_old_req_accepts_committed_witness :
  ∃ old_req out',
    vars committed_C !! (SHIM_LOCK_GUID, req_name true) = Some old_req
    ∧ verify_old_req sha256 zeroed types_secret123 old_req (Z.of_nat (length old_req)) true
        committed_C
      = (Answered 1, World (vars committed_C) (edits committed_C) (S (cursor committed_C)),
         out').
Proof.
  apply (verify_old_req_accepts_committed sha256 zeroed types_secret123 key_C 64 true
           (World ∅ [] 0) committed_C
           (update_request sha256 zeroed types_secret123 (Some key_C) 64 true
              (World ∅ [] 0)).2 secret123 9).
  - vm_compute. reflexivity.
  - vm_compute. reflexivity.
  - reflexivity.
Defined.

(** X12: [reset_moks] ends in one of three states.  With result 0 the
    pending enrolment list is absent and the import tag is the tag over
    the password that [get_password] handed back, and nothing else; with
    result -1 the store is as before, or as before but for the pending
    enrolment list, which is absent.  No other variable changes. *)
Theorem reset_moks_outcomes (SHA256 : list Z → list Z) (beyond : Z → Z)
    (stdin : nat → list Z) (w w' : world) (r : Z) (out : list string) :
  reset_moks SHA256 beyond stdin w = (r, w', out) →
  (r = 0
   ∧ ∃ password pw_len,
       (get_password stdin PASSWORD_MIN PASSWORD_MAX w).1.1 = Some (password, pw_len)
       ∧ vars w' = <[(SHIM_LOCK_GUID, "MokAuth"%string) :=
                       stored_tag SHA256 beyond None 0 password pw_len]>
                     (delete (SHIM_LOCK_GUID, "MokNew"%string) (vars w)))
  ∨ (r = -1
     ∧ (vars w' = vars w ∨ vars w' = delete (SHIM_LOCK_GUID, "MokNew"%string) (vars w))).
Proof.
  intros Hrun.
  assert (runs (reset_moks SHA256 beyond stdin) w r w') as H by (by exists out).
  unfold reset_moks in H. apply runs_bind_inv in H as (r0 & w0 & H0 & H).
  apply update_request_none_inv in H0
    as [(-> & Hv & _)|(password & pw_len & wp & [o Hpw] & _ & [(-> & Hv & _)|[-> Hv]])].
  - rewrite bool_decide_true in H by done.
    apply runs_bind_inv in H as (? & w1 & H1 & H). apply runs_say_inv in H1 as ->.
    apply runs_ret_inv in H as [-> ->]. right. split; [done | by left].
  - rewrite bool_decide_true in H by done.
    apply runs_bind_inv in H as (? & w1 & H1 & H). apply runs_say_inv in H1 as ->.
    apply runs_ret_inv in H as [-> ->]. right. split; [done | by right].
  - rewrite bool_decide_false in H by (intros K; by apply K).
    apply runs_ret_inv in H as [-> ->]. left. split; [done |].
    exists password, pw_len. by rewrite Hpw.
Qed.

Lemma reset_moks_outcomes_witness :
  (0 = 0
   ∧ ∃ password pw_len,
       (get_password types_secret123 PASSWORD_MIN PASSWORD_MAX pending_C).1.1
       = Some (password, pw_len)
       ∧ vars (reset_moks sha256 zeroed types_secret123 pending_C).1.2
         = <[(SHIM_LOCK_GUID, "MokAuth"%string) :=
               stored_tag sha256 zeroed None 0 password pw_len]>
             (delete (SHIM_LOCK_GUID, "MokNew"%string) (vars pending_C)))
  ∨ (0 = -1
     ∧ (vars (reset_moks sha256 zeroed types_secret123 pending_C).1.2 = vars pending_C
        ∨ vars (reset_moks sha256 zeroed types_secret123 pending_C).1.2
          = delete (SHIM_LOCK_GUID, "MokNew"%string) (vars pending_C))).
Proof.
  apply (reset_moks_outcomes sha256 zeroed types_secret123 pending_C _ 0
           (reset_moks sha256 zeroed types_secret123 pending_C).2).
  vm_compute. reflexivity.
Defined.

(** X13: over a store whose delete fails only for a variable that is not
    there, [revoke_request] answers 0, reads no line and attempts no
    write: it leaves the store without the pending enrolment list and
    without its tag, every other variable (a pending deletion and its tag
    included) being as before. *)
Theorem revoke_request_clears_import (w : world) :
  ∃ out,
    revoke_request w
    = (0,
       World (delete (SHIM_LOCK_GUID, "MokAuth"%string)
                (delete (SHIM_LOCK_GUID, "MokNew"%string) (vars w)))
             (edits w) (cursor w),
       out)
    ∧ ∀ k, k ≠ (SHIM_LOCK_GUID, "MokNew"%string) → k ≠ (SHIM_LOCK_GUID, "MokAuth"%string) →
           delete (SHIM_LOCK_GUID, "MokAuth"%string)
             (delete (SHIM_LOCK_GUID, "MokNew"%string) (vars w)) !! k
           = vars w !! k.
Proof.
  assert (runs revoke_request w 0
            (World (delete (SHIM_LOCK_GUID, "MokAuth"%string)
                      (delete (SHIM_LOCK_GUID, "MokNew"%string) (vars w)))
                   (edits w) (cursor w))) as [out Hrun].
  { unfold revoke_request.
    eapply runs_bind; [apply runs_test_and_delete_var |].
    rewrite bool_decide_false by lia.
    eapply runs_bind; [apply runs_test_and_delete_var |].
    rewrite bool_decide_false by lia. apply runs_ret. }
  exists out. split; [done |]. intros k H1 H2.
  by rewrite !lookup_delete_ne.
Qed.

(** X14: [set_password] changes no variable but [MokPW]: when it answers
    0 that variable holds the tag over the password that [get_password]
    handed back, and nothing else, and the rest of the store is as before;
    otherwise it answers -1 and the whole store is as before. *)
Theorem set_password_outcomes (SHA256 : list Z → list Z) (beyond : Z → Z)
    (stdin : nat → list Z) (w w' : world) (r : Z) (out : list string) :
  set_password SHA256 beyond stdin w = (r, w', out) →
  (r = 0
   ∧ ∃ password pw_len,
       (get_password stdin PASSWORD_MIN PASSWORD_MAX w).1.1 = Some (password, pw_len)
       ∧ vars w' = <[(SHIM_LOCK_GUID, "MokPW"%string) :=
                       stored_tag SHA256 beyond None 0 password pw_len]> (vars w))
  ∨ (r = -1 ∧ vars w' = vars w).
Proof.
  intros Hrun.
  assert (runs (set_password SHA256 beyond stdin) w r w') as H by (by exists out).
  unfold set_password in H.
  apply runs_bind_inv in H as ([[password pw_len]|] & wp & Hpw & H).
  2:{ right. apply runs_bind_inv in H as (? & w1 & H1 & H).
      apply runs_say_inv in H1 as ->. apply runs_ret_inv in H as [-> ->].
      split; [done |]. destruct (preserves_get_password stdin PASSWORD_MIN PASSWORD_MAX w)
        as [Hv _]. destruct Hpw as [o Hpw]. by rewrite Hpw in Hv. }
  assert (vars wp = vars w) as Hv.
  { destruct (preserves_get_password stdin PASSWORD_MIN PASSWORD_MAX w) as [Hv _].
    destruct Hpw as [o Hpw']. by rewrite Hpw' in Hv. }
  destruct (generate_auth SHA256 beyond None 0 (Some password) pw_len) as [auth|] eqn:E;
    [| unfold generate_auth in E; by destruct (efichar_from_char _ _)].
  apply runs_bind_inv in H as (ok & w1 & H1 & H).
  apply runs_edit_variable_inv in H1 as [_ H1].
  destruct ok.
  - apply runs_ret_inv in H as [-> ->]. destruct H1 as [H1 _].
    left. split; [done |]. exists password, pw_len.
    split; [destruct Hpw as [o Hpw]; by rewrite Hpw |].
    unfold stored_tag. rewrite E. cbn [auth_buffer default]. by rewrite H1, Hv.
  - apply runs_bind_inv in H as (? & w2 & H2 & H). apply runs_say_inv in H2 as ->.
    apply runs_ret_inv in H as [-> ->]. destruct H1 as [H1 _].
    right. split; [done | congruence].
Qed.

Lemma set_password_outcomes_witness :
  (0 = 0
   ∧ ∃ password pw_len,
       (get_password fumbles PASSWORD_MIN PASSWORD_MAX pending_C).1.1
       = Some (password, pw_len)
       ∧ vars (set_password sha256 zeroed fumbles pending_C).1.2
         = <[(SHIM_LOCK_GUID, "MokPW"%string) :=
               stored_tag sha256 zeroed None 0 password pw_len]> (vars pending_C))
  ∨ (0 = -1 ∧ vars (set_password sha256 zeroed fumbles pending_C).1.2 = vars pending_C).
Proof.
  apply (set_password_outcomes sha256 zeroed fumbles pending_C _ 0
           (set_password sha256 zeroed fumbles pending_C).2).
  vm_compute. reflexivity.
Defined.

(** ** Requests *)

Lemma stat_files_missing (fs : string → option (list Z)) (pre : list string)
    (f : string) (post : list string) :
  Forall (λ g, is_Some (fs g)) pre → fs f = None →
  stat_files fs (pre ++ f :: post) = inl f.
Proof.
  induction 1 as [|g pre [k Hg] _ IH]; intros Hf; cbn [app stat_files].
  - by rewrite Hf.
  - by rewrite Hg, IH.
Qed.

(** X15: when a file cannot be found, [issue_mok_request] answers -1 and
    prints one message, which names the first such file; the world is as
    before, whatever the store holds and however little fuel the decoder
    is given. *)
Theorem issue_mok_request_missing_file (Cert Hash Global Image : efi_guid_t)
    (SHA256 : list Z → list Z) (d2i_X509 : list Z → bool) (beyond : Z → Z)
    (stdin : nat → list Z) (fs : string → option (list Z))
    (fuel : nat) (import : bool) (w : world)
    (pre : list string) (f : string) (post : list string) :
  Forall (λ g, is_Some (fs g)) pre → fs f = None →
  issue_mok_request Cert Hash Global Image SHA256 d2i_X509 beyond stdin fs
                    fuel (pre ++ f :: post) import w
  = Some (-1, w, ["Failed to get file status, " +:+ f +:+ LF]).
Proof.
  intros Hpre Hf. unfold issue_mok_request.
  by rewrite (stat_files_missing fs pre f post Hpre Hf).
Qed.

Lemma issue_mok_request_missing_file_witness :
  issue_mok_request uefi_x509 uefi_sha256 uefi_global_variable uefi_image_security_database
                    sha256 any_der zeroed types_secret123 der_files
                    0 (["A.der"%string; "B.der"%string] ++ "C.der"%string :: ["D.der"%string])
                    true pending_C
  = Some (-1, pending_C, ["Failed to get file status, " +:+ "C.der" +:+ LF]).
Proof.
  apply (issue_mok_request_missing_file uefi_x509 uefi_sha256 uefi_global_variable
           uefi_image_security_database sha256 any_der zeroed types_secret123 der_files
           0 true pending_C ["A.der"%string; "B.der"%string] "C.der"
           ["D.der"%string]).
  - constructor; [by eexists | constructor; [by eexists | constructor]].
  - reflexivity.
Defined.

(** X16: a pending request whose challenge is answered 1 is kept: the
    new pending list is the records of the eligible keys followed, byte
    for byte, by the old pending list, and the new tag is taken over both
    with the new password. *)
Theorem issue_mok_request_appends_pending (Cert Hash Global Image : efi_guid_t)
    (SHA256 : list Z → list Z) (d2i_X509 : list Z → bool) (beyond : Z → Z)
    (stdin : nat → list Z) (fs : string → option (list Z))
    (fuel : nat) (import : bool) (w : world) (files : list string)
    (keys : list (list Z)) (verdicts : list Z) (old_req : list Z)
    (w0 : world) (o0 : list string)
    (password : list Z) (pw_len : Z) (w1 : world) (o1 : list string) (rest : list bool) :
  length Cert = 16%nat →
  (∀ m, length (SHA256 m) = 32%nat) →
  Forall2 (λ f k, fs f = Some k) files keys →
  Forall2 (λ k v, is_valid_request Cert Hash Global Image beyond fuel k
                    (Z.of_nat (length k)) import (vars w) = Some v) keys verdicts →
  accepted keys verdicts ≠ [] →
  encoded_size keys + Z.of_nat (length old_req) < 2 ^ 31 →
  vars w !! (SHIM_LOCK_GUID, req_name import) = Some old_req →
  verify_old_req SHA256 beyond stdin old_req (Z.of_nat (length old_req)) import w
  = (Answered 1, w0, o0) →
  get_password stdin PASSWORD_MIN PASSWORD_MAX w0 = (Some (password, pw_len), w1, o1) →
  edits w = true :: true :: rest →
  ∃ w' out,
    issue_mok_request Cert Hash Global Image SHA256 d2i_X509 beyond stdin fs
                      fuel files import w = Some (0, w', out)
    ∧ vars w' !! (SHIM_LOCK_GUID, req_name import)
      = Some (encode Cert (accepted keys verdicts) ++ old_req)
    ∧ vars w' !! (SHIM_LOCK_GUID, auth_name import)
      = Some (SHA256 ((encode Cert (accepted keys verdicts) ++ old_req)
                      ++ utf16le_budget password)).
Proof.
  intros HC Hsha Hfs Hv Hsome Hbound Hold Hverify Hpw Hed.
  by apply (issue_mok_request_merges Cert Hash Global Image SHA256 d2i_X509 beyond stdin fs
              HC fuel import w files keys verdicts old_req 1 w0 o0 password pw_len w1 o1 rest).
Qed.

Lemma issue_mok_request_appends_pending_witness :
  ∃ w' out,
    issue_mok_request uefi_x509 uefi_sha256 uefi_global_variable uefi_image_security_database
                      sha256 any_der zeroed types_secret123 der_files
                      5 ["A.der"%string; "B.der"%string] true pending_C
    = Some (0, w', out)
    ∧ vars w' !! (SHIM_LOCK_GUID, req_name true)
      = Some (encode uefi_x509 (accepted [key_A; key_B] [1; 1]) ++ encode uefi_x509 [key_C])
    ∧ vars w' !! (SHIM_LOCK_GUID, auth_name true)
      = Some (sha256 ((encode uefi_x509 (accepted [key_A; key_B] [1; 1])
                       ++ encode uefi_x509 [key_C])
                      ++ utf16le_budget secret123)).
Proof.
  apply (issue_mok_request_appends_pending uefi_x509 uefi_sha256 uefi_global_variable
           uefi_image_security_database sha256 any_der zeroed types_secret123 der_files
           5 true pending_C ["A.der"%string; "B.der"%string] [key_A; key_B] [1; 1]
           (encode uefi_x509 [key_C])
           (verify_old_req sha256 zeroed types_secret123 (encode uefi_x509 [key_C])
              108 true pending_C).1.2
           (verify_old_req sha256 zeroed types_secret123 (encode uefi_x509 [key_C])
              108 true pending_C).2
           secret123 9
           (get_password types_secret123 PASSWORD_MIN PASSWORD_MAX
              (verify_old_req sha256 zeroed types_secret123 (encode uefi_x509 [key_C])
                 108 true pending_C).1.2).1.2
           (get_password types_secret123 PASSWORD_MIN PASSWORD_MAX
              (verify_old_req sha256 zeroed types_secret123 (encode uefi_x509 [key_C])
                 108 true pending_C).1.2).2 []).
  - reflexivity.
  - apply length_sha256.
  - constructor; [reflexivity | constructor; [reflexivity | constructor]].
  - constructor; [vm_compute; reflexivity | constructor; [vm_compute; reflexivity | constructor]].
  - discriminate.
  - vm_compute. reflexivity.
  - reflexivity.
  - vm_compute. reflexivity.
  - vm_compute. reflexivity.
  - reflexivity.
Defined.

(** X17: a failed write of the tag costs the pending request that was
    there before: when the challenge over the old pending list is
    answered 1,
    the merged list is written and the write of its tag then fails,
    [issue_mok_request] answers -1 and leaves no pending list at all,
    while the old tag and every other variable stay as they were. *)
Theorem issue_mok_request_failure_drops_pending (Cert Hash Global Image : efi_guid_t)
    (SHA256 : list Z → list Z) (d2i_X509 : list Z → bool) (beyond : Z → Z)
    (stdin : nat → list Z) (fs : string → option (list Z))
    (fuel : nat) (import : bool) (w : world) (files : list string)
    (keys : list (list Z)) (verdicts : list Z) (old_req : list Z)
    (w0 : world) (o0 : list string)
    (password : list Z) (pw_len : Z) (w1 : world) (o1 : list string) (rest : list bool) :
  length Cert = 16%nat →
  Forall2 (λ f k, fs f = Some k) files keys →
  Forall2 (λ k v, is_valid_request Cert Hash Global Image beyond fuel k
                    (Z.of_nat (length k)) import (vars w) = Some v) keys verdicts →
  accepted keys verdicts ≠ [] →
  encoded_size keys + Z.of_nat (length old_req) < 2 ^ 31 →
  vars w !! (SHIM_LOCK_GUID, req_name import) = Some old_req →
  verify_old_req SHA256 beyond stdin old_req (Z.of_nat (length old_req)) import w
  = (Answered 1, w0, o0) →
  get_password stdin PASSWORD_MIN PASSWORD_MAX w0 = (Some (password, pw_len), w1, o1) →
  edits w = true :: false :: rest →
  ∃ w' out,
    issue_mok_request Cert Hash Global Image SHA256 d2i_X509 beyond stdin fs
                      fuel files import w = Some (-1, w', out)
    ∧ vars w' !! (SHIM_LOCK_GUID, req_name import) = None
    ∧ ∀ k, k ≠ (SHIM_LOCK_GUID, req_name import) → vars w' !! k = vars w !! k.
Proof.
  intros HC Hfs Hv Hsome Hbound Hold Hverify Hpw Hed.
  destruct (issue_mok_request_loops Cert Hash Global Image d2i_X509 beyond fs HC
              fuel import w files keys verdicts Hfs Hv)
    as (st & out & Hstat & Hrun & Htake & Hreal & Hlen & _ & _);
    [by rewrite Hold |].
  pose proof (encoded_size_pos _ Hsome) as Hpos.
  destruct (preserves_verify_old_req SHA256 beyond stdin old_req
              (Z.of_nat (length old_req)) import w) as [Hvars Hedits].
  rewrite Hverify in Hvars, Hedits. cbn [fst snd] in Hvars, Hedits.
  set (merged := poke (new_list st) (real_size st) old_req).
  set (size := int (unsigned_long (real_size st + Z.of_nat (length old_req)))).
  destruct (update_request_rolled_back SHA256 beyond stdin merged size import w0
              password pw_len w1 o1 rest Hpw) as [out' Hup]; [congruence |].
  eexists _, ((out ++ o0) ++ out' ++ []).
  split; [| split].
  - unfold issue_mok_request. rewrite Hstat. cbv beta iota zeta.
    rewrite Hrun, Hold. rewrite bool_decide_false by lia.
    rewrite Hverify. rewrite bool_decide_false by done.
    cbn [new_list real_size]. fold merged size.
    unfold mbind, io_bind in Hup |- *. rewrite Hup.
    rewrite bool_decide_true by lia. reflexivity.
  - cbn [vars]. apply lookup_delete_eq.
  - intros k Hk. cbn [vars]. rewrite lookup_delete_ne by done. by rewrite Hvars.
Qed.

Lemma issue_mok_request_failure_drops_pending_witness :
  ∃ w' out,
    issue_mok_request uefi_x509 uefi_sha256 uefi_global_variable uefi_image_security_database
                      sha256 any_der zeroed types_secret123 der_files
                      5 ["A.der"%string] true
                      (World (vars pending_C) [true; false] 0)
    = Some (-1, w', out)
    ∧ vars w' !! (SHIM_LOCK_GUID, req_name true) = None
    ∧ ∀ k, k ≠ (SHIM_LOCK_GUID, req_name true) →
           vars w' !! k = vars (World (vars pending_C) [true; false] 0) !! k.
Proof.
  apply (issue_mok_request_failure_drops_pending uefi_x509 uefi_sha256 uefi_global_variable
           uefi_image_security_database sha256 any_der zeroed types_secret123 der_files
           5 true (World (vars pending_C) [true; false] 0) ["A.der"%string] [key_A] [1]
           (encode uefi_x509 [key_C])
           (verify_old_req sha256 zeroed types_secret123 (encode uefi_x509 [key_C])
              108 true (World (vars pending_C) [true; false] 0)).1.2
           (verify_old_req sha256 zeroed types_secret123 (encode uefi_x509 [key_C])
              108 true (World (vars pending_C) [true; false] 0)).2
           secret123 9
           (get_password types_secret123 PASSWORD_MIN PASSWORD_MAX
              (verify_old_req sha256 zeroed types_secret123 (encode uefi_x509 [key_C])
                 108 true (World (vars pending_C) [true; false] 0)).1.2).1.2
           (get_password types_secret123 PASSWORD_MIN PASSWORD_MAX
              (verify_old_req sha256 zeroed types_secret123 (encode uefi_x509 [key_C])
                 108 true (World (vars pending_C) [true; false] 0)).1.2).2 []).
  - reflexivity.
  - constructor; [reflexivity | constructor].
  - constructor; [vm_compute; reflexivity | constructor].
  - discriminate.
  - vm_compute. reflexivity.
  - reflexivity.
  - vm_compute. reflexivity.
  - vm_compute. reflexivity.
  - reflexivity.
Defined.

Lemma node_at_size h p : 0 ≤ mok_size (node_at h p) < 2 ^ 32.
Proof.
  unfold node_at, new_node. cbn [mok_size]. unfold uint32_t.
  apply Z.mod_pos_bound. lia.
Qed.

Lemma decoded_sizes Cert Hash fuel h data_size mlist :
  (build_mok_list Cert Hash fuel h data_size).1 = Some mlist →
  Forall (λ n, 0 ≤ mok_size n < 2 ^ 32) mlist.
Proof.
  unfold build_mok_list. rewrite loop_walk.
  destruct (walk fuel h data_size 0) as [ps|]; [| done]. intros [= <-]. cbn [app].
  apply Forall_fmap, Forall_forall. intros q _. apply node_at_size.
Qed.

(** X18: a key that is already in the pending request is not eligible for
    the same request again: when the pending list is the records of
    [keys], the check of any of these keys that is not empty answers 0,
    provided the checks of the other stored lists return. *)
Theorem is_valid_request_refuses_pending (Cert Hash Global Image : efi_guid_t)
    (beyond : Z → Z) (fuel : nat) (import : bool)
    (store : gmap (efi_guid_t * string) (list Z)) (keys : list (list Z)) (k : list Z) :
  length Cert = 16%nat →
  efi_guidcmp Cert Hash ≠ 0 →
  Forall (λ k, Z.of_nat (length k) + 44 < 2 ^ 32) keys →
  (length keys < fuel)%nat →
  store !! (SHIM_LOCK_GUID, req_name import) = Some (encode Cert keys) →
  k ∈ keys → k ≠ [] →
  (∀ name guid, name ≠ req_name import →
     is_Some (is_duplicate Cert Hash beyond fuel k (Z.of_nat (length k)) name guid store)) →
  is_valid_request Cert Hash Global Image beyond fuel k (Z.of_nat (length k)) import store
  = Some 0.
Proof.
  intros HC HCH Hsmall Hfuel Hreq Hin Hne Hothers.
  destruct (decode_encoded Cert Hash beyond HC HCH keys Hsmall [] [] fuel [] Hfuel)
    as (nodes & Hdec & Hpay).
  rewrite !app_nil_l in Hdec, Hpay.
  assert ((build_mok_list Cert Hash fuel (heap_of (encode Cert keys) beyond)
             (Z.of_nat (length (encode Cert keys)))).1 = Some nodes) as Hrun by exact Hdec.
  assert (is_duplicate Cert Hash beyond fuel k (Z.of_nat (length k)) (req_name import)
            SHIM_LOCK_GUID store = Some 1) as Hdup.
  { apply (is_duplicate_payload Cert Hash beyond fuel k (req_name import) SHIM_LOCK_GUID
             store _ _ Hne Hreq Hrun).
    rewrite <- Hpay in Hin. apply list_elem_of_fmap in Hin as (n & Hk & Hn).
    exists n. split; [done |]. split; [| done].
    pose proof (decoded_sizes _ _ _ _ _ _ Hrun) as Hsz.
    rewrite Forall_forall in Hsz. specialize (Hsz n Hn).
    rewrite Hk. unfold payload. rewrite length_peek. lia. }
  unfold is_valid_request. cbv beta zeta. destruct import; cbn [req_name] in *.
  - destruct (Hothers "PK"%string Global) as [a Ha]; [done |].
    destruct (Hothers "KEK"%string Global) as [b Hb]; [done |].
    destruct (Hothers "db"%string Image) as [c Hc]; [done |].
    destruct (Hothers "MokListRT"%string SHIM_LOCK_GUID) as [d Hd]; [done |].
    rewrite Ha, Hb, Hc, Hd, Hdup. unfold c_or. simpl.
    repeat (case_bool_decide; simpl); try done.
  - destruct (Hothers "MokListRT"%string SHIM_LOCK_GUID) as [d Hd]; [done |].
    rewrite Hd, Hdup. unfold c_or, c_not. simpl.
    repeat (case_bool_decide; simpl); try done.
Qed.

Lemma is_valid_request_refuses_pending_witness :
  is_valid_request uefi_x509 uefi_sha256 uefi_global_variable uefi_image_security_database
                   zeroed 2 key_C (Z.of_nat (length key_C)) true (vars pending_C)
  = Some 0.
Proof.
  apply (is_valid_request_refuses_pending uefi_x509 uefi_sha256 uefi_global_variable
           uefi_image_security_database zeroed 2 true (vars pending_C) [key_C] key_C).
  - reflexivity.
  - vm_compute. discriminate.
  - constructor; [vm_compute; reflexivity | constructor].
  - simpl. lia.
  - vm_compute. reflexivity.
  - by constructor.
  - discriminate.
  - intros name guid Hname. unfold is_duplicate.
    rewrite bool_decide_false by (vm_compute; discriminate).
    destruct (decide ((guid, name) = (SHIM_LOCK_GUID, "MokAuth"%string))) as [->|Hk].
    + vm_compute. by eexists.
    + assert (vars pending_C !! (guid, name) = None) as ->; [| by eexists].
      unfold pending_C. cbn [vars].
      rewrite lookup_insert_ne by done. apply lookup_singleton_ne.
      intros [= <- <-]. by apply Hname.
Defined.

(** X19: a file of no bytes is always eligible for enrolment and never
    for deletion: the duplicate checks answer 0 for an empty key without
    reading any stored list, so the answer needs no fuel and does not
    depend on the store. *)
Theorem is_valid_request_empty_key (Cert Hash Global Image : efi_guid_t)
    (beyond : Z → Z) (fuel : nat) (mok : list Z) (import : bool)
    (store : gmap (efi_guid_t * string) (list Z)) :
  is_valid_request Cert Hash Global Image beyond fuel mok 0 import store
  = Some (if import then 1 else 0).
Proof.
  unfold is_valid_request, is_duplicate. cbv beta zeta.
  rewrite !(bool_decide_true (0 = 0)) by done. by destruct import.
Qed.

Section Underflow.

Variables Cert Hash : efi_guid_t.
Variable beyond : Z → Z.
Hypothesis Cert_length : length Cert = 16%nat.

Lemma x509_record_fields hs ss body :
  0 ≤ hs < 2 ^ 32 → 0 ≤ ss < 2 ^ 32 → 28 + Z.of_nat (length body) < 2 ^ 32 →
  let h := heap_of (x509_record Cert hs ss body) beyond in
  peek h 0 16 = Cert
  ∧ u32 h 16 = 28 + Z.of_nat (length body)
  ∧ u32 h 20 = hs
  ∧ u32 h 24 = ss
  ∧ Z.of_nat (length (x509_record Cert hs ss body)) = 28 + Z.of_nat (length body).
Proof.
  intros Hhs Hss Hsmall h. subst h. unfold x509_record, u32.
  set (f1 := le_encode 4 (28 + Z.of_nat (length body))).
  set (f2 := le_encode 4 hs).
  set (f3 := le_encode 4 ss).
  assert (length f1 = 4%nat ∧ length f2 = 4%nat ∧ length f3 = 4%nat) as (L1 & L2 & L3)
    by (subst f1 f2 f3; by rewrite !length_le_encode).
  refine (conj _ (conj _ (conj _ (conj _ _)))).
  - pose proof (peek_middle beyond [] Cert (f1 ++ f2 ++ f3 ++ body)) as E.
    by rewrite Cert_length in E.
  - pose proof (peek_middle beyond Cert f1 (f2 ++ f3 ++ body)) as E.
    rewrite Cert_length, L1 in E. change (Z.of_nat 16) with 16 in E. rewrite E.
    subst f1. apply le_decode_encode_4. lia.
  - pose proof (peek_middle beyond (Cert ++ f1) f2 (f3 ++ body)) as E.
    rewrite length_app, Cert_length, L1, L2, <- !app_assoc in E.
    change (Z.of_nat (16 + 4)) with 20 in E. rewrite E.
    subst f2. by apply le_decode_encode_4.
  - pose proof (peek_middle beyond (Cert ++ f1 ++ f2) f3 body) as E.
    rewrite !length_app, Cert_length, L1, L2, L3, <- !app_assoc in E.
    change (Z.of_nat (16 + (4 + 4))) with 24 in E. rewrite E.
    subst f3. by apply le_decode_encode_4.
  - rewrite !length_app. lia.
Qed.

End Underflow.

(** X20: the size of an X.509 record's signature is not checked: a record
    whose signature size is below the 16 bytes of the owner decodes to a
    node whose size is the difference wrapped to 32 bits, and whose
    payload starts 44 bytes plus the declared header size into the
    record, wherever the record ends. *)
Theorem build_mok_list_size_wraps (Cert Hash : efi_guid_t) (beyond : Z → Z) (fuel : nat)
    (hs ss : Z) (body : list Z) :
  length Cert = 16%nat →
  efi_guidcmp Cert Hash ≠ 0 →
  0 ≤ hs < 2 ^ 32 → 0 ≤ ss < 16 → 28 + Z.of_nat (length body) < 2 ^ 32 →
  let data := x509_record Cert hs ss body in
  (build_mok_list Cert Hash (S (S fuel)) (heap_of data beyond) (Z.of_nat (length data))).1
  = Some [ {| mok_size := 2 ^ 32 + ss - 16; mok := 44 + hs |} ].
Proof.
  intros HC HCH Hhs Hss Hsmall data.
  destruct (x509_record_fields Cert beyond HC hs ss body Hhs ltac:(lia) Hsmall)
    as (Hty & Hsls & Hh & Hs & Hlen).
  fold data in Hty, Hsls, Hh, Hs, Hlen.
  unfold build_mok_list. rewrite loop_S. change (0 + 16) with 16. rewrite Hsls, Hlen.
  rewrite !bool_decide_true by lia. cbn [andb].
  assert (kept Cert Hash (heap_of data beyond) 0 = true) as ->.
  { unfold kept. rewrite Hty.
    assert (efi_guidcmp Cert Cert = 0) as -> by apply memcmp_refl.
    rewrite (bool_decide_false (0 ≠ 0)) by lia.
    by rewrite (bool_decide_false (efi_guidcmp Cert Hash = 0)). }
  rewrite loop_S. rewrite (bool_decide_false (0 < _)) by lia. cbn [andb app].
  unfold node_at, new_node. change (0 + 20) with 20. change (0 + 24) with 24.
  rewrite Hh, Hs. unfold uint32_t, sizeof_efi_guid_t, sizeof_EFI_SIGNATURE_LIST.
  do 2 f_equal. f_equal; [| lia].
  rewrite <- (Z.mod_add _ 1) by lia. rewrite Z.mod_small; lia.
Qed.

Lemma build_mok_list_size_wraps_witness :
  (build_mok_list uefi_x509 uefi_sha256 2 (heap_of (x509_record uefi_x509 0 0 []) zeroed)
                  (Z.of_nat (length (x509_record uefi_x509 0 0 [])))).1
  = Some [ {| mok_size := 2 ^ 32 + 0 - 16; mok := 44 + 0 |} ].
Proof.
  apply (build_mok_list_size_wraps uefi_x509 uefi_sha256 zeroed 0 0 0 []).
  - reflexivity.
  - vm_compute. discriminate.
  - lia.
  - lia.
  - simpl. lia.
Defined.

(** ** Eligibility by what the lists hold *)

Section Contents.

Variables Cert Hash : efi_guid_t.
Variable beyond : Z → Z.

(** For a key that is not empty, [is_duplicate] answers whether the list
    holds it, whenever the list decodes. *)
Lemma is_duplicate_contains fuel key name guid store :
  key ≠ [] →
  decodes Cert Hash beyond fuel store →
  ∃ d, is_duplicate Cert Hash beyond fuel key (Z.of_nat (length key)) name guid store = Some d
       ∧ (d = 1 ∨ d = 0)
       ∧ (d = 1 ↔ contains Cert Hash beyond fuel store name guid key).
Proof.
  intros Hne Hdec.
  destruct (store !! (guid, name)) as [data|] eqn:Hdata.
  - destruct (Hdec name guid data Hdata) as [mlist Hrun].
    pose proof (is_duplicate_payload Cert Hash beyond fuel key name guid store data mlist
                  Hne Hdata Hrun) as Hiff.
    assert (is_Some (is_duplicate Cert Hash beyond fuel key (Z.of_nat (length key))
                       name guid store)) as [d Hd].
    { unfold is_duplicate. rewrite bool_decide_false by (destruct key; [done | simpl; lia]).
      rewrite Hdata. cbv zeta. rewrite Hrun. by eexists. }
    exists d. split; [exact Hd |].
    destruct (is_duplicate_range _ _ _ _ _ _ _ _ _ _ Hd) as [-> | ->].
    + split; [by right |]. split; [intros [=] |].
      intros (data' & mlist' & Hdata' & Hrun' & Hn).
      rewrite Hdata in Hdata'. injection Hdata' as <-.
      rewrite Hrun in Hrun'. injection Hrun' as <-.
      apply Hiff in Hn. rewrite Hd in Hn. discriminate.
    + split; [by left |]. split; [| done]. intros _.
      exists data, mlist. split; [done |]. split; [done |]. by apply Hiff.
  - exists 0. split.
    + unfold is_duplicate. case_bool_decide; [done |]. by rewrite Hdata.
    + split; [by right |]. split; [intros [=] |].
      intros (data' & mlist' & Hdata' & _). rewrite Hdata in Hdata'. discriminate.
Qed.

End Contents.




Lemma decodes_enrolled_AB : decodes uefi_x509 uefi_sha256 zeroed 5 enrolled_AB.
Proof.
  intros name guid data. unfold enrolled_AB.
  destruct (decide ((guid, name) = (SHIM_LOCK_GUID, "MokDel"%string))) as [->|N1].
  { rewrite lookup_insert_eq. intros [= <-]. vm_compute. by eexists. }
  rewrite lookup_insert_ne by done.
  destruct (decide ((guid, name) = (SHIM_LOCK_GUID, "MokListRT"%string))) as [->|N2].
  { rewrite lookup_singleton_eq. intros [= <-]. vm_compute. by eexists. }
  by rewrite lookup_singleton_ne.
Qed.



(** ** Testing and exporting keys *)

(** X21: [test_key] never consults the [db] variable of a namespace other
    than the global one, the image security database included: two
    stores that differ only in such a variable get the same answer and
    the same message. *)
Theorem test_key_ignores_other_db (Cert Hash Global : efi_guid_t) (beyond : Z → Z)
    (fs : string → option (list Z)) (fuel : nat) (key_file : string)
    (Image : efi_guid_t) (store store' : gmap (efi_guid_t * string) (list Z)) :
  Image ≠ Global →
  (∀ k, k ≠ (Image, "db"%string) → store' !! k = store !! k) →
  test_key Cert Hash Global beyond fs fuel key_file store'
  = test_key Cert Hash Global beyond fs fuel key_file store.
Proof.
  intros Hns Hext. unfold test_key.
  destruct (fs key_file) as [contents|]; [| done].
  destruct (_ || _); [done |]. cbv beta zeta.
  rewrite !(is_duplicate_ext Cert Hash beyond fuel _ _ _ _ store store');
    [done | | | | |]; apply Hext; congruence.
Qed.

Lemma test_key_ignores_other_db_witness :
  test_key uefi_x509 uefi_sha256 uefi_global_variable zeroed der_files 3 "A.der"
           (vars db_holds_A)
  = test_key uefi_x509 uefi_sha256 uefi_global_variable zeroed der_files 3 "A.der" ∅.
Proof.
  apply (test_key_ignores_other_db uefi_x509 uefi_sha256 uefi_global_variable zeroed
           der_files 3 "A.der" uefi_image_security_database ∅ (vars db_holds_A)).
  - vm_compute. discriminate.
  - intros k Hk. unfold db_holds_A. cbn [vars]. by apply lookup_singleton_ne.
Defined.

Lemma test_verdict (d1 d2 d3 d4 d5 : Z) :
  d1 = 1 ∨ d1 = 0 → d2 = 1 ∨ d2 = 0 → d3 = 1 ∨ d3 = 0 → d4 = 1 ∨ d4 = 0 → d5 = 1 ∨ d5 = 0 →
  c_and (c_not (Some d1)) (c_and (c_not (Some d2)) (c_and (c_not (Some d3))
        (c_and (c_not (Some d4)) (c_not (Some d5)))))
  = Some (if bool_decide (d1 = 0 ∧ d2 = 0 ∧ d3 = 0 ∧ d4 = 0 ∧ d5 = 0) then 1 else 0).
Proof.
  intros [-> | ->] [-> | ->] [-> | ->] [-> | ->] [-> | ->]; vm_compute; reflexivity.
Qed.

(** X22: for a file that can be read and is not empty, and when every
    stored list decodes, [test_key] answers 1 and says "is already
    enrolled" when one of PK, KEK and db of the global namespace,
    MokListRT and MokNew holds an entry with the file's length and bytes,
    and answers 0 and says "is not enrolled" when none does. *)
Theorem test_key_by_contents (Cert Hash Global : efi_guid_t) (beyond : Z → Z)
    (fs : string → option (list Z)) (fuel : nat) (key_file : string)
    (store : gmap (efi_guid_t * string) (list Z)) (key : list Z) :
  fs key_file = Some key →
  key ≠ [] →
  Z.of_nat (length key) < 2 ^ 32 →
  decodes Cert Hash beyond fuel store →
  (contains Cert Hash beyond fuel store "PK" Global key
   ∨ contains Cert Hash beyond fuel store "KEK" Global key
   ∨ contains Cert Hash beyond fuel store "db" Global key
   ∨ contains Cert Hash beyond fuel store "MokListRT" SHIM_LOCK_GUID key
   ∨ contains Cert Hash beyond fuel store "MokNew" SHIM_LOCK_GUID key →
   test_key Cert Hash Global beyond fs fuel key_file store
   = Some (1, [key_file +:+ " is already enrolled" +:+ LF]))
  ∧ (¬ contains Cert Hash beyond fuel store "PK" Global key
     ∧ ¬ contains Cert Hash beyond fuel store "KEK" Global key
     ∧ ¬ contains Cert Hash beyond fuel store "db" Global key
     ∧ ¬ contains Cert Hash beyond fuel store "MokListRT" SHIM_LOCK_GUID key
     ∧ ¬ contains Cert Hash beyond fuel store "MokNew" SHIM_LOCK_GUID key →
     test_key Cert Hash Global beyond fs fuel key_file store
     = Some (0, [key_file +:+ " is not enrolled" +:+ LF])).
Proof.
  intros Hfs Hne Hsmall Hdec.
  pose proof (λ name guid, is_duplicate_contains Cert Hash beyond fuel key name guid store
                             Hne Hdec) as Hdup.
  destruct (Hdup "PK"%string Global) as (d1 & E1 & R1 & I1).
  destruct (Hdup "KEK"%string Global) as (d2 & E2 & R2 & I2).
  destruct (Hdup "db"%string Global) as (d3 & E3 & R3 & I3).
  destruct (Hdup "MokListRT"%string SHIM_LOCK_GUID) as (d4 & E4 & R4 & I4).
  destruct (Hdup "MokNew"%string SHIM_LOCK_GUID) as (d5 & E5 & R5 & I5).
  assert (test_key Cert Hash Global beyond fs fuel key_file store
          = Some (if bool_decide (d1 = 0 ∧ d2 = 0 ∧ d3 = 0 ∧ d4 = 0 ∧ d5 = 0)
                  then (0, [key_file +:+ " is not enrolled" +:+ LF])
                  else (1, [key_file +:+ " is already enrolled" +:+ LF]))) as ->.
  { unfold test_key. rewrite Hfs. cbv beta zeta.
    rewrite Nat2Z.id, firstn_all.
    rewrite bool_decide_false by lia. rewrite bool_decide_false by (intros K; by apply K).
    cbn [orb]. unfold uint32_t. rewrite Z.mod_small by lia.
    rewrite E1, E2, E3, E4, E5, (test_verdict d1 d2 d3 d4 d5 R1 R2 R3 R4 R5).
    by case_bool_decide. }
  clear E1 E2 E3 E4 E5 Hdup Hdec. split.
  - intros Hin. rewrite bool_decide_false; [done |].
    intros (-> & -> & -> & -> & ->).
    destruct Hin as [K|[K|[K|[K|K]]]];
      [apply I1 in K | apply I2 in K | apply I3 in K | apply I4 in K | apply I5 in K];
      discriminate.
  - intros (N1 & N2 & N3 & N4 & N5). rewrite bool_decide_true; [done |].
    refine (conj _ (conj _ (conj _ (conj _ _)))).
    + destruct R1 as [-> | ->]; [exfalso; by apply N1, I1 | done].
    + destruct R2 as [-> | ->]; [exfalso; by apply N2, I2 | done].
    + destruct R3 as [-> | ->]; [exfalso; by apply N3, I3 | done].
    + destruct R4 as [-> | ->]; [exfalso; by apply N4, I4 | done].
    + destruct R5 as [-> | ->]; [exfalso; by apply N5, I5 | done].
Qed.

Lemma test_key_by_contents_witness :
  test_key uefi_x509 uefi_sha256 uefi_global_variable zeroed der_files 5 "B.der" enrolled_AB
  = Some (1, ["B.der" +:+ " is already enrolled" +:+ LF]).
Proof.
  apply (test_key_by_contents uefi_x509 uefi_sha256 uefi_global_variable zeroed der_files
           5 "B.der" enrolled_AB key_B).
  - reflexivity.
  - discriminate.
  - vm_compute. reflexivity.
  - apply decodes_enrolled_AB.
  - right. right. right. left.
    exists (encode uefi_x509 [key_A; key_B]),
           [ {| mok_size := 1200; mok := 44 |}; {| mok_size := 900; mok := 1288 |} ].
    split; [reflexivity |]. split; [vm_compute; reflexivity |].
    exists {| mok_size := 900; mok := 1288 |}.
    split; [by repeat constructor |]. split; [reflexivity | vm_compute; reflexivity].
Defined.

Section ExportFacts.

Variable creat : string → bool.
Variable write : string → list Z → Z.
Hypothesis write_all : ∀ f bs, write f bs = Z.of_nat (length bs).

Lemma export_loop_prefix h nodes rest i :
  Forall (λ n, 0 ≤ mok_size n) nodes →
  (∀ j, (j < length nodes)%nat → creat (mok_filename (i + Z.of_nat j)) = true) →
  export_loop creat write h i (nodes ++ rest)
  = let '(r, written, out) := export_loop creat write h (i + Z.of_nat (length nodes)) rest in
    (r, numbered i (payload h <$> nodes) ++ written, out).
Proof.
  intros Hsz. revert i. induction Hsz as [|n nodes Hn _ IH]; intros i Hcreat.
  - cbn [app length fmap list_fmap numbered]. rewrite Z.add_0_r.
    by destruct (export_loop _ _ _ _ _) as [[? ?] ?].
  - cbn [app export_loop].
    pose proof (Hcreat 0%nat ltac:(simpl; lia)) as H0. rewrite Z.add_0_r in H0.
    rewrite H0. cbn [negb]. rewrite write_all, length_peek.
    rewrite bool_decide_false by lia.
    rewrite IH.
    + replace (i + 1 + Z.of_nat (length nodes)) with (i + Z.of_nat (length (n :: nodes)))
        by (simpl; lia).
      by destruct (export_loop _ _ _ _ _) as [[? ?] ?].
    + intros j Hj. replace (i + 1 + Z.of_nat j) with (i + Z.of_nat (S j)) by lia.
      apply Hcreat. simpl. lia.
Qed.

End ExportFacts.

(** X23: exporting what the tool encodes gives the keys back: when
    MokListRT holds the records of [keys] and every file can be created
    and written in full, [export_moks] answers 0 and writes one file per
    key, in order and numbered from 1, whose bytes are the key. *)
Theorem export_moks_writes_keys (Cert Hash : efi_guid_t) (beyond : Z → Z)
    (creat : string → bool) (write : string → list Z → Z) (fuel : nat)
    (store : gmap (efi_guid_t * string) (list Z)) (keys : list (list Z)) :
  length Cert = 16%nat →
  efi_guidcmp Cert Hash ≠ 0 →
  Forall (λ k, Z.of_nat (length k) + 44 < 2 ^ 32) keys →
  (length keys < fuel)%nat →
  store !! (SHIM_LOCK_GUID, "MokListRT"%string) = Some (encode Cert keys) →
  (∀ f, creat f = true) →
  (∀ f bs, write f bs = Z.of_nat (length bs)) →
  export_moks Cert Hash beyond creat write fuel store = Some (0, numbered 0 keys, []).
Proof.
  intros HC HCH Hsmall Hfuel Hstore Hcreat Hwrite.
  destruct (decode_encoded Cert Hash beyond HC HCH keys Hsmall [] [] fuel [] Hfuel)
    as (nodes & Hdec & Hpay).
  rewrite !app_nil_l in Hdec, Hpay.
  assert ((build_mok_list Cert Hash fuel (heap_of (encode Cert keys) beyond)
             (Z.of_nat (length (encode Cert keys)))).1 = Some nodes) as Hrun by exact Hdec.
  unfold export_moks. rewrite Hstore. cbv zeta. rewrite Hrun.
  pose proof (export_loop_prefix creat write Hwrite (heap_of (encode Cert keys) beyond)
                nodes [] 0) as Hloop.
  rewrite !app_nil_r in Hloop. rewrite Hloop.
  - cbn [export_loop]. by rewrite app_nil_r, Hpay.
  - eapply Forall_impl; [exact (decoded_sizes _ _ _ _ _ _ Hrun) |]. simpl. intros; lia.
  - intros; apply Hcreat.
Qed.

Lemma export_moks_writes_keys_witness :
  export_moks uefi_x509 uefi_sha256 zeroed (λ _, true) (λ _ bs, Z.of_nat (length bs)) 3
              {[ (SHIM_LOCK_GUID, "MokListRT"%string) := encode uefi_x509 [key_C; key_B] ]}
  = Some (0, numbered 0 [key_C; key_B], []).
Proof.
  apply (export_moks_writes_keys uefi_x509 uefi_sha256 zeroed (λ _, true)
           (λ _ bs, Z.of_nat (length bs)) 3 _ [key_C; key_B]).
  - reflexivity.
  - vm_compute. discriminate.
  - constructor; [vm_compute; reflexivity | constructor; [vm_compute; reflexivity | constructor]].
  - simpl. lia.
  - reflexivity.
  - reflexivity.
  - reflexivity.
Defined.

(** X24: [export_moks] stops at the first file it cannot create: it
    answers -1, the keys before that one have been written in full and
    nothing is written for that key or any later one. *)
Theorem export_moks_stops_at_failure (Cert Hash : efi_guid_t) (beyond : Z → Z)
    (creat : string → bool) (write : string → list Z → Z) (fuel : nat)
    (store : gmap (efi_guid_t * string) (list Z)) (pre : list (list Z)) (k : list Z)
    (post : list (list Z)) :
  length Cert = 16%nat →
  efi_guidcmp Cert Hash ≠ 0 →
  Forall (λ k, Z.of_nat (length k) + 44 < 2 ^ 32) (pre ++ k :: post) →
  (length (pre ++ k :: post) < fuel)%nat →
  store !! (SHIM_LOCK_GUID, "MokListRT"%string) = Some (encode Cert (pre ++ k :: post)) →
  (∀ j, (j < length pre)%nat → creat (mok_filename (Z.of_nat j)) = true) →
  creat (mok_filename (Z.of_nat (length pre))) = false →
  (∀ f bs, write f bs = Z.of_nat (length bs)) →
  export_moks Cert Hash beyond creat write fuel store
  = Some (-1, numbered 0 pre,
          ["Failed to open " +:+ mok_filename (Z.of_nat (length pre)) +:+ LF]).
Proof.
  intros HC HCH Hsmall Hfuel Hstore Hcreat Hfail Hwrite.
  destruct (decode_encoded Cert Hash beyond HC HCH _ Hsmall [] [] fuel [] Hfuel)
    as (nodes & Hdec & Hpay).
  rewrite !app_nil_l in Hdec, Hpay.
  set (keys := pre ++ k :: post) in *.
  assert ((build_mok_list Cert Hash fuel (heap_of (encode Cert keys) beyond)
             (Z.of_nat (length (encode Cert keys)))).1 = Some nodes) as Hrun by exact Hdec.
  pose proof (decoded_sizes _ _ _ _ _ _ Hrun) as Hsz.
  unfold export_moks. rewrite Hstore. cbv zeta. rewrite Hrun.
  subst keys. apply fmap_app_inv in Hpay as (n1 & n2 & Hp1 & Hp2 & ->).
  symmetry in Hp2. apply fmap_cons_inv in Hp2 as (n & n3 & Hk & Hp3 & ->).
  apply Forall_app in Hsz as [Hsz1 _].
  rewrite (export_loop_prefix creat write Hwrite _ n1 (n :: n3) 0).
  - assert (length n1 = length pre) as Hl by (by rewrite Hp1, length_fmap).
    cbn [export_loop]. rewrite Z.add_0_l, Hl, Hfail. cbn [negb].
    by rewrite app_nil_r, <- Hp1.
  - eapply Forall_impl; [exact Hsz1 |]. simpl. intros; lia.
  - intros j Hj. rewrite Z.add_0_l. apply Hcreat.
    by rewrite Hp1, length_fmap.
Qed.

Lemma export_moks_stops_at_failure_witness :
  export_moks uefi_x509 uefi_sha256 zeroed
              (λ f, bool_decide (f ≠ mok_filename 1)) (λ _ bs, Z.of_nat (length bs)) 4
              {[ (SHIM_LOCK_GUID, "MokListRT"%string)
                 := encode uefi_x509 ([key_C] ++ key_B :: [key_C]) ]}
  = Some (-1, numbered 0 [key_C],
          ["Failed to open " +:+ mok_filename (Z.of_nat (length [key_C])) +:+ LF]).
Proof.
  apply (export_moks_stops_at_failure uefi_x509 uefi_sha256 zeroed
           (λ f, bool_decide (f ≠ mok_filename 1)) (λ _ bs, Z.of_nat (length bs)) 4
           _ [key_C] key_B [key_C]).
  - reflexivity.
  - vm_compute. discriminate.
  - constructor; [vm_compute; reflexivity |].
    constructor; [vm_compute; reflexivity |].
    constructor; [vm_compute; reflexivity | constructor].
  - simpl. lia.
  - reflexivity.
  - intros j Hj. assert (j = 0%nat) as -> by (simpl in Hj; lia). vm_compute. reflexivity.
  - vm_compute. reflexivity.
  - reflexivity.
Defined.
